(** * discordgpt: the response cycle of the Discord assistant

    A shallow embedding of [src/index.ts] (the [MessageCreate] handler and
    its helpers), with the catch block of the earlier variant of the handler
    and the input mapping of the oldest one, followed by the properties of
    the response orchestration loop.

    Conventions of the embedding:
    - a JavaScript string is the list of its UTF-16 code units, so that
      [length], [slice], [startsWith] and [trimStart] act as the source's;
    - the chat gateway (discord.js), the completion service (openai) and
      the attachment download are oracles over an abstract world state,
      threaded explicitly; every call to them is recorded in a trace;
    - a rejected promise or a thrown exception is a value of [Thrown];
    - the typing indicator ([setInterval]/[clearInterval]) is driven by
      wall-clock time and is not part of the trace. *)

From Stdlib Require Import String Ascii.
From Stdlib Require Import List ZArith NArith Lia Bool.
From Stdlib Require Import Permutation Sorted.
Import ListNotations.
Open Scope list_scope.

(** ** JavaScript strings *)

Module JS.

Definition code_unit := N.
Definition jsstring := list code_unit.

(** A string literal of the source (ASCII only). *)
Definition js (s : string) : jsstring :=
  map N_of_ascii (list_ascii_of_string s).
Arguments js s%_string.

Fixpoint str_eqb (a b : jsstring) : bool :=
  match a, b with
  | [], [] => true
  | c :: a', d :: b' => N.eqb c d && str_eqb a' b'
  | _, _ => false
  end.

(** [s.startsWith(p)] *)
Fixpoint startsWith (s p : jsstring) {struct p} : bool :=
  match p with
  | [] => true
  | c :: p' =>
      match s with
      | [] => false
      | d :: s' => N.eqb c d && startsWith s' p'
      end
  end.

(** [s.slice(start)] and [s.slice(start, end)] for non-negative indices. *)
Definition slice_from (s : jsstring) (start : nat) : jsstring :=
  skipn start s.

Definition slice (s : jsstring) (start stop : nat) : jsstring :=
  firstn (stop - start) (skipn start s).

(** WhiteSpace and LineTerminator code points of ECMAScript, the ones
    [trimStart] removes. *)
Definition is_whitespace (c : code_unit) : bool :=
  ((9 <=? c) && (c <=? 13) || (c =? 32) || (c =? 160) || (c =? 5760)
   || (8192 <=? c) && (c <=? 8202) || (c =? 8232) || (c =? 8233)
   || (c =? 8239) || (c =? 8287) || (c =? 12288) || (c =? 65279))%N.

(** [s.trimStart()] *)
Fixpoint trimStart (s : jsstring) : jsstring :=
  match s with
  | [] => []
  | c :: s' => if is_whitespace c then trimStart s' else s
  end.

(** [parts.join(sep)] *)
Fixpoint join (sep : jsstring) (parts : list jsstring) : jsstring :=
  match parts with
  | [] => []
  | [p] => p
  | p :: rest => p ++ sep ++ join sep rest
  end.

(** [s.replace(pat, rep)] with a string pattern: the first occurrence
    only, wherever it is. *)
Fixpoint replace (s pat rep : jsstring) : jsstring :=
  if startsWith s pat then rep ++ skipn (length pat) s
  else match s with
       | [] => []
       | c :: s' => c :: replace s' pat rep
       end.

(** [f.contentType?.startsWith(p)]: [undefined], hence falsy, on a
    missing content type. *)
Definition opt_startsWith (s : option jsstring) (p : jsstring) : bool :=
  match s with
  | Some s' => startsWith s' p
  | None => false
  end.

End JS.
Import JS.

(** ** Values crossing the service boundaries *)

(** An [Error] instance, as far as the handler looks at it. *)
Module Error.
Record JsError := { message : jsstring }.
End Error.
Definition JsError := Error.JsError.

(** A thrown value: an [Error] instance or anything else. *)
Inductive Thrown :=
| ThrownError (e : JsError)
| ThrownOther.

(** What [JSON.parse(item.arguments).limit] can evaluate to. *)
Inductive JsValue :=
| JUndefined
| JNull
| JBool (b : bool)
| JNumber (z : Z)
| JString (s : jsstring)
| JOther.

Module Discord.

Record User := {
  user_id : jsstring;
  displayName : jsstring;
  bot : bool
}.

Record Attachment := {
  name : jsstring;
  url : jsstring;
  contentType : option jsstring
}.

(** [message.reference], as far as the handler reads it; [messageId] may
    be [undefined]. *)
Record MessageReference := { messageId : option jsstring }.

(** [content] is always a string, so the empty-string default that
    [buildTextFromDiscordMessage] gives it never applies.  [reference] is
    [None] for [null]; [guild] holds the guild's name; [channel_name] is
    [None] for a DM-based channel. *)
Record Message := {
  msg_id : jsstring;
  author : User;
  content : jsstring;
  createdTimestamp : Z;
  attachments : list Attachment;
  reference : option MessageReference;
  guild : option jsstring;
  channel_name : option jsstring
}.

(** The argument of [channel.messages.fetch]. *)
Record FetchOptions := {
  limit : JsValue;
  before : option jsstring
}.

End Discord.
Import Discord.

Module OpenAI.

(** [modelList] *)
Inductive Model := gpt_5_nano | gpt_5_mini | gpt_5_2 | gpt_5_1_codex.

Definition modelList : list Model :=
  [gpt_5_nano; gpt_5_mini; gpt_5_2; gpt_5_1_codex].

Definition model_name (m : Model) : jsstring :=
  match m with
  | gpt_5_nano => js "gpt-5-nano"
  | gpt_5_mini => js "gpt-5-mini"
  | gpt_5_2 => js "gpt-5.2"
  | gpt_5_1_codex => js "gpt-5.1-codex"
  end.

Inductive Role := system | user | assistant.

Inductive ContentPart :=
| input_text (text : jsstring)
| input_image (image_url detail : jsstring)
| input_file (file_url : jsstring).

Inductive Content :=
| Text (text : jsstring)
| Parts (parts : list ContentPart).

Record InputTurn := { role : Role; turn_content : Content }.

(** The function tool of the completion request. *)
Record Tool := {
  tool_type : jsstring;
  tool_name : jsstring;
  tool_description : jsstring;
  limit_type : jsstring;
  limit_description : jsstring;
  limit_minimum : Z;
  limit_maximum : Z;
  additionalProperties : bool;
  required : list jsstring;
  strict : bool
}.

(** [tools] is [None] when the request object has no [tools] key. *)
Record CreateRequest := {
  create_model : Model;
  create_input : list InputTurn;
  tools : option (list Tool)
}.

Record SelectRequest := {
  select_model_name : Model;
  select_input : list InputTurn;
  format_name : jsstring
}.

(** [output_parsed] is the value validated against [modelSchema], or
    [None] when the response carries no parsed value. *)
Record SelectResponse := { output_parsed : option Model }.

Inductive OutputItem :=
| function_call (call_name arguments : jsstring)
| other_item.

Record Response := {
  output : list OutputItem;
  output_text : jsstring
}.

End OpenAI.
Import OpenAI.

(** ** Oracles and traces *)

(** One entry per call that leaves the process.  [EvCreate] carries the
    value of the loop counter [attempt] at the time of the call. *)
Inductive Event :=
| EvFetchReference (m : Message)
| EvHttpGet (target : jsstring)
| EvSelect (req : SelectRequest)
| EvCreate (attempt : nat) (req : CreateRequest)
| EvFetch (opts : FetchOptions)
| EvReply (to : Message) (text : jsstring)
| EvSend (text : jsstring).

(** The collaborators of the handler.  The two completion-service calls and
    the attachment download reject with [Error] instances; the gateway may
    reject with anything.  [null_message] is the [TypeError] of the runtime
    for reading [.message] of [null]. *)
Record Services (W : Type) := {
  toISOString : Z -> jsstring;
  JSON_parse_limit : jsstring -> Thrown + JsValue;
  null_message : JsError;
  fetchReference : Message -> W -> (Thrown + option Message) * W;
  messages_fetch : FetchOptions -> W -> (Thrown + list Message) * W;
  responses_parse : SelectRequest -> W -> (JsError + SelectResponse) * W;
  responses_create : CreateRequest -> W -> (JsError + Response) * W;
  http_text : jsstring -> W -> (JsError + jsstring) * W;
  message_reply : Message -> jsstring -> W -> (Thrown + unit) * W;
  channel_send : jsstring -> W -> (Thrown + unit) * W
}.

Arguments toISOString {W}.
Arguments JSON_parse_limit {W}.
Arguments null_message {W}.
Arguments fetchReference {W}.
Arguments messages_fetch {W}.
Arguments responses_parse {W}.
Arguments responses_create {W}.
Arguments http_text {W}.
Arguments message_reply {W}.
Arguments channel_send {W}.

(** How a run of the handler or of one of its loops ends: by a [return]
    statement, by leaving a [for] loop through its condition, or, in the
    model only, by exhausting the recursion bound. *)
Inductive Exit := Return | FallThrough | OutOfFuel.

(** ** The monad of the handler: world state, exceptions, trace *)

Module Run.
Section Monad.
Context {W : Type}.

Definition M (E A : Type) : Type := W -> (E + A) * W * list Event.

Definition ret {E A} (a : A) : M E A := fun w => (inr a, w, []).

Definition throw {E A} (e : E) : M E A := fun w => (inl e, w, []).

Definition bind {E A B} (m : M E A) (f : A -> M E B) : M E B :=
  fun w =>
    let '(r, w1, t1) := m w in
    match r with
    | inl e => (inl e, w1, t1)
    | inr a => let '(r2, w2, t2) := f a w1 in (r2, w2, t1 ++ t2)
    end.

(** A call to an oracle, recorded in the trace. *)
Definition call {E A} (ev : Event) (oracle : W -> (E + A) * W) : M E A :=
  fun w => let '(r, w1) := oracle w in (r, w1, [ev]).

(** [guard] of @libts/trycatch: the tuple [[value, error]]. *)
Definition guard {A} (m : M JsError A)
  : M Thrown (option A * option JsError) :=
  fun w =>
    let '(r, w1, t1) := m w in
    match r with
    | inl e => (inr (None, Some e), w1, t1)
    | inr a => (inr (Some a, None), w1, t1)
    end.

(** A rejection of guarded code met outside of [guard]. *)
Definition rethrow {A} (m : M JsError A) : M Thrown A :=
  fun w =>
    let '(r, w1, t1) := m w in
    match r with
    | inl e => (inl (ThrownError e), w1, t1)
    | inr a => (inr a, w1, t1)
    end.

(** A pending promise observed when it settles. *)
Definition settled {E A} (m : M E A) : M E (E + A) :=
  fun w => let '(r, w1, t1) := m w in (inr r, w1, t1).

(** [try { body } catch (err) { handler }] *)
Definition try_catch {A} (body : M Thrown A) (handler : Thrown -> M Thrown A)
  : M Thrown A :=
  fun w =>
    let '(r, w1, t1) := body w in
    match r with
    | inl err => let '(r2, w2, t2) := handler err w1 in (r2, w2, t1 ++ t2)
    | inr a => (inr a, w1, t1)
    end.

(** [await Promise.all(l.map(f))].  Every callback runs up to its first
    [await] before any result is seen, so all the calls are issued, in the
    order of [l], also when one of them rejects.  When several reject, the
    rejection reported is the one that settles first; it is taken here to
    be the first in the order of [l]. *)
Fixpoint mapM {E A B} (f : A -> M E B) (l : list A) : M E (list B) :=
  match l with
  | [] => ret []
  | a :: l' =>
      fun w =>
        let '(r, w1, t1) := f a w in
        let '(rs, w2, t2) := mapM f l' w1 in
        (match r with
         | inl e => inl e
         | inr b =>
             match rs with
             | inl e => inl e
             | inr bs => inr (b :: bs)
             end
         end, w2, t1 ++ t2)
  end.

Definition result {E A} (x : (E + A) * W * list Event) : E + A := fst (fst x).
Definition world {E A} (x : (E + A) * W * list Event) : W := snd (fst x).
Definition trace {E A} (x : (E + A) * W * list Event) : list Event := snd x.

(** Every event of every run of [m] satisfies [P]. *)
Definition emits {E A} (P : Event -> Prop) (m : M E A) : Prop :=
  forall w, Forall P (trace (m w)).

End Monad.
End Run.
Import Run.

Declare Scope run_scope.
Delimit Scope run_scope with run.
Notation "x <- m ;; k" := (bind m (fun x => k))
  (at level 61, m at next level, right associativity) : run_scope.
Notation "m ;; k" := (bind m (fun _ => k))
  (at level 61, right associativity) : run_scope.
Open Scope run_scope.

(** ** Helpers of the handler *)

Definition LF : jsstring := [10%N].

(** [history.sort((a, b) => a.createdTimestamp - b.createdTimestamp)]:
    [Array.prototype.sort] is stable, which fixes its result; here as a
    stable insertion sort. *)
Fixpoint insert (m : Message) (l : list Message) : list Message :=
  match l with
  | [] => [m]
  | x :: l' =>
      if (createdTimestamp m <=? createdTimestamp x)%Z then m :: x :: l'
      else x :: insert m l'
  end.

Definition sort_by_timestamp (l : list Message) : list Message :=
  fold_right insert [] l.

(** Ascending order of creation. *)
Definition earlier (a b : Message) : Prop :=
  (createdTimestamp a <= createdTimestamp b)%Z.

(** The array expression assigned to [history] when a batch arrives. *)
Definition merge_history (fetched history : list Message) : list Message :=
  sort_by_timestamp (fetched ++ history).

(** [history[history.length - 1]?.id] *)
Definition anchor (history : list Message) : option jsstring :=
  option_map msg_id (nth_error history (length history - 1)).

(** [item.type === "function_call" && item.name === "get_messages"] *)
Definition is_get_messages (item : OutputItem) : bool :=
  match item with
  | function_call n _ => str_eqb n (js "get_messages")
  | other_item => false
  end.

Definition get_messages_tool : Tool := {|
  tool_type := js "function";
  tool_name := js "get_messages";
  tool_description :=
    js "Fetch more message history from the current channel.";
  limit_type := js "integer";
  limit_description :=
    js "The number of messages to fetch, between 1 and 20.";
  limit_minimum := 1;
  limit_maximum := 20;
  additionalProperties := false;
  required := [js "limit"];
  strict := true
|}.

Definition select_system_prompt : jsstring :=
  join LF
    [ js "Select the best model for the following conversation from "
        ++ join (js ", ") (map model_name modelList) ++ js ".";
      js "Provide only the model name as response.";
      js "Select a smaller model for simpler conversations and a larger model for more complex ones." ].

Definition system_preamble (message : Message) : jsstring :=
  join LF
    [ js "You are a Discord assistant. You will be given only the last few messages.";
      js "If the context is insufficient, use the tool `get_messages` to fetch more history before answering.";
      js "Fetch the minimum amount needed.";
      [];
      js "guild_name: "
        ++ match guild message with
           | Some g => g
           | None => js "Direct Message"
           end;
      js "channel_name: "
        ++ match channel_name message with
           | Some c => c
           | None => js "Direct Message"
           end ].

(** [selectResponse.output_parsed?.model ?? modelList[0]] *)
Definition selected_model (selectResponse : SelectResponse) : Model :=
  match output_parsed selectResponse with
  | Some m => m
  | None => nth 0 modelList gpt_5_nano
  end.

(** The argument of [openai.responses.create] at loop counter [attempt]. *)
Definition create_request (attempt : nat) (selectResponse : SelectResponse)
    (message : Message) (input : list InputTurn) : CreateRequest :=
  {| create_model := selected_model selectResponse;
     create_input :=
       {| role := system; turn_content := Text (system_preamble message) |}
       :: input;
     tools := if attempt <? 2 then Some [get_messages_tool] else None |}.

(** The values of [JSON.parse(item.arguments).limit] over the
    [get_messages] items of an output whose arguments parse. *)
Definition requested_limits (parse_limit : jsstring -> Thrown + JsValue)
    (items : list OutputItem) : list JsValue :=
  flat_map (fun item =>
              match item with
              | function_call n args =>
                  if str_eqb n (js "get_messages") then
                    match parse_limit args with
                    | inr v => [v]
                    | inl _ => []
                    end
                  else []
              | other_item => []
              end) items.

(** The promise of one [get_messages] item of [response.output]: rejected
    before its fetch was issued, or settled with the outcome of the fetch. *)
Inductive Pending :=
| Rejected (err : Thrown)
| Fetched (r : Thrown + list Message).

Fixpoint first_rejected (ps : list Pending) : option Thrown :=
  match ps with
  | [] => None
  | Rejected err :: _ => Some err
  | Fetched _ :: rest => first_rejected rest
  end.

(** The continuations after [await], run as the fetches settle: each reads
    the current [history] and replaces it. *)
Fixpoint merge_fetched (ps : list Pending) (history : list Message)
  : Thrown + list Message :=
  match ps with
  | [] => inr history
  | Rejected err :: _ => inl err
  | Fetched (inl err) :: _ => inl err
  | Fetched (inr batch) :: rest => merge_fetched rest (merge_history batch history)
  end.

(** ** The [MessageCreate] handler of [src/index.ts] *)

Section Bot.
Context {W : Type} (svc : Services W).

Local Abbreviation M := (@Run.M W).

Definition buildTextFromDiscordMessage (m : Message) (prefix : jsstring)
  : jsstring :=
  join LF
    [ js "from: " ++ displayName (author m);
      js "time: " ++ toISOString svc (createdTimestamp m);
      if startsWith (content m) prefix
      then trimStart (slice_from (content m) (length prefix))
      else content m ].

(** The callback mapped over the attachments. *)
Definition attachment_part (m : Message) (f : Attachment)
  : M JsError ContentPart :=
  if opt_startsWith (contentType f) (js "image/") then
    ret (input_image (url f) (js "auto"))
  else if opt_startsWith (contentType f) (js "text/") then
    body <- call (EvHttpGet (url f)) (http_text svc (url f)) ;;
    ret (input_text
           (join LF
              [ js "from: " ++ displayName (author m);
                js "time: " ++ toISOString svc (createdTimestamp m);
                js "filename: " ++ name f;
                js "content:";
                body ]))
  else ret (input_file (url f)).

Definition buildPartsFromDiscordMessage (m : Message) (prefix : jsstring)
  : M JsError (list ContentPart) :=
  parts <- mapM (attachment_part m) (firstn 10 (attachments m)) ;;
  ret (input_text (buildTextFromDiscordMessage m prefix) :: parts).

(** The guarded [openai.responses.parse] call. *)
Definition select_model (message : Message) (prefix : jsstring)
  : M Thrown (option SelectResponse * option JsError) :=
  guard
    (parts <- buildPartsFromDiscordMessage message prefix ;;
     let req :=
       {| select_model_name := gpt_5_nano;
          select_input :=
            [ {| role := system; turn_content := Text select_system_prompt |};
              {| role := user; turn_content := Parts parts |} ];
          format_name := js "model_schema" |} in
     call (EvSelect req) (responses_parse svc req)).

(** The callback mapped over [history] to build [input]. *)
Definition input_turn (uid prefix : jsstring) (m : Message)
  : M JsError InputTurn :=
  if str_eqb (user_id (author m)) uid then
    ret {| role := assistant;
           turn_content := Text (buildTextFromDiscordMessage m prefix) |}
  else
    parts <- buildPartsFromDiscordMessage m prefix ;;
    ret {| role := user; turn_content := Parts parts |}.

(** The reply loop: [for (let i = 0; i < text.length; i += 2000)]. *)
Fixpoint dispatch_loop (fuel i : nat) (message : Message) (text : jsstring)
  : M Thrown Exit :=
  match fuel with
  | O => ret OutOfFuel
  | S fuel' =>
      if i <? length text then
        (if i =? 0 then
           call (EvReply message (slice text i (i + 2000)))
                (message_reply svc message (slice text i (i + 2000)))
         else
           call (EvSend (slice text i (i + 2000)))
                (channel_send svc (slice text i (i + 2000)))) ;;
        dispatch_loop fuel' (i + 2000) message text
      else ret FallThrough
  end.

Definition dispatch (message : Message) (text : jsstring) : M Thrown Exit :=
  dispatch_loop (S (length text)) 0 message text.

(** The synchronous part of the callbacks of [response.output.map]: each
    [get_messages] item parses its arguments and issues its fetch, all of
    them anchored on the [history] of that moment. *)
Fixpoint start_tool_calls (history : list Message) (items : list OutputItem)
  : M Thrown (list Pending) :=
  match items with
  | [] => ret []
  | item :: rest =>
      match item with
      | function_call n args =>
          if str_eqb n (js "get_messages") then
            match JSON_parse_limit svc args with
            | inl err =>
                ps <- start_tool_calls history rest ;;
                ret (Rejected err :: ps)
            | inr lim =>
                let opts := {| limit := lim; before := anchor history |} in
                r <- settled (call (EvFetch opts) (messages_fetch svc opts)) ;;
                ps <- start_tool_calls history rest ;;
                ret (Fetched r :: ps)
            end
          else start_tool_calls history rest
      | other_item => start_tool_calls history rest
      end
  end.

(** [await Promise.all(response.output.map(...))], leaving the new value
    of [history]. *)
Definition process_tool_calls (history : list Message)
    (items : list OutputItem) : M Thrown (list Message) :=
  ps <- start_tool_calls history items ;;
  match first_rejected ps with
  | Some err => throw err
  | None =>
      match merge_fetched ps history with
      | inl err => throw err
      | inr history' => ret history'
      end
  end.

(** [for (let attempt = 0; attempt <= 2; attempt++)] *)
Fixpoint attempt_loop (fuel attempt : nat) (uid prefix : jsstring)
    (message : Message) (selectResponse : SelectResponse)
    (history : list Message) : M Thrown Exit :=
  match fuel with
  | O => ret OutOfFuel
  | S fuel' =>
      if attempt <=? 2 then
        input <- rethrow (mapM (input_turn uid prefix) history) ;;
        let req := create_request attempt selectResponse message input in
        r <- guard (call (EvCreate attempt req) (responses_create svc req)) ;;
        match r with
        | (_, Some error) =>
            call (EvReply message (Error.message error))
                 (message_reply svc message (Error.message error)) ;;
            ret Return
        | (None, None) => throw (ThrownError (null_message svc))
        | (Some response, None) =>
            if negb (existsb is_get_messages (output response)) then
              e <- dispatch message (output_text response) ;;
              ret (match e with OutOfFuel => OutOfFuel | _ => Return end)
            else
              history' <- process_tool_calls history (output response) ;;
              attempt_loop fuel' (S attempt) uid prefix message
                           selectResponse history'
        end
      else ret FallThrough
  end.

(** The condition of the outer [if]. *)
Definition addressed (uid prefix : jsstring) (message : Message)
  : M Thrown bool :=
  if startsWith (content message) prefix then ret true
  else
    match reference message with
    | None => ret false
    | Some _ =>
        target <- call (EvFetchReference message) (fetchReference svc message) ;;
        ret match target with
            | Some t => str_eqb (user_id (author t)) uid
            | None => false
            end
    end.

(** [message.content.slice(startsWith(prefix) ? prefix.length : 0)] *)
Definition prompt_of (message : Message) (prefix : jsstring) : jsstring :=
  slice_from (content message)
    (if startsWith (content message) prefix then length prefix else 0).

(** The [try] block. *)
Definition try_block (uid prefix : jsstring) (message : Message)
  : M Thrown Exit :=
  let prompt := prompt_of message prefix in
  if length prompt =? 0 then ret Return
  else
    r <- select_model message prefix ;;
    match r with
    | (_, Some selectError) =>
        call (EvReply message (Error.message selectError))
             (message_reply svc message (Error.message selectError)) ;;
        ret Return
    | (None, None) => throw (ThrownError (null_message svc))
    | (Some selectResponse, None) =>
        let opts :=
          {| limit := JNumber 5;
             before := match reference message with
                       | Some target => messageId target
                       | None => Some (msg_id message)
                       end |} in
        fetched <- call (EvFetch opts) (messages_fetch svc opts) ;;
        let history := sort_by_timestamp (message :: fetched) in
        attempt_loop 4 0 uid prefix message selectResponse history
    end.

(** The [catch] block. *)
Definition catch_block (message : Message) (err : Thrown) : M Thrown Exit :=
  let text :=
    match err with
    | ThrownError e => Error.message e
    | ThrownOther => js "An unexpected error occurred."
    end in
  call (EvReply message text) (message_reply svc message text) ;;
  ret FallThrough.

(** [client.on(Events.MessageCreate, async (message) => ...)], with
    [client.user] as [client_user]. *)
Definition MessageCreate (client_user : option User) (message : Message)
  : M Thrown Exit :=
  if bot (author message) then ret Return
  else
    match client_user with
    | None => ret Return
    | Some cu =>
        let prefix := js "<@" ++ user_id cu ++ js ">" in
        a <- addressed (user_id cu) prefix message ;;
        if a then
          try_catch (try_block (user_id cu) prefix message)
                    (catch_block message)
        else ret FallThrough
    end.

End Bot.

(** ** The earlier variants of the handler *)

Module Variants.
Section Variants.
Context {W : Type} (svc : Services W).

(** The [catch] block of the variant that polls a completion flag. *)
Definition catch_block (message : Message) (err : Thrown)
  : @Run.M W Thrown Exit :=
  let text := js "An unexpected error occurred. Please try again later." in
  call (EvReply message text) (message_reply svc message text) ;;
  ret FallThrough.

(** The content of one input turn in the oldest variant of the handler. *)
Definition input_text_of (m : Message) (prefix : jsstring) : jsstring :=
  join LF
    [ js "from: " ++ displayName (author m);
      js "time: " ++ toISOString svc (createdTimestamp m);
      replace (content m) prefix ([]) ].

End Variants.
End Variants.

(** ** Reading a trace *)

Definition create_calls (t : list Event) : list (nat * CreateRequest) :=
  flat_map (fun ev => match ev with
                      | EvCreate attempt req => [(attempt, req)]
                      | _ => []
                      end) t.

Definition select_calls (t : list Event) : list SelectRequest :=
  flat_map (fun ev => match ev with EvSelect req => [req] | _ => [] end) t.

Definition fetches (t : list Event) : list FetchOptions :=
  flat_map (fun ev => match ev with EvFetch opts => [opts] | _ => [] end) t.

(** The texts the bot posts, replies and plain messages alike. *)
Definition posts (t : list Event) : list jsstring :=
  flat_map (fun ev => match ev with
                      | EvReply _ text => [text]
                      | EvSend text => [text]
                      | _ => []
                      end) t.

(** Kinds of events. *)
Definition is_download (ev : Event) : Prop :=
  match ev with EvHttpGet _ => True | _ => False end.

Definition is_selection (ev : Event) : Prop :=
  match ev with EvHttpGet _ | EvSelect _ => True | _ => False end.

Definition is_fetch (ev : Event) : Prop :=
  match ev with EvFetch _ => True | _ => False end.

Definition is_post (ev : Event) : Prop :=
  match ev with EvReply _ _ | EvSend _ => True | _ => False end.

Definition is_lookup (ev : Event) : Prop :=
  match ev with EvFetchReference _ => True | _ => False end.

Definition not_create (ev : Event) : Prop :=
  match ev with EvCreate _ _ => False | _ => True end.

Definition not_post (ev : Event) : Prop :=
  match ev with EvReply _ _ | EvSend _ => False | _ => True end.

(** The event of the chunk that starts at index [i] of the answer. *)
Definition chunk_event (message : Message) (i : nat) (c : jsstring) : Event :=
  if i =? 0 then EvReply message c else EvSend c.

(** Completion calls numbered consecutively from [a], never beyond 2, the
    tool offered before attempt 2 only. *)
Definition bounded_attempts (a : nat) (calls : list (nat * CreateRequest))
  : Prop :=
  map fst calls = seq a (length calls)
  /\ (length calls = 0 \/ a + length calls <= 3)
  /\ Forall (fun c => tools (snd c)
                      = if fst c <? 2 then Some [get_messages_tool] else None)
            calls.

(** The trace of a chunked answer: a reply, then plain messages. *)
Definition chunk_events (message : Message) (chunks : list jsstring)
  : list Event :=
  match chunks with
  | [] => []
  | c :: rest => EvReply message c :: map EvSend rest
  end.

(** ** A reference world

    A scripted instance of the collaborators, used to run the handler on
    concrete inputs: a channel log (newest first), one selection answer and
    the successive answers of the completion service. *)

Module Reference.

Record World := {
  channel : list Message;
  selection : JsError + SelectResponse;
  completions : list (JsError + Response)
}.

Definition error (text : jsstring) : JsError := {| Error.message := text |}.

(** The messages of the log that precede the one with id [target]. *)
Fixpoint older_than (target : jsstring) (log : list Message) : list Message :=
  match log with
  | [] => []
  | m :: rest =>
      if str_eqb (msg_id m) target then rest else older_than target rest
  end.

Definition create (req : CreateRequest) (w : World)
  : (JsError + Response) * World :=
  match completions w with
  | [] => (inl (error (js "Connection error.")), w)
  | r :: rest =>
      (r, {| channel := channel w; selection := selection w;
             completions := rest |})
  end.

Section Time.
Local Open Scope Z_scope.

(** The last [width] decimal digits of [n]. *)
Fixpoint decimal (width : nat) (n : Z) : jsstring :=
  match width with
  | O => []
  | S k => decimal k (n / 10) ++ [Z.to_N (48 + n mod 10)]
  end.

(** Year, month and day of a day number counted from 1970-01-01, in the
    proleptic Gregorian calendar. *)
Definition civil_from_days (days : Z) : Z * Z * Z :=
  let z := days + 719468 in
  let era := z / 146097 in
  let doe := z mod 146097 in
  let yoe := (doe - doe / 1460 + doe / 36524 - doe / 146096) / 365 in
  let doy := doe - (365 * yoe + yoe / 4 - yoe / 100) in
  let mp := (5 * doy + 2) / 153 in
  let d := doy - (153 * mp + 2) / 5 + 1 in
  let m := if mp <? 10 then mp + 3 else mp - 9 in
  (yoe + era * 400 + (if m <=? 2 then 1 else 0), m, d).

(** [new Date(t).toISOString()] for a time value in milliseconds since the
    epoch.  The time values of messages are taken from their snowflake ids
    and lie within the range of [Date], where the method does not throw. *)
Definition Date_toISOString (t : Z) : jsstring :=
  let '(y, m, d) := civil_from_days (t / 86400000) in
  let ms := t mod 86400000 in
  (if (0 <=? y) && (y <=? 9999) then decimal 4 y
   else (if y <? 0 then js "-" else js "+") ++ decimal 6 (Z.abs y))
  ++ js "-" ++ decimal 2 m ++ js "-" ++ decimal 2 d
  ++ js "T" ++ decimal 2 (ms / 3600000)
  ++ js ":" ++ decimal 2 (ms / 60000 mod 60)
  ++ js ":" ++ decimal 2 (ms / 1000 mod 60)
  ++ js "." ++ decimal 3 (ms mod 1000) ++ js "Z".

End Time.

(** *** [JSON.parse(s).limit]

    A parser of the JSON grammar that keeps of the text what the handler
    reads of it: the [limit] member of the outermost value. *)

Definition quote : code_unit := 34%N.

Definition is_json_space (c : code_unit) : bool :=
  ((c =? 32) || (c =? 9) || (c =? 10) || (c =? 13))%N.

Fixpoint skip_space (s : jsstring) : jsstring :=
  match s with
  | [] => []
  | c :: r => if is_json_space c then skip_space r else s
  end.

Definition is_digit (c : code_unit) : bool := ((48 <=? c) && (c <=? 57))%N.

Definition hex_digit (c : code_unit) : option N :=
  (if (48 <=? c) && (c <=? 57) then Some (c - 48)
   else if (65 <=? c) && (c <=? 70) then Some (c - 55)
   else if (97 <=? c) && (c <=? 102) then Some (c - 87)
   else None)%N.

(** The code unit denoted by the character after a backslash. *)
Definition escape (c : code_unit) : option code_unit :=
  (if (c =? 34) || (c =? 92) || (c =? 47) then Some c
   else if c =? 98 then Some 8
   else if c =? 102 then Some 12
   else if c =? 110 then Some 10
   else if c =? 114 then Some 13
   else if c =? 116 then Some 9
   else None)%N.

(** A string literal after its opening quote: the code units it denotes
    and the text after its closing quote, or the place of the error. *)
Fixpoint string_literal (s acc : jsstring)
  : jsstring + (jsstring * jsstring) :=
  match s with
  | [] => inl []
  | c :: r =>
      if (c =? 34)%N then inr (rev acc, r)
      else if (c =? 92)%N then
        match r with
        | [] => inl []
        | e :: r1 =>
            if (e =? 117)%N then
              match r1 with
              | a :: b :: c' :: d :: r2 =>
                  match hex_digit a, hex_digit b, hex_digit c', hex_digit d with
                  | Some x3, Some x2, Some x1, Some x0 =>
                      string_literal r2
                        ((((x3 * 16 + x2) * 16 + x1) * 16 + x0)%N :: acc)
                  | _, _, _, _ => inl r1
                  end
              | _ => inl r1
              end
            else match escape e with
                 | Some u => string_literal r1 (u :: acc)
                 | None => inl r
                 end
        end
      else if (c <? 32)%N then inl s
      else string_literal r (c :: acc)
  end.

Section Numbers.
Local Open Scope Z_scope.

(** The longest run of decimal digits at the head of [s]: its value
    appended to [acc], the number of digits, and the rest. *)
Fixpoint digits (s : jsstring) (acc count : Z) : Z * Z * jsstring :=
  match s with
  | [] => (acc, count, [])
  | c :: r =>
      if is_digit c
      then digits r (10 * acc + Z.of_N (c - 48)%N) (count + 1)
      else (acc, count, s)
  end.

(** The Number nearest to the positive rational [n / d] (ties to even), as
    a value of the handler: an integer, or [JOther] for a number with a
    fractional part and for [Infinity]. *)
Definition nearest_double (n d : Z) : JsValue :=
  let scaled e := if 0 <=? e then (n, d * 2 ^ e) else (n * 2 ^ (- e), d) in
  let e0 := Z.log2 n - Z.log2 d - 52 in
  let e1 := let '(a, b) := scaled e0 in
            if a / b <? 2 ^ 52 then e0 - 1 else e0 in
  let e := Z.max e1 (-1074) in
  let '(a, b) := scaled e in
  let q := a / b in
  let r := a mod b in
  let q' := if (b <? 2 * r) || ((b =? 2 * r) && Z.odd q) then q + 1 else q in
  if 0 <=? e then
    if 2 ^ 1024 <=? q' * 2 ^ e then JOther else JNumber (q' * 2 ^ e)
  else if q' mod 2 ^ (- e) =? 0 then JNumber (q' / 2 ^ (- e))
  else JOther.

Definition negate (v : JsValue) : JsValue :=
  match v with
  | JNumber z => JNumber (- z)
  | other => other
  end.

(** The Number written as [mantissa * 10 ^ scale], the mantissa having
    [count] digits. *)
Definition number_value (mantissa count scale : Z) : JsValue :=
  if mantissa =? 0 then JNumber 0
  else if 400 <? scale + count then JOther
  else if scale + count <? -400 then JNumber 0
  else if 0 <=? scale then nearest_double (mantissa * 10 ^ scale) 1
  else nearest_double mantissa (10 ^ (- scale)).

(** A number literal: an optional minus sign, an integer part without a
    leading zero, an optional fraction, an optional exponent. *)
Definition number_literal (s : jsstring) : jsstring + (JsValue * jsstring) :=
  let '(negative, s1) :=
    match s with
    | c :: r => if (c =? 45)%N then (true, r) else (false, s)
    | [] => (false, s)
    end in
  match s1 with
  | [] => inl []
  | c :: r =>
      if negb (is_digit c) then inl s1
      else
        let '(int_part, int_count, s2) :=
          if (c =? 48)%N then (0, 1, r) else digits s1 0 0 in
        let fraction :=
          match s2 with
          | p :: r2 =>
              if (p =? 46)%N then
                let '(m, n, s3) := digits r2 int_part 0 in
                if n =? 0 then inl r2 else inr (m, n, s3)
              else inr (int_part, 0, s2)
          | [] => inr (int_part, 0, s2)
          end in
        match fraction with
        | inl e => inl e
        | inr (mantissa, frac_count, s3) =>
            let exponent :=
              match s3 with
              | x :: r3 =>
                  if ((x =? 101) || (x =? 69))%N then
                    let '(minus, r4) :=
                      match r3 with
                      | g :: r5 =>
                          if (g =? 45)%N then (true, r5)
                          else if (g =? 43)%N then (false, r5)
                          else (false, r3)
                      | [] => (false, r3)
                      end in
                    let '(x10, n, s4) := digits r4 0 0 in
                    if n =? 0 then inl r4
                    else inr (if minus then - x10 else x10, s4)
                  else inr (0, s3)
              | [] => inr (0, s3)
              end in
            match exponent with
            | inl e => inl e
            | inr (x10, s4) =>
                let v := number_value mantissa (int_count + frac_count)
                                      (x10 - frac_count) in
                inr (if negative then negate v else v, s4)
            end
        end
  end.

End Numbers.

(** The result of reading a JSON value at the head of a text: what it is
    as a value, its [limit] member when it is an object, and the text after
    it; or the place of the syntax error. *)
Definition Parsed : Type := jsstring + (JsValue * option JsValue * jsstring).

(** One level of the grammar: a value, given how to read the members of an
    object and the elements of an array after the opening bracket. *)
Definition value_step (members : jsstring -> JsValue -> Parsed)
    (elements : jsstring -> Parsed) (s : jsstring) : Parsed :=
  match skip_space s with
  | [] => inl []
  | c :: r =>
      if (c =? 123)%N then
        match skip_space r with
        | c1 :: r1 =>
            if (c1 =? 125)%N then inr (JOther, Some JUndefined, r1)
            else members r JUndefined
        | [] => inl []
        end
      else if (c =? 91)%N then
        match skip_space r with
        | c1 :: r1 =>
            if (c1 =? 93)%N then inr (JOther, None, r1)
            else elements r
        | [] => inl []
        end
      else if (c =? 34)%N then
        match string_literal r [] with
        | inl e => inl e
        | inr (text, r1) => inr (JString text, None, r1)
        end
      else if (c =? 45)%N || is_digit c then
        match number_literal (c :: r) with
        | inl e => inl e
        | inr (v, r1) => inr (v, None, r1)
        end
      else if startsWith (c :: r) (js "true") then
        inr (JBool true, None, skipn 4 (c :: r))
      else if startsWith (c :: r) (js "false") then
        inr (JBool false, None, skipn 5 (c :: r))
      else if startsWith (c :: r) (js "null") then
        inr (JNull, None, skipn 4 (c :: r))
      else inl (c :: r)
  end.

(** The members of an object from a member name on; [found] is the value
    of the last member named [limit] so far. *)
Definition members_step (value : jsstring -> Parsed)
    (members : jsstring -> JsValue -> Parsed) (s : jsstring)
    (found : JsValue) : Parsed :=
  match skip_space s with
  | [] => inl []
  | c :: r =>
      if negb (c =? 34)%N then inl (c :: r)
      else
        match string_literal r [] with
        | inl e => inl e
        | inr (key, r1) =>
            match skip_space r1 with
            | [] => inl []
            | c2 :: r2 =>
                if negb (c2 =? 58)%N then inl (c2 :: r2)
                else
                  match value r2 with
                  | inl e => inl e
                  | inr (v, _, r3) =>
                      let found' :=
                        if str_eqb key (js "limit") then v else found in
                      match skip_space r3 with
                      | [] => inl []
                      | c4 :: r4 =>
                          if (c4 =? 44)%N then members r4 found'
                          else if (c4 =? 125)%N
                          then inr (JOther, Some found', r4)
                          else inl (c4 :: r4)
                      end
                  end
            end
        end
  end.

(** The elements of an array from an element on. *)
Definition elements_step (value : jsstring -> Parsed)
    (elements : jsstring -> Parsed) (s : jsstring) : Parsed :=
  match value s with
  | inl e => inl e
  | inr (_, _, r1) =>
      match skip_space r1 with
      | [] => inl []
      | c2 :: r2 =>
          if (c2 =? 44)%N then elements r2
          else if (c2 =? 93)%N then inr (JOther, None, r2)
          else inl (c2 :: r2)
      end
  end.

(** The grammar, by recursion on a bound of the nesting.  Two levels in a
    row read at least one code unit, so a bound above twice the length of
    the text is never exhausted ([value_bound] below). *)
Fixpoint value (fuel : nat) (s : jsstring) : Parsed :=
  match fuel with
  | O => inl s
  | S fuel' => value_step (members fuel') (elements fuel') s
  end
with members (fuel : nat) (s : jsstring) (found : JsValue) : Parsed :=
  match fuel with
  | O => inl s
  | S fuel' => members_step (value fuel') (members fuel') s found
  end
with elements (fuel : nat) (s : jsstring) : Parsed :=
  match fuel with
  | O => inl s
  | S fuel' => elements_step (value fuel') (elements fuel') s
  end.

(** The message of the [SyntaxError] of [JSON.parse] for the text [s] with
    an error at the place where [rest] is left, in the wording of V8 for
    an unexpected token: the token, and the text or, when this has 21 code
    units or more, the ten code units on each side of the token.  (V8
    words differently, by position, an error inside a number or a string
    literal and a missing colon or comma.) *)
Definition syntax_error (s rest : jsstring) : JsError :=
  match rest with
  | [] => error (js "Unexpected end of JSON input")
  | c :: _ =>
      let pos := length s - length rest in
      let context :=
        if length s <? 21 then [quote] ++ s ++ [quote]
        else if pos <? 10 then
          [quote] ++ firstn (pos + 10) s ++ [quote] ++ js "..."
        else if pos <? length s - 10 then
          js "..." ++ [quote] ++ firstn 20 (skipn (pos - 10) s) ++ [quote]
          ++ js "..."
        else js "..." ++ [quote] ++ skipn (pos - 10) s ++ [quote] in
      error (js "Unexpected token '" ++ [c] ++ js "', " ++ context
             ++ js " is not valid JSON")
  end.

(** [JSON.parse(s).limit]: a [SyntaxError] on a text that is not JSON, a
    [TypeError] on the text of [null], [undefined] on a value without a
    [limit] member, and else the member (the last one of that name). *)
Definition parse_limit (s : jsstring) : Thrown + JsValue :=
  match value (S (2 * length s)) s with
  | inl rest => inl (ThrownError (syntax_error s rest))
  | inr (v, limit_member, rest) =>
      match skip_space rest with
      | _ :: _ => inl (ThrownError (syntax_error s (skip_space rest)))
      | [] =>
          match v, limit_member with
          | JNull, _ =>
              inl (ThrownError
                     (error (js "Cannot read properties of null (reading 'limit')")))
          | _, Some found => inr found
          | _, None => inr JUndefined
          end
      end
  end.

(** [messages.fetch({ limit, before })]: up to [limit] messages older than
    [before], newest first.  The gateway wants an integer from 1 to 100; a
    limit that is [undefined] or [null] is left out of the request, which
    then returns 50 messages, and a string is sent as it is.  The message
    of a refusal is reduced to its first line. *)
Definition fetch (opts : FetchOptions) (w : World)
  : (Thrown + list Message) * World :=
  let older :=
    match before opts with
    | Some target => older_than target (channel w)
    | None => channel w
    end in
  let answer (n : Z) :=
    if ((1 <=? n) && (n <=? 100))%Z then (inr (firstn (Z.to_nat n) older), w)
    else (inl (ThrownError (error (js "Invalid Form Body"))), w) in
  match limit opts with
  | JNumber n => answer n
  | JUndefined | JNull => answer 50%Z
  | JString text =>
      match text with
      | c :: _ =>
          if (c =? 48)%N then answer 0%Z
          else match digits text 0 0 with
               | (n, _, []) => answer n
               | _ => answer 0%Z
               end
      | [] => answer 0%Z
      end
  | _ => answer 0%Z
  end.

(** What the gateway answers to a message to post: it refuses an empty
    text and a text of more than 2000 characters (counted here in code
    units; the texts of the runs below are ASCII). *)
Definition post (text : jsstring) (w : World) : (Thrown + unit) * World :=
  if length text =? 0 then
    (inl (ThrownError (error (js "Cannot send an empty message"))), w)
  else if 2000 <? length text then
    (inl (ThrownError (error (js "Invalid Form Body"))), w)
  else (inr tt, w).

Definition services : Services World := {|
  toISOString := Date_toISOString;
  JSON_parse_limit := parse_limit;
  null_message :=
    error (js "Cannot read properties of null (reading 'message')");
  fetchReference := fun m w =>
    (match reference m with
     | Some {| messageId := Some target |} =>
         match find (fun x => str_eqb (msg_id x) target) (channel w) with
         | Some x => inr (Some x)
         | None => inl (ThrownError (error (js "Unknown Message")))
         end
     | _ =>
         inl (ThrownError
                (error (js "The message does not reference another message")))
     end, w);
  messages_fetch := fetch;
  responses_parse := fun _ w => (selection w, w);
  responses_create := create;
  http_text := fun _ w => (inl (error (js "Unable to connect.")), w);
  message_reply := fun _ text w => post text w;
  channel_send := post
|}.

Definition bot_user : User :=
  {| user_id := js "42"; displayName := js "assistant"; bot := true |}.

Definition alice : User :=
  {| user_id := js "7"; displayName := js "alice"; bot := false |}.

(** A message of [alice] in a guild channel. *)
Definition said (i : jsstring) (at_time : Z) (text : jsstring) : Message :=
  {| msg_id := i; author := alice; content := text;
     createdTimestamp := at_time; attachments := []; reference := None;
     guild := Some (js "guild"); channel_name := Some (js "general") |}.

Definition arguments_of_limit (limit_text : jsstring) : jsstring :=
  js "{" ++ [34%N] ++ js "limit" ++ [34%N] ++ js ":" ++ limit_text ++ js "}".

Definition answer (text : jsstring) : JsError + Response :=
  inr {| output := [other_item]; output_text := text |}.

Definition asks (args : jsstring) : JsError + Response :=
  inr {| output := [function_call (js "get_messages") args];
         output_text := [] |}.

End Reference.

(** ** Concrete runs

    A guild channel with seven messages of [alice]; the newest one mentions
    the bot, whose user id is 42. *)

Module Examples.
Import Reference.

Definition m0 : Message := said (js "m0") 0 (js "zero").
Definition m1 : Message := said (js "m1") 1 (js "one").
Definition m2 : Message := said (js "m2") 2 (js "two").
Definition m3 : Message := said (js "m3") 3 (js "three").
Definition m4 : Message := said (js "m4") 4 (js "four").
Definition m5 : Message := said (js "m5") 5 (js "five").

Definition trigger : Message := said (js "m6") 6 (js "<@42> and then?").

(** A mention followed by one space, and a mention alone. *)
Definition blank_mention : Message := said (js "m6") 6 (js "<@42> ").
Definition bare_mention : Message := said (js "m6") 6 (js "<@42>").

Definition world_of (newest : Message) (sel : JsError + SelectResponse)
    (answers : list (JsError + Response)) : World :=
  {| channel := [newest; m5; m4; m3; m2; m1; m0];
     selection := sel;
     completions := answers |}.

Definition selected (m : Model) : JsError + SelectResponse :=
  inr {| output_parsed := Some m |}.

(** The working history after the seed fetch of five messages. *)
Definition seed_history : list Message := [m1; m2; m3; m4; m5; trigger].

(** The output of a completion that asks for one more message. *)
Definition one_more : list OutputItem :=
  [function_call (js "get_messages") (arguments_of_limit (js "1"))].

Definition long_text : jsstring := repeat 97%N 4500.

(** The longest text that the gateway posts in one message. *)
Definition full_text : jsstring := repeat 97%N 2000.

(** The [SyntaxError] of [JSON.parse] on the text [oops]. *)
Definition oops_error : JsError :=
  error (js "Unexpected token 'o', " ++ [quote] ++ js "oops" ++ [quote]
         ++ js " is not valid JSON").

End Examples.

(** ** Shapes of the built input *)

Section Shapes.
Context {W : Type} (svc : Services W).

(** Whether the callback of [buildPartsFromDiscordMessage] downloads the
    attachment: a declared [text/] type that is not caught by the [image/]
    test before it. *)
Definition downloaded (f : Attachment) : bool :=
  negb (opt_startsWith (contentType f) (js "image/"))
  && opt_startsWith (contentType f) (js "text/").

(** [p] is a part that the callback can build for the attachment [f] of
    [m]; the body of a text attachment is whatever the download gave. *)
Definition part_of (m : Message) (f : Attachment) (p : ContentPart) : Prop :=
  if opt_startsWith (contentType f) (js "image/") then
    p = input_image (url f) (js "auto")
  else if opt_startsWith (contentType f) (js "text/") then
    exists body,
      p = input_text
            (join LF
               [ js "from: " ++ displayName (author m);
                 js "time: " ++ toISOString svc (createdTimestamp m);
                 js "filename: " ++ name f;
                 js "content:";
                 body ])
  else p = input_file (url f).

(** [t] is a turn that the mapping over [history] can build for [m]. *)
Definition turn_of (uid prefix : jsstring) (m : Message) (t : InputTurn)
  : Prop :=
  if str_eqb (user_id (author m)) uid then
    t = {| role := assistant;
           turn_content := Text (buildTextFromDiscordMessage svc m prefix) |}
  else
    exists rest,
      t = {| role := user;
             turn_content :=
               Parts (input_text (buildTextFromDiscordMessage svc m prefix)
                      :: rest) |}
      /\ Forall2 (part_of m) (firstn 10 (attachments m)) rest.

End Shapes.

(** ** The shape of a run

    What the runs of the attempt loop, of the [try] block and of the whole
    handler can look like: their outcome and their trace, case by case. *)

(** How a step that ends with a reply ends: the reply is accepted, or its
    rejection is thrown. *)
Definition reply_outcome (r : Thrown + Exit) : Prop :=
  r = inr Return \/ exists err, r = inl err.

(** The fetches of the tool calls of one output. *)
Definition tool_fetches (history : list Message) (limits : list JsValue)
  : list Event :=
  map (fun v => EvFetch {| limit := v; before := anchor history |}) limits.

(** The argument of the first fetch of a cycle. *)
Definition seed_options (message : Message) : FetchOptions :=
  {| limit := JNumber 5;
     before := match reference message with
               | Some target => messageId target
               | None => Some (msg_id message)
               end |}.

(** The argument of [openai.responses.parse]. *)
Definition selection_request (parts : list ContentPart) : SelectRequest :=
  {| select_model_name := gpt_5_nano;
     select_input :=
       [ {| role := system; turn_content := Text select_system_prompt |};
         {| role := user; turn_content := Parts parts |} ];
     format_name := js "model_schema" |}.

(** The text of the reply of the [catch] block. *)
Definition catch_text (err : Thrown) : jsstring :=
  match err with
  | ThrownError e => Error.message e
  | ThrownOther => js "An unexpected error occurred."
  end.

Section Grammar.
Context {W : Type} (svc : Services W).
Context (uid prefix : jsstring) (message : Message).

(** Runs of the attempt loop from the counter [a] and the history [h]. *)
Inductive attempt_run (sel : SelectResponse)
  : nat -> list Message -> Thrown + Exit -> list Event -> Prop :=
| RunExhausted a h :
    2 < a ->
    attempt_run sel a h (inr FallThrough) []
| RunInputFailed a h e t :
    a <= 2 -> Forall is_download t ->
    attempt_run sel a h (inl (ThrownError e)) t
| RunError a h t input e r :
    a <= 2 -> Forall is_download t ->
    Forall2 (turn_of svc uid prefix) h input ->
    reply_outcome r ->
    attempt_run sel a h r
      (t ++ [EvCreate a (create_request a sel message input);
             EvReply message (Error.message e)])
| RunAnswer a h t input chunks r :
    a <= 2 -> Forall is_download t ->
    Forall2 (turn_of svc uid prefix) h input ->
    Forall (fun c => 1 <= length c <= 2000) chunks ->
    reply_outcome r ->
    attempt_run sel a h r
      (t ++ EvCreate a (create_request a sel message input)
         :: chunk_events message chunks)
| RunToolsFailed a h t input limits err :
    a <= 2 -> Forall is_download t ->
    Forall2 (turn_of svc uid prefix) h input ->
    attempt_run sel a h (inl err)
      (t ++ EvCreate a (create_request a sel message input)
         :: tool_fetches h limits)
| RunTools a h t input limits h' r rest :
    a <= 2 -> Forall is_download t ->
    Forall2 (turn_of svc uid prefix) h input ->
    incl h h' ->
    (StronglySorted earlier h -> StronglySorted earlier h') ->
    attempt_run sel (S a) h' r rest ->
    attempt_run sel a h r
      (t ++ EvCreate a (create_request a sel message input)
         :: tool_fetches h limits ++ rest).

(** Runs of the [try] block. *)
Inductive cycle_run : Thrown + Exit -> list Event -> Prop :=
| CycleEmptyPrompt :
    prompt_of message prefix = [] ->
    cycle_run (inr Return) []
| CycleBuildFailed t e r :
    prompt_of message prefix <> [] ->
    Forall is_download t -> reply_outcome r ->
    cycle_run r (t ++ [EvReply message (Error.message e)])
| CycleSelectFailed t parts e r :
    prompt_of message prefix <> [] ->
    hd_error parts
    = Some (input_text (buildTextFromDiscordMessage svc message prefix)) ->
    Forall is_download t -> reply_outcome r ->
    cycle_run r
      (t ++ [EvSelect (selection_request parts);
             EvReply message (Error.message e)])
| CycleSeedFailed t parts err :
    prompt_of message prefix <> [] ->
    hd_error parts
    = Some (input_text (buildTextFromDiscordMessage svc message prefix)) ->
    Forall is_download t ->
    cycle_run (inl err)
      (t ++ [EvSelect (selection_request parts);
             EvFetch (seed_options message)])
| CycleAttempts t parts sel fetched r rest :
    prompt_of message prefix <> [] ->
    hd_error parts
    = Some (input_text (buildTextFromDiscordMessage svc message prefix)) ->
    Forall is_download t ->
    attempt_run sel 0 (sort_by_timestamp (message :: fetched)) r rest ->
    cycle_run r
      (t ++ EvSelect (selection_request parts)
         :: EvFetch (seed_options message) :: rest).

End Grammar.

(** The mention prefix of the bot. *)
Definition mention_prefix (cu : User) : jsstring :=
  js "<@" ++ user_id cu ++ js ">".

(** Runs of the handler. *)
Inductive handler_run {W : Type} (svc : Services W)
    (client_user : option User) (message : Message)
  : Thrown + Exit -> list Event -> Prop :=
| HandlerIgnored :
    bot (author message) = true \/ client_user = None ->
    handler_run svc client_user message (inr Return) []
| HandlerLookupFailed cu err :
    client_user = Some cu -> bot (author message) = false ->
    startsWith (content message) (mention_prefix cu) = false ->
    reference message <> None ->
    handler_run svc client_user message (inl err) [EvFetchReference message]
| HandlerNotAddressed cu t :
    client_user = Some cu -> bot (author message) = false ->
    startsWith (content message) (mention_prefix cu) = false ->
    Forall is_lookup t ->
    handler_run svc client_user message (inr FallThrough) t
| HandlerCycle cu t e body :
    client_user = Some cu -> bot (author message) = false ->
    Forall is_lookup t ->
    cycle_run svc (user_id cu) (mention_prefix cu) message (inr e) body ->
    handler_run svc client_user message (inr e) (t ++ body)
| HandlerCaught cu t err body r :
    client_user = Some cu -> bot (author message) = false ->
    Forall is_lookup t ->
    cycle_run svc (user_id cu) (mention_prefix cu) message (inl err) body ->
    r = inr FallThrough \/ (exists err', r = inl err') ->
    handler_run svc client_user message r
      (t ++ body ++ [EvReply message (catch_text err)]).

(** The texts of the replies to the triggering message, and of the plain
    messages sent to its channel. *)
Definition replies (t : list Event) : list jsstring :=
  flat_map (fun ev => match ev with EvReply _ text => [text] | _ => [] end) t.

Definition sends (t : list Event) : list jsstring :=
  flat_map (fun ev => match ev with EvSend text => [text] | _ => [] end) t.

(** The first input item of every completion request. *)
Definition preamble_turn (message : Message) : InputTurn :=
  {| role := system; turn_content := Text (system_preamble message) |}.

(** The exception of the first [get_messages] item, in the order of the
    output, whose arguments do not parse. *)
Fixpoint first_parse_error (parse_limit : jsstring -> Thrown + JsValue)
    (items : list OutputItem) : option Thrown :=
  match items with
  | [] => None
  | function_call n args :: rest =>
      if str_eqb n (js "get_messages") then
        match parse_limit args with
        | inl err => Some err
        | inr _ => first_parse_error parse_limit rest
        end
      else first_parse_error parse_limit rest
  | other_item :: rest => first_parse_error parse_limit rest
  end.

(** ** The handler of [src/unnamed/part_000]

    The variant that keeps [input] beside [history], builds the parts of a
    message without any download, replies with the whole answer at once and
    has the test of the addressee inside its [try] block.  Its helper
    [buildTextFromDiscordMessage], its requests and its fetches are those of
    [src/index.ts].  The typing indicator, a loop that polls a flag, runs
    beside the handler and is not part of the trace. *)

Module Part000.
Section Part000.
Context {W : Type} (svc : Services W).

Definition buildPartsFromDiscordMessage (m : Message) (prefix : jsstring)
  : list ContentPart :=
  input_text (buildTextFromDiscordMessage svc m prefix)
  :: map (fun f =>
            if opt_startsWith (contentType f) (js "image/")
            then input_image (url f) (js "auto")
            else input_file (url f))
         (firstn 10 (attachments m)).

(** The mapping of [history] to [input]. *)
Definition input_of (uid prefix : jsstring) (history : list Message)
  : list InputTurn :=
  map (fun m =>
         {| role := if str_eqb (user_id (author m)) uid
                    then assistant else user;
            turn_content :=
              if str_eqb (user_id (author m)) uid
              then Text (buildTextFromDiscordMessage svc m prefix)
              else Parts (buildPartsFromDiscordMessage m prefix) |})
      history.

Definition select_model (message : Message) (prefix : jsstring)
  : @Run.M W Thrown (option SelectResponse * option JsError) :=
  guard
    (let req := selection_request (buildPartsFromDiscordMessage message prefix)
     in call (EvSelect req) (responses_parse svc req)).

(** The continuations after [await]: each replaces [history], then
    [input]. *)
Fixpoint merge_fetched (uid prefix : jsstring) (ps : list Pending)
    (history : list Message) (input : list InputTurn)
  : Thrown + (list Message * list InputTurn) :=
  match ps with
  | [] => inr (history, input)
  | Rejected err :: _ => inl err
  | Fetched (inl err) :: _ => inl err
  | Fetched (inr batch) :: rest =>
      let history' := merge_history batch history in
      merge_fetched uid prefix rest history' (input_of uid prefix history')
  end.

Definition process_tool_calls (uid prefix : jsstring)
    (history : list Message) (input : list InputTurn)
    (items : list OutputItem)
  : @Run.M W Thrown (list Message * list InputTurn) :=
  ps <- start_tool_calls svc history items ;;
  match first_rejected ps with
  | Some err => throw err
  | None =>
      match merge_fetched uid prefix ps history input with
      | inl err => throw err
      | inr state => ret state
      end
  end.

Fixpoint attempt_loop (fuel attempt : nat) (uid prefix : jsstring)
    (message : Message) (selectResponse : SelectResponse)
    (history : list Message) (input : list InputTurn)
  : @Run.M W Thrown Exit :=
  match fuel with
  | O => ret OutOfFuel
  | S fuel' =>
      if attempt <=? 2 then
        let req := create_request attempt selectResponse message input in
        r <- guard (call (EvCreate attempt req) (responses_create svc req)) ;;
        match r with
        | (_, Some error) =>
            call (EvReply message (Error.message error))
                 (message_reply svc message (Error.message error)) ;;
            ret Return
        | (None, None) => throw (ThrownError (null_message svc))
        | (Some response, None) =>
            if negb (existsb is_get_messages (output response)) then
              call (EvReply message (output_text response))
                   (message_reply svc message (output_text response)) ;;
              ret Return
            else
              state <- process_tool_calls uid prefix history input
                                          (output response) ;;
              attempt_loop fuel' (S attempt) uid prefix message
                           selectResponse (fst state) (snd state)
        end
      else ret FallThrough
  end.

(** The [try] block. *)
Definition try_block (uid prefix : jsstring) (message : Message)
  : @Run.M W Thrown Exit :=
  a <- addressed svc uid prefix message ;;
  if a then
    let prompt := prompt_of message prefix in
    if length prompt =? 0 then ret Return
    else
      r <- select_model message prefix ;;
      match r with
      | (_, Some selectError) =>
          call (EvReply message (Error.message selectError))
               (message_reply svc message (Error.message selectError)) ;;
          ret Return
      | (None, None) => throw (ThrownError (null_message svc))
      | (Some selectResponse, None) =>
          fetched <- call (EvFetch (seed_options message))
                          (messages_fetch svc (seed_options message)) ;;
          let history := sort_by_timestamp (message :: fetched) in
          let input := input_of uid prefix history in
          attempt_loop 4 0 uid prefix message selectResponse history input
      end
  else ret FallThrough.

Definition MessageCreate (client_user : option User) (message : Message)
  : @Run.M W Thrown Exit :=
  if bot (author message) then ret Return
  else
    match client_user with
    | None => ret Return
    | Some cu =>
        try_catch (try_block (user_id cu) (mention_prefix cu) message)
                  (Variants.catch_block svc message)
    end.

End Part000.
End Part000.

(** The text of the reply of the [catch] block of that variant. *)
Definition apology : jsstring :=
  js "An unexpected error occurred. Please try again later.".

(** Events that the variant never emits. *)
Definition no_download_no_send (ev : Event) : Prop :=
  match ev with
  | EvHttpGet _ | EvSend _ => False
  | _ => True
  end.

(** A completion request of part_000 whose input is the mapping of a sorted
    history that contains the triggering message. *)
Definition part000_request_ok {W : Type} (svc : Services W)
    (uid prefix : jsstring) (message : Message) (c : nat * CreateRequest)
  : Prop :=
  exists h,
    StronglySorted earlier h /\ In message h
    /\ create_input (snd c)
       = preamble_turn message :: Part000.input_of svc uid prefix h.

(** ** More concrete runs *)

Module Scenarios.
Import Reference Examples.

(** The reference collaborators with a download that succeeds. *)
Definition online : Services World := {|
  toISOString := toISOString services;
  JSON_parse_limit := parse_limit;
  null_message := null_message services;
  fetchReference := fetchReference services;
  messages_fetch := fetch;
  responses_parse := responses_parse services;
  responses_create := create;
  http_text := fun _ w => (inr (js "notes"), w);
  message_reply := message_reply services;
  channel_send := channel_send services
|}.

(** The reference collaborators with a lookup of the referenced message
    that rejects. *)
Definition lost : Services World := {|
  toISOString := toISOString services;
  JSON_parse_limit := parse_limit;
  null_message := null_message services;
  fetchReference := fun _ w =>
    (inl (ThrownError (error (js "Unknown Message"))), w);
  messages_fetch := fetch;
  responses_parse := responses_parse services;
  responses_create := create;
  http_text := http_text services;
  message_reply := message_reply services;
  channel_send := channel_send services
|}.

Definition file (n : jsstring) (type : option jsstring) : Attachment :=
  {| name := n; url := js "https://cdn.example/" ++ n; contentType := type |}.

(** A mention with twelve attachments. *)
Definition album : Message :=
  {| msg_id := js "m6"; author := alice; content := js "<@42> look";
     createdTimestamp := 6;
     attachments :=
       [ file (js "a.png") (Some (js "image/png"));
         file (js "notes.txt") (Some (js "text/plain; charset=utf-8"));
         file (js "paper.pdf") (Some (js "application/pdf"));
         file (js "raw.bin") None;
         file (js "b.png") (Some (js "image/png"));
         file (js "c.png") (Some (js "image/png"));
         file (js "d.png") (Some (js "image/png"));
         file (js "e.png") (Some (js "image/png"));
         file (js "f.png") (Some (js "image/png"));
         file (js "g.png") (Some (js "image/png"));
         file (js "late.txt") (Some (js "text/plain"));
         file (js "h.png") (Some (js "image/png")) ];
     reference := None;
     guild := Some (js "guild"); channel_name := Some (js "general") |}.

(** A mention with two text attachments. *)
Definition two_notes : Message :=
  {| msg_id := js "m6"; author := alice; content := js "<@42> compare";
     createdTimestamp := 6;
     attachments :=
       [ file (js "notes.txt") (Some (js "text/plain"));
         file (js "more.txt") (Some (js "text/markdown")) ];
     reference := None;
     guild := Some (js "guild"); channel_name := Some (js "general") |}.

(** A mention whose reference names no message. *)
Definition bare_reference : Message :=
  {| msg_id := js "m6"; author := alice; content := js "<@42> and then?";
     createdTimestamp := 6; attachments := [];
     reference := Some {| messageId := None |};
     guild := Some (js "guild"); channel_name := Some (js "general") |}.

(** A reply, without a mention, to a message that is gone. *)
Definition orphan_reply : Message :=
  {| msg_id := js "m6"; author := alice; content := js "and this one?";
     createdTimestamp := 6; attachments := [];
     reference := Some {| messageId := Some (js "m9") |};
     guild := Some (js "guild"); channel_name := Some (js "general") |}.

Definition quota : JsError := error (js "429 You exceeded your current quota").

(** A world in which the completion service has nothing left to say. *)
Definition idle : World := world_of trigger (selected gpt_5_mini) [].

End Scenarios.

(** * Properties *)

(** ** Strings *)

Lemma startsWith_split (s p : jsstring) :
  startsWith s p = true -> s = p ++ skipn (length p) s.
Proof.
  revert s; induction p as [|c p IH]; intros s H; simpl in *.
  - reflexivity.
  - destruct s as [|d s]; [discriminate|].
    apply andb_true_iff in H as [Hc Hs].
    apply N.eqb_eq in Hc; subst d.
    simpl; f_equal; auto.
Qed.

Lemma startsWith_app (p r : jsstring) : startsWith (p ++ r) p = true.
Proof.
  induction p as [|c p IH]; simpl; [reflexivity|].
  now rewrite N.eqb_refl, IH.
Qed.

Lemma trimStart_split (s : jsstring) :
  exists ws, s = ws ++ trimStart s
             /\ Forall (fun c => is_whitespace c = true) ws.
Proof.
  induction s as [|c s (ws & Hs & Hws)]; simpl.
  - exists []; split; [reflexivity|constructor].
  - destruct (is_whitespace c) eqn:Hc.
    + exists (c :: ws); split; [simpl; congruence|now constructor].
    + exists []; split; [reflexivity|constructor].
Qed.

Lemma trimStart_head (s : jsstring) (c : code_unit) (rest : jsstring) :
  trimStart s = c :: rest -> is_whitespace c = false.
Proof.
  induction s as [|d s IH]; simpl; [discriminate|].
  destruct (is_whitespace d) eqn:Hd; [exact IH|].
  intros H; injection H as -> _; exact Hd.
Qed.

Lemma str_eqb_eq (a b : jsstring) : str_eqb a b = true <-> a = b.
Proof.
  revert b; induction a as [|c a IH]; intros [|d b]; simpl;
    try (split; [discriminate|congruence]); try tauto.
  rewrite andb_true_iff, N.eqb_eq, IH.
  split; [intros [-> ->]; reflexivity|intros H; injection H; auto].
Qed.

(** ** Sorting and merging *)

Lemma insert_perm (m : Message) (l : list Message) :
  Permutation (m :: l) (insert m l).
Proof.
  induction l as [|x l IH]; simpl; [reflexivity|].
  destruct (createdTimestamp m <=? createdTimestamp x)%Z; [reflexivity|].
  rewrite perm_swap; now constructor.
Qed.

Lemma sort_by_timestamp_perm (l : list Message) :
  Permutation l (sort_by_timestamp l).
Proof.
  induction l as [|x l IH]; simpl; [constructor|].
  rewrite <- insert_perm; now constructor.
Qed.

Lemma insert_sorted (m : Message) (l : list Message) :
  StronglySorted earlier l -> StronglySorted earlier (insert m l).
Proof.
  induction 1 as [|x l Hl IH Hx]; simpl.
  - repeat constructor.
  - destruct (createdTimestamp m <=? createdTimestamp x)%Z eqn:Hm.
    + apply Z.leb_le in Hm.
      constructor; [now constructor|].
      constructor; [exact Hm|].
      eapply Forall_impl; [|exact Hx].
      unfold earlier; intros; lia.
    + apply Z.leb_gt in Hm.
      constructor; [exact IH|].
      eapply Permutation_Forall; [apply insert_perm|].
      constructor; [unfold earlier; lia|exact Hx].
Qed.

Lemma sort_by_timestamp_sorted (l : list Message) :
  StronglySorted earlier (sort_by_timestamp l).
Proof.
  induction l as [|x l IH]; simpl; [constructor|now apply insert_sorted].
Qed.

(** The anchor of the fetches is the identifier of the last entry. *)
Lemma anchor_last (l : list Message) (m : Message) :
  anchor (l ++ [m]) = Some (msg_id m).
Proof.
  unfold anchor.
  rewrite length_app; simpl.
  replace (length l + 1 - 1) with (length l) by lia.
  rewrite nth_error_app2 by lia.
  now rewrite Nat.sub_diag.
Qed.

(** On a sorted history, that entry is a latest one. *)
Lemma anchor_latest (history : list Message) (i : jsstring) :
  StronglySorted earlier history ->
  anchor history = Some i ->
  exists m, In m history /\ msg_id m = i
            /\ forall x, In x history -> earlier x m.
Proof.
  intros Hs Ha.
  destruct history as [|x l] using rev_ind; [discriminate|].
  rewrite anchor_last in Ha; injection Ha as <-.
  exists x; split; [apply in_or_app; right; now left|].
  split; [reflexivity|].
  intros y Hy; apply in_app_or in Hy as [Hy|[<-|[]]].
  - clear IHl.
    induction l as [|z l IH]; [destruct Hy|].
    simpl in Hs; inversion Hs as [|? ? Hl Hz]; subst.
    destruct Hy as [<-|Hy].
    + rewrite Forall_forall in Hz; apply Hz, in_or_app; right; now left.
    + now apply IH.
  - unfold earlier; lia.
Qed.

(** ** Running the monad *)

Section RunLemmas.
Context {W : Type}.

Local Abbreviation M := (@Run.M W).

Lemma bind_inr {E A B} (m : M E A) (f : A -> M E B) w a w1 t1 :
  m w = (inr a, w1, t1) ->
  bind m f w = (result (f a w1), world (f a w1), t1 ++ trace (f a w1)).
Proof.
  unfold bind; intros ->.
  now destruct (f a w1) as [[r2 w2] t2].
Qed.

Lemma bind_inl {E A B} (m : M E A) (f : A -> M E B) w e w1 t1 :
  m w = (inl e, w1, t1) -> bind m f w = (inl e, w1, t1).
Proof. unfold bind; now intros ->. Qed.

Lemma trace_bind {E A B} (m : M E A) (f : A -> M E B) w :
  trace (bind m f w)
  = trace (m w) ++ match result (m w) with
                   | inl _ => []
                   | inr a => trace (f a (world (m w)))
                   end.
Proof.
  unfold bind, trace, result, world.
  destruct (m w) as [[[e|a] w1] t1]; simpl.
  - now rewrite app_nil_r.
  - now destruct (f a w1) as [[r2 w2] t2].
Qed.

Lemma result_bind {E A B} (m : M E A) (f : A -> M E B) w :
  result (bind m f w)
  = match result (m w) with
    | inl e => inl e
    | inr a => result (f a (world (m w)))
    end.
Proof.
  unfold bind, trace, result, world.
  destruct (m w) as [[[e|a] w1] t1]; simpl; [reflexivity|].
  now destruct (f a w1) as [[r2 w2] t2].
Qed.

Lemma trace_call {E A} (ev : Event) (oracle : W -> (E + A) * W) w :
  trace (call ev oracle w) = [ev].
Proof. unfold call; now destruct (oracle w). Qed.

Lemma trace_guard {A} (m : M JsError A) w : trace (guard m w) = trace (m w).
Proof. unfold guard; now destruct (m w) as [[[e|a] w1] t1]. Qed.

Lemma trace_rethrow {A} (m : M JsError A) w :
  trace (rethrow m w) = trace (m w).
Proof. unfold rethrow; now destruct (m w) as [[[e|a] w1] t1]. Qed.

Lemma trace_settled {E A} (m : M E A) w : trace (settled m w) = trace (m w).
Proof. unfold settled; now destruct (m w) as [[r w1] t1]. Qed.

Lemma trace_try_catch {A} (body : M Thrown A) handler w :
  trace (try_catch body handler w)
  = trace (body w) ++ match result (body w) with
                      | inl err => trace (handler err (world (body w)))
                      | inr _ => []
                      end.
Proof.
  unfold try_catch, trace, result, world.
  destruct (body w) as [[[e|a] w1] t1]; simpl.
  - now destruct (handler e w1) as [[r2 w2] t2].
  - now rewrite app_nil_r.
Qed.

Lemma emits_ret {E A} P (a : A) : emits P (@ret W E A a).
Proof. intros w; constructor. Qed.

Lemma emits_throw {E A} P (e : E) : emits P (@throw W E A e).
Proof. intros w; constructor. Qed.

Lemma emits_call {E A} (P : Event -> Prop) ev (oracle : W -> (E + A) * W) :
  P ev -> emits P (call ev oracle).
Proof. intros H w; rewrite trace_call; constructor; [exact H|constructor]. Qed.

Lemma emits_bind {E A B} P (m : M E A) (f : A -> M E B) :
  emits P m -> (forall a, emits P (f a)) -> emits P (bind m f).
Proof.
  intros Hm Hf w; rewrite trace_bind.
  apply Forall_app; split; [apply Hm|].
  destruct (result (m w)); [constructor|apply Hf].
Qed.

Lemma emits_guard {A} P (m : M JsError A) : emits P m -> emits P (guard m).
Proof. intros H w; rewrite trace_guard; apply H. Qed.

Lemma emits_rethrow {A} P (m : M JsError A) :
  emits P m -> emits P (rethrow m).
Proof. intros H w; rewrite trace_rethrow; apply H. Qed.

Lemma emits_settled {E A} P (m : M E A) : emits P m -> emits P (settled m).
Proof. intros H w; rewrite trace_settled; apply H. Qed.

Lemma trace_mapM_cons {E A B} (f : A -> M E B) (a : A) (l : list A) w :
  trace (mapM f (a :: l) w)
  = trace (f a w) ++ trace (mapM f l (world (f a w))).
Proof.
  cbn [mapM]; unfold trace, world.
  destruct (f a w) as [[r w1] t1]; cbn [fst snd].
  now destruct (mapM f l w1) as [[rs w2] t2].
Qed.

Lemma result_mapM_cons {E A B} (f : A -> M E B) (a : A) (l : list A) w :
  result (mapM f (a :: l) w)
  = match result (f a w) with
    | inl e => inl e
    | inr b =>
        match result (mapM f l (world (f a w))) with
        | inl e => inl e
        | inr bs => inr (b :: bs)
        end
    end.
Proof.
  cbn [mapM]; unfold result, world.
  destruct (f a w) as [[r w1] t1]; cbn [fst snd].
  now destruct (mapM f l w1) as [[rs w2] t2].
Qed.

Lemma emits_mapM {E A B} P (f : A -> M E B) (l : list A) :
  (forall a, emits P (f a)) -> emits P (mapM f l).
Proof.
  intros Hf; induction l as [|a l IH]; intros w.
  - constructor.
  - rewrite trace_mapM_cons.
    apply Forall_app; split; [apply Hf|apply IH].
Qed.

Lemma emits_weaken {E A} (P Q : Event -> Prop) (m : M E A) :
  (forall ev, P ev -> Q ev) -> emits P m -> emits Q m.
Proof. intros H Hm w; eapply Forall_impl; [exact H|apply Hm]. Qed.

End RunLemmas.

Create HintDb emits.
#[local] Hint Resolve emits_ret emits_throw emits_call emits_bind emits_guard
  emits_rethrow emits_settled emits_mapM : emits.

(** ** What each part of the handler can emit *)

Lemma create_calls_app (t1 t2 : list Event) :
  create_calls (t1 ++ t2) = create_calls t1 ++ create_calls t2.
Proof. apply flat_map_app. Qed.

Lemma select_calls_app (t1 t2 : list Event) :
  select_calls (t1 ++ t2) = select_calls t1 ++ select_calls t2.
Proof. apply flat_map_app. Qed.

Lemma posts_app (t1 t2 : list Event) : posts (t1 ++ t2) = posts t1 ++ posts t2.
Proof. apply flat_map_app. Qed.

Lemma create_calls_none (t : list Event) (P : Event -> Prop) :
  (forall ev, P ev -> not_create ev) -> Forall P t -> create_calls t = [].
Proof.
  intros HP; induction 1 as [|ev t Hev _ IH]; [reflexivity|].
  apply HP in Hev; destruct ev; simpl in *; tauto.
Qed.

Lemma posts_none (t : list Event) (P : Event -> Prop) :
  (forall ev, P ev -> not_post ev) -> Forall P t -> posts t = [].
Proof.
  intros HP; induction 1 as [|ev t Hev _ IH]; [reflexivity|].
  apply HP in Hev; destruct ev; simpl in *; tauto.
Qed.

Lemma select_calls_none (t : list Event) (P : Event -> Prop) :
  (forall ev, P ev -> match ev with EvSelect _ => False | _ => True end) ->
  Forall P t -> select_calls t = [].
Proof.
  intros HP; induction 1 as [|ev t Hev _ IH]; [reflexivity|].
  apply HP in Hev; destruct ev; simpl in *; tauto.
Qed.

Section Emissions.
Context {W : Type} (svc : Services W).

Lemma emits_attachment_part m f : emits is_download (attachment_part svc m f).
Proof.
  unfold attachment_part.
  destruct (opt_startsWith (contentType f) (js "image/")); auto with emits.
  destruct (opt_startsWith (contentType f) (js "text/")); auto with emits.
  apply emits_bind; [now apply emits_call|auto with emits].
Qed.

Lemma emits_buildParts m prefix :
  emits is_download (buildPartsFromDiscordMessage svc m prefix).
Proof.
  unfold buildPartsFromDiscordMessage.
  apply emits_bind; [|auto with emits].
  apply emits_mapM; intros f; apply emits_attachment_part.
Qed.

Lemma emits_input_turn uid prefix m :
  emits is_download (input_turn svc uid prefix m).
Proof.
  unfold input_turn.
  destruct (str_eqb (user_id (author m)) uid); auto with emits.
  apply emits_bind; [apply emits_buildParts|auto with emits].
Qed.

Lemma emits_select_model message prefix :
  emits is_selection (select_model svc message prefix).
Proof.
  unfold select_model.
  apply emits_guard, emits_bind.
  - eapply emits_weaken; [|apply emits_buildParts].
    now intros [].
  - intros parts; now apply emits_call.
Qed.

Lemma emits_addressed uid prefix message :
  emits is_lookup (addressed svc uid prefix message).
Proof.
  unfold addressed.
  destruct (startsWith (content message) prefix); auto with emits.
  destruct (reference message); auto with emits.
  apply emits_bind; [now apply emits_call|auto with emits].
Qed.

Lemma emits_start_tool_calls history items :
  emits is_fetch (start_tool_calls svc history items).
Proof.
  induction items as [|item items IH]; simpl; auto with emits.
  destruct item as [n args|]; [|exact IH].
  destruct (str_eqb n (js "get_messages")); [|exact IH].
  destruct (JSON_parse_limit svc args).
  - apply emits_bind; [exact IH|auto with emits].
  - apply emits_bind; [now apply emits_settled, emits_call|intros r].
    apply emits_bind; [exact IH|auto with emits].
Qed.

Lemma emits_process_tool_calls history items :
  emits is_fetch (process_tool_calls svc history items).
Proof.
  unfold process_tool_calls.
  apply emits_bind; [apply emits_start_tool_calls|intros ps].
  destruct (first_rejected ps); auto with emits.
  destruct (merge_fetched ps history); auto with emits.
Qed.

Lemma emits_dispatch_loop fuel i message text :
  emits is_post (dispatch_loop svc fuel i message text).
Proof.
  revert i; induction fuel as [|fuel IH]; intros i; simpl; auto with emits.
  destruct (i <? length text); auto with emits.
  apply emits_bind; [|intros _; apply IH].
  destruct (i =? 0); now apply emits_call.
Qed.

End Emissions.

(** ** The reply loop *)

Section Dispatch.
Context {W : Type} (svc : Services W).

Lemma slice_length (text : jsstring) (i : nat) :
  length (slice text i (i + 2000)) <= 2000.
Proof.
  unfold slice.
  replace (i + 2000 - i) with 2000 by lia.
  apply firstn_le_length.
Qed.

Lemma slice_next (text : jsstring) (i : nat) :
  slice text i (i + 2000) ++ skipn (i + 2000) text = skipn i text.
Proof.
  unfold slice.
  replace (i + 2000 - i) with 2000 by lia.
  rewrite (Nat.add_comm i 2000), <- skipn_skipn.
  apply firstn_skipn.
Qed.

Lemma dispatch_loop_step fuel i message text w :
  i < length text ->
  exists step : @Run.M W Thrown unit,
    dispatch_loop svc (S fuel) i message text w
    = bind step (fun _ => dispatch_loop svc fuel (i + 2000) message text) w
    /\ forall w', trace (step w')
                  = [chunk_event message i (slice text i (i + 2000))].
Proof.
  intros Hi.
  cbn [dispatch_loop].
  apply Nat.ltb_lt in Hi; rewrite Hi.
  eexists; split; [reflexivity|].
  intros w'; unfold chunk_event.
  destruct (i =? 0); apply trace_call.
Qed.

Lemma dispatch_loop_chunks fuel : forall i message text w,
  1 <= fuel -> length text < i + fuel ->
  exists chunks,
    trace (dispatch_loop svc fuel i message text w)
    = (if i =? 0 then chunk_events message chunks else map EvSend chunks)
    /\ Forall (fun c => length c <= 2000) chunks
    /\ (forall k c, nth_error chunks k = Some c ->
                    c = slice text (i + 2000 * k) (i + 2000 * k + 2000))
    /\ concat chunks ++ skipn (i + 2000 * length chunks) text = skipn i text
    /\ (forall e, result (dispatch_loop svc fuel i message text w) = inr e ->
                  e = FallThrough /\ concat chunks = skipn i text).
Proof.
  induction fuel as [|fuel IH]; intros i message text w Hfuel Hlen; [lia|].
  destruct (Nat.lt_ge_cases i (length text)) as [Hi|Hi].
  - destruct (dispatch_loop_step fuel i message text w Hi)
      as (step & -> & Hstep).
    rewrite trace_bind, result_bind, Hstep.
    destruct (result (step w)) as [err|[]] eqn:Hr.
    + exists [slice text i (i + 2000)].
      split; [unfold chunk_event; now destruct (i =? 0)|].
      split; [constructor; [apply slice_length|constructor]|].
      split; [|split; [|discriminate]].
      * intros [|k] c Hk; [|now destruct k].
        injection Hk as <-.
        now rewrite Nat.mul_0_r, Nat.add_0_r.
      * cbn [concat length]; rewrite app_nil_r, Nat.mul_1_r.
        apply slice_next.
    + destruct (IH (i + 2000) message text (world (step w)))
        as (chunks & Ht & Hl & Hk & Hp & Hc); [lia|lia|].
      replace (i + 2000 =? 0) with false in Ht
        by (symmetry; apply Nat.eqb_neq; lia).
      exists (slice text i (i + 2000) :: chunks).
      split; [rewrite Ht; unfold chunk_event; now destruct (i =? 0)|].
      split; [constructor; [apply slice_length|exact Hl]|].
      split; [|split].
      * intros [|k] c Hn.
        -- injection Hn as <-.
           now rewrite Nat.mul_0_r, Nat.add_0_r.
        -- rewrite (Hk k c Hn).
           f_equal; lia.
      * cbn [concat length]; rewrite <- app_assoc.
        replace (i + 2000 * S (length chunks))
          with (i + 2000 + 2000 * length chunks) by lia.
        rewrite Hp; apply slice_next.
      * intros e He.
        destruct (Hc e He) as [-> Hcat].
        split; [reflexivity|].
        cbn [concat]; rewrite Hcat.
        apply slice_next.
  - exists [].
    cbn [dispatch_loop].
    apply Nat.ltb_ge in Hi as Hb; rewrite Hb.
    split; [now destruct (i =? 0)|].
    split; [constructor|].
    split; [intros [|k] c Hk; discriminate|].
    split; [cbn [concat length app]; now rewrite Nat.mul_0_r, Nat.add_0_r|].
    intros e He; injection He as <-.
    split; [reflexivity|].
    symmetry; now apply skipn_all2.
Qed.

(** C7.  Whatever the answer text, the reply loop posts consecutive slices
    of at most 2000 code units, the first one as a reply to the triggering
    message and the following ones as plain messages of the channel, in
    order; the k-th one is the slice from 2000*k to 2000*k + 2000, so that
    the slices posted, concatenated, are always the text up to the start of
    the next slice, and the whole text when the gateway accepts every
    post. *)
Theorem dispatch_chunks (message : Message) (text : jsstring) (w : W) :
  exists chunks,
    trace (dispatch svc message text w) = chunk_events message chunks
    /\ Forall (fun c => length c <= 2000) chunks
    /\ (forall k c, nth_error chunks k = Some c ->
                    c = slice text (2000 * k) (2000 * k + 2000))
    /\ concat chunks ++ skipn (2000 * length chunks) text = text
    /\ (forall e, result (dispatch svc message text w) = inr e ->
                  e = FallThrough /\ concat chunks = text).
Proof.
  unfold dispatch.
  destruct (dispatch_loop_chunks (S (length text)) 0 message text w)
    as (chunks & Ht & Hl & Hk & Hp & Hc); [lia|lia|].
  exists chunks; auto.
Qed.

Lemma dispatch_never_out_of_fuel message text w :
  result (dispatch svc message text w) <> inr OutOfFuel.
Proof.
  unfold dispatch.
  destruct (dispatch_loop_chunks (S (length text)) 0 message text w)
    as (chunks & _ & _ & _ & _ & Hc); [lia|lia|].
  intros H; now destruct (Hc _ H).
Qed.

Lemma dispatch_empty message text w :
  length text = 0 -> dispatch svc message text w = (inr FallThrough, w, []).
Proof.
  intros H; unfold dispatch; cbn [dispatch_loop].
  now rewrite H.
Qed.

End Dispatch.

(** ** The attempt loop *)

Lemma bounded_attempts_nil (a : nat) : bounded_attempts a [].
Proof. repeat split; [now left|constructor]. Qed.

Lemma bounded_attempts_cons (a : nat) (req : CreateRequest) rest :
  a <= 2 ->
  tools req = (if a <? 2 then Some [get_messages_tool] else None) ->
  bounded_attempts (S a) rest ->
  bounded_attempts a ((a, req) :: rest).
Proof.
  intros Ha Hreq (Hseq & Hlen & Hall).
  split; [simpl; now rewrite Hseq|].
  split; [right; simpl; destruct Hlen as [->|]; lia|].
  now constructor.
Qed.

Section Attempts.
Context {W : Type} (svc : Services W).

Lemma downloads_no_calls (t : list Event) :
  Forall is_download t -> create_calls t = [].
Proof. apply create_calls_none; now intros []. Qed.

Lemma fetches_no_calls (t : list Event) :
  Forall is_fetch t -> create_calls t = [].
Proof. apply create_calls_none; now intros []. Qed.

Lemma posts_no_calls (t : list Event) :
  Forall is_post t -> create_calls t = [].
Proof. apply create_calls_none; now intros []. Qed.

Lemma emits_reply_return message text (e : Exit) :
  emits is_post
    (call (EvReply message text) (message_reply svc message text) ;;
     @ret W Thrown Exit e).
Proof. apply emits_bind; [now apply emits_call|auto with emits]. Qed.

Lemma reply_return_result message text w :
  result ((call (EvReply message text) (message_reply svc message text) ;;
           @ret W Thrown Exit Return) w) <> inr OutOfFuel.
Proof.
  rewrite result_bind.
  destruct (result _); [discriminate|]; unfold ret, result; simpl.
  discriminate.
Qed.

Lemma attempt_loop_bounded fuel :
  forall a uid prefix message sel history w,
    let run := attempt_loop svc fuel a uid prefix message sel history w in
    bounded_attempts a (create_calls (trace run))
    /\ (1 <= fuel -> 3 < fuel + a -> result run <> inr OutOfFuel).
Proof.
  induction fuel as [|fuel IH]; intros a uid prefix message sel history w run.
  { split; [apply bounded_attempts_nil|lia]. }
  subst run; cbn [attempt_loop].
  destruct (a <=? 2) eqn:Ha;
    [apply Nat.leb_le in Ha
    |split; [apply bounded_attempts_nil|discriminate]].
  rewrite trace_bind, result_bind.
  pose proof (emits_rethrow _ _
                (emits_mapM is_download _ history
                   (emits_input_turn svc uid prefix)) w) as Hin.
  apply downloads_no_calls in Hin.
  rewrite create_calls_app, Hin; cbn [app].
  set (w1 := world _).
  destruct (result (rethrow _ w)) as [err|input];
    [split; [apply bounded_attempts_nil|discriminate]|].
  cbv zeta.
  set (req := create_request a sel message input).
  rewrite trace_bind, result_bind, trace_guard, trace_call.
  set (w2 := world _).
  assert (Hreq : tools req
                 = if a <? 2 then Some [get_messages_tool] else None)
    by reflexivity.
  cbn [app create_calls flat_map].
  destruct (result (guard _ w1)) as [err|[response error]];
    [split; [apply bounded_attempts_cons; auto using bounded_attempts_nil
            |discriminate]|].
  assert (Hquiet : forall k : @Run.M W Thrown Exit,
             emits is_post k ->
             bounded_attempts a ((a, req) :: create_calls (trace (k w2)))).
  { intros k Hk.
    rewrite (posts_no_calls _ (Hk w2)).
    apply bounded_attempts_cons; auto using bounded_attempts_nil. }
  destruct error as [error|].
  { destruct response;
      (split; [apply Hquiet, emits_reply_return
              |intros _ _; apply reply_return_result]). }
  destruct response as [response|];
    [|split; [apply bounded_attempts_cons; auto using bounded_attempts_nil
             |discriminate]].
  destruct (negb (existsb is_get_messages (output response))).
  - split.
    + apply Hquiet, emits_bind; [|auto with emits].
      apply emits_dispatch_loop.
    + intros _ _; rewrite result_bind.
      pose proof (dispatch_never_out_of_fuel svc message
                    (output_text response) w2) as Hd.
      destruct (result (dispatch _ _ _ _)) as [err|[]];
        try discriminate; now destruct Hd.
  - rewrite trace_bind, result_bind.
    rewrite create_calls_app,
      (fetches_no_calls _ (emits_process_tool_calls svc _ _ w2)).
    cbn [app].
    destruct (result (process_tool_calls _ _ _ _)) as [err|history'];
      [split; [apply bounded_attempts_cons; auto using bounded_attempts_nil
              |discriminate]|].
    destruct (IH (S a) uid prefix message sel history'
                 (world (process_tool_calls svc history (output response) w2)))
      as [Hb Hr].
    split; [now apply bounded_attempts_cons|].
    intros _ Hf; apply Hr; lia.
Qed.

End Attempts.

(** ** The response cycle *)

Section Cycle.
Context {W : Type} (svc : Services W).

Lemma lookups_no_calls (t : list Event) :
  Forall is_lookup t -> create_calls t = [].
Proof. apply create_calls_none; now intros []. Qed.

Lemma selection_no_calls (t : list Event) :
  Forall is_selection t -> create_calls t = [].
Proof. apply create_calls_none; now intros []. Qed.

Lemma result_try_catch {A} (body : @Run.M W Thrown A) handler w :
  result (try_catch body handler w)
  = match result (body w) with
    | inl err => result (handler err (world (body w)))
    | inr a => inr a
    end.
Proof.
  unfold try_catch, result, world.
  destruct (body w) as [[[e|a] w1] t1]; simpl; [|reflexivity].
  now destruct (handler e w1) as [[r2 w2] t2].
Qed.

Lemma trace_catch_block message err w :
  trace (catch_block svc message err w)
  = [EvReply message
       match err with
       | ThrownError e => Error.message e
       | ThrownOther => js "An unexpected error occurred."
       end].
Proof.
  unfold catch_block; cbv zeta.
  rewrite trace_bind, trace_call.
  now destruct (result _).
Qed.

Lemma result_catch_block message err w :
  result (catch_block svc message err w) <> inr OutOfFuel.
Proof.
  unfold catch_block; cbv zeta.
  rewrite result_bind.
  now destruct (result _).
Qed.

Lemma try_block_bounded uid prefix message w :
  let run := try_block svc uid prefix message w in
  bounded_attempts 0 (create_calls (trace run))
  /\ result run <> inr OutOfFuel.
Proof.
  unfold try_block; cbv zeta.
  destruct (length (prompt_of message prefix) =? 0);
    [split; [apply bounded_attempts_nil|discriminate]|].
  rewrite trace_bind, result_bind, create_calls_app.
  rewrite (selection_no_calls _ (emits_select_model svc message prefix w)).
  cbn [app].
  set (w1 := world _).
  destruct (result (select_model _ _ _ _)) as [err|[selectResponse error]];
    [split; [apply bounded_attempts_nil|discriminate]|].
  destruct error as [error|].
  { destruct selectResponse;
      (split; [rewrite (posts_no_calls _ (emits_reply_return svc _ _ _ w1));
               apply bounded_attempts_nil
              |apply reply_return_result]). }
  destruct selectResponse as [selectResponse|];
    [|split; [apply bounded_attempts_nil|discriminate]].
  rewrite trace_bind, result_bind, trace_call.
  cbn [app create_calls flat_map].
  destruct (result (call _ _ w1)) as [err|fetched];
    [split; [apply bounded_attempts_nil|discriminate]|].
  destruct (attempt_loop_bounded svc 4 0 uid prefix message selectResponse
              (sort_by_timestamp (message :: fetched))
              (world (call
                        (EvFetch
                           {| limit := JNumber 5;
                              before :=
                                match reference message with
                                | Some target => messageId target
                                | None => Some (msg_id message)
                                end |})
                        (messages_fetch svc
                           {| limit := JNumber 5;
                              before :=
                                match reference message with
                                | Some target => messageId target
                                | None => Some (msg_id message)
                                end |}) w1)))
    as [Hb Hr].
  split; [exact Hb|apply Hr; lia].
Qed.

Lemma MessageCreate_bounded client_user message w :
  let run := MessageCreate svc client_user message w in
  bounded_attempts 0 (create_calls (trace run))
  /\ result run <> inr OutOfFuel.
Proof.
  unfold MessageCreate.
  destruct (bot (author message));
    [split; [apply bounded_attempts_nil|discriminate]|].
  destruct client_user as [cu|];
    [|split; [apply bounded_attempts_nil|discriminate]].
  cbv zeta.
  set (prefix := js "<@" ++ user_id cu ++ js ">").
  rewrite trace_bind, result_bind, create_calls_app.
  rewrite (lookups_no_calls _ (emits_addressed svc _ prefix message w)).
  cbn [app].
  set (w1 := world _).
  destruct (result (addressed _ _ _ _ _)) as [err|[|]];
    [split; [apply bounded_attempts_nil|discriminate]|
    |split; [apply bounded_attempts_nil|discriminate]].
  rewrite trace_try_catch, result_try_catch, create_calls_app.
  destruct (try_block_bounded (user_id cu) prefix message w1) as [Hb Hr].
  destruct (result (try_block _ _ _ _ _)) as [err|e].
  - rewrite trace_catch_block; cbn [create_calls flat_map app].
    rewrite app_nil_r.
    split; [exact Hb|apply result_catch_block].
  - rewrite app_nil_r; split; [exact Hb|exact Hr].
Qed.

(** C3.  In every run of the handler the completion calls carry the
    attempt numbers 0, 1, 2 in order, there are at most three of them, the
    get_messages tool is offered on attempts 0 and 1 and the request of
    attempt 2 has no tools; the loop of the model never exhausts its
    recursion bound. *)
Theorem attempts_bounded_and_tool_withheld
    (client_user : option User) (message : Message) (w : W) :
  let run := MessageCreate svc client_user message w in
  let calls := create_calls (trace run) in
  map fst calls = seq 0 (length calls)
  /\ length calls <= 3
  /\ Forall (fun c =>
               (fst c = 0 \/ fst c = 1) /\ tools (snd c) = Some [get_messages_tool]
               \/ fst c = 2 /\ tools (snd c) = None)
            calls
  /\ result run <> inr OutOfFuel.
Proof.
  intros run calls.
  destruct (MessageCreate_bounded client_user message w)
    as [(Hseq & Hlen & Hall) Hr].
  fold run in Hseq, Hlen, Hall, Hr; fold calls in Hseq, Hlen, Hall.
  assert (Hn : length calls <= 3) by (destruct Hlen; lia).
  repeat split; auto.
  rewrite Forall_forall in *; intros c Hc.
  specialize (Hall c Hc).
  assert (Hin : In (fst c) (seq 0 (length calls)))
    by (rewrite <- Hseq; now apply in_map).
  apply in_seq in Hin.
  destruct (fst c) as [|[|[|n]]]; simpl in Hall; try lia; auto.
Qed.

End Cycle.

(** ** Selection failures, unexpected errors, empty prompts *)

Section Outcomes.
Context {W : Type} (svc : Services W).

Lemma lookups_no_posts (t : list Event) : Forall is_lookup t -> posts t = [].
Proof. apply posts_none; now intros []. Qed.

Lemma selection_no_posts (t : list Event) :
  Forall is_selection t -> posts t = [].
Proof. apply posts_none; now intros []. Qed.

Lemma downloads_no_posts (t : list Event) :
  Forall is_download t -> posts t = [].
Proof. apply posts_none; now intros []. Qed.

Lemma select_model_once message prefix w :
  length (select_calls (trace (select_model svc message prefix w))) <= 1.
Proof.
  unfold select_model.
  rewrite trace_guard, trace_bind, select_calls_app.
  rewrite (select_calls_none _ is_download)
    by (try apply emits_buildParts; now intros []).
  destruct (result _); cbn [app]; [simpl; lia|].
  cbv zeta; rewrite trace_call; simpl; lia.
Qed.

Lemma try_block_selection_error uid prefix message w1 w2 w3 t1 sro e :
  prompt_of message prefix <> [] ->
  select_model svc message prefix w1 = (inr (sro, Some e), w2, t1) ->
  message_reply svc message (Error.message e) w2 = (inr tt, w3) ->
  try_block svc uid prefix message w1
  = (inr Return, w3, t1 ++ [EvReply message (Error.message e)]).
Proof.
  intros Hp Hsel Hreply.
  unfold try_block; cbv zeta.
  destruct (prompt_of message prefix) as [|c p]; [congruence|].
  cbn [length Nat.eqb].
  unfold bind at 1; rewrite Hsel.
  destruct sro; unfold bind, call, ret; rewrite Hreply; reflexivity.
Qed.

(** C5, as amended.  An exception thrown inside the [try] block is
    handled by the one [catch] block of the handler, which posts a single
    reply: the exception's own message when it is an [Error] instance, the
    text "An unexpected error occurred." otherwise.  The catch block of
    the earlier variant replies with a fixed apology whatever was
    thrown. *)
Theorem unexpected_error_reply
    (cu : User) (message : Message) (w w1 w2 : W)
    (t0 t1 : list Event) (err : Thrown) :
  let prefix := js "<@" ++ user_id cu ++ js ">" in
  bot (author message) = false ->
  addressed svc (user_id cu) prefix message w = (inr true, w1, t0) ->
  try_block svc (user_id cu) prefix message w1 = (inl err, w2, t1) ->
  trace (MessageCreate svc (Some cu) message w)
  = t0 ++ t1
    ++ [EvReply message
          match err with
          | ThrownError e => Error.message e
          | ThrownOther => js "An unexpected error occurred."
          end]
  /\ forall w',
       trace (Variants.catch_block svc message err w')
       = [EvReply message
            (js "An unexpected error occurred. Please try again later.")].
Proof.
  intros prefix Hbot Haddr Htry.
  split.
  - unfold MessageCreate; rewrite Hbot; cbv zeta; fold prefix.
    rewrite trace_bind, Haddr.
    unfold result, world, trace at 1; cbn [fst snd].
    rewrite trace_try_catch, Htry.
    unfold result, world, trace at 1; cbn [fst snd].
    now rewrite trace_catch_block.
  - intros w'; unfold Variants.catch_block; cbv zeta.
    rewrite trace_bind, trace_call.
    now destruct (result _).
Qed.

(** C6, as amended.  The prompt is the content without its leading
    mention prefix, untrimmed.  When that prompt is the empty string, the
    handler returns at once: nothing is posted and nothing is thrown. *)
Theorem empty_prompt_ignored
    (cu : User) (message : Message) (w w1 : W) (t0 : list Event) :
  let prefix := js "<@" ++ user_id cu ++ js ">" in
  content message
  = (if startsWith (content message) prefix then prefix else [])
    ++ prompt_of message prefix
  /\ (bot (author message) = false ->
      addressed svc (user_id cu) prefix message w = (inr true, w1, t0) ->
      prompt_of message prefix = [] ->
      MessageCreate svc (Some cu) message w = (inr Return, w1, t0)
      /\ posts t0 = []).
Proof.
  intros prefix; split.
  - unfold prompt_of, slice_from.
    destruct (startsWith (content message) prefix) eqn:Hs.
    + now apply startsWith_split.
    + reflexivity.
  - intros Hbot Haddr Hp.
    split.
    + unfold MessageCreate; rewrite Hbot; cbv zeta; fold prefix.
      unfold bind; rewrite Haddr.
      unfold try_catch, try_block; cbv zeta.
      rewrite Hp; cbn [length Nat.eqb].
      unfold ret; now rewrite app_nil_r.
    + pose proof (emits_addressed svc (user_id cu) prefix message w) as H.
      rewrite Haddr in H.
      now apply lookups_no_posts.
Qed.

(** C10.  When the completion of an attempt carries no get_messages call
    and an empty text, the reply loop leaves through its condition before
    its first iteration and the attempt posts nothing: its trace ends
    with the completion call. *)
Theorem empty_answer_sends_nothing
    (fuel attempt : nat) (uid prefix : jsstring) (message : Message)
    (sel : SelectResponse) (history : list Message) (w w1 w2 : W)
    (t1 : list Event) (input : list InputTurn) (response : Response) :
  attempt <= 2 ->
  rethrow (mapM (input_turn svc uid prefix) history) w = (inr input, w1, t1) ->
  responses_create svc (create_request attempt sel message input) w1
  = (inr response, w2) ->
  existsb is_get_messages (output response) = false ->
  length (output_text response) = 0 ->
  let run := attempt_loop svc (S fuel) attempt uid prefix message sel
                          history w in
  dispatch svc message (output_text response) w2 = (inr FallThrough, w2, [])
  /\ run = (inr Return, w2,
            t1 ++ [EvCreate attempt (create_request attempt sel message input)])
  /\ posts (trace run) = [].
Proof.
  intros Ha Hin Hcreate Hno Hlen run.
  pose proof (dispatch_empty svc message _ w2 Hlen) as Hd.
  assert (Hrun : run = (inr Return, w2,
                        t1 ++ [EvCreate attempt
                                 (create_request attempt sel message input)])).
  { subst run; cbn [attempt_loop].
    apply Nat.leb_le in Ha; rewrite Ha.
    unfold bind at 1; rewrite Hin; cbv zeta.
    unfold bind at 1, guard, call at 1; rewrite Hcreate.
    rewrite Hno; cbn [negb].
    unfold bind; rewrite Hd; reflexivity. }
  split; [exact Hd|split; [exact Hrun|]].
  rewrite Hrun; unfold trace; cbn [snd].
  rewrite posts_app; cbn [posts flat_map app].
  rewrite app_nil_r.
  apply downloads_no_posts.
  pose proof (emits_rethrow _ _
                (emits_mapM is_download _ history
                   (emits_input_turn svc uid prefix)) w) as H.
  now rewrite Hin in H.
Qed.

End Outcomes.

(** ** History expansion *)

Lemma fetches_app (t1 t2 : list Event) :
  fetches (t1 ++ t2) = fetches t1 ++ fetches t2.
Proof. apply flat_map_app. Qed.

(** C2, as amended.  Every merge leaves the history sorted by ascending
    creation time and made of exactly the fetched messages and the previous
    entries: nothing is dropped, the length grows by the size of the batch,
    and the result has two entries with one id exactly when the batch
    followed by the previous history has. *)
Theorem merge_history_sorted_permutation (fetched history : list Message) :
  StronglySorted earlier (merge_history fetched history)
  /\ Permutation (fetched ++ history) (merge_history fetched history)
  /\ length (merge_history fetched history) = length fetched + length history
  /\ (NoDup (map msg_id (merge_history fetched history))
      <-> NoDup (map msg_id (fetched ++ history))).
Proof.
  unfold merge_history.
  pose proof (sort_by_timestamp_perm (fetched ++ history)) as Hp.
  split; [apply sort_by_timestamp_sorted|].
  split; [exact Hp|].
  split; [rewrite <- (Permutation_length Hp); apply length_app|].
  split; apply Permutation_NoDup, Permutation_map;
    [symmetry; exact Hp|exact Hp].
Qed.

Lemma merge_fetched_sorted (ps : list Pending) :
  forall history history',
    StronglySorted earlier history ->
    merge_fetched ps history = inr history' ->
    StronglySorted earlier history'.
Proof.
  induction ps as [|[err|[err|batch]] ps IH]; intros history history' Hs H;
    simpl in H; try discriminate.
  - now injection H as <-.
  - eapply IH; [|exact H].
    apply sort_by_timestamp_sorted.
Qed.

Section Expansion.
Context {W : Type} (svc : Services W).

Lemma result_settled {E A} (m : @Run.M W E A) w :
  result (settled m w) = inr (result (m w)).
Proof. unfold settled, result; now destruct (m w) as [[r w1] t1]. Qed.

Lemma fetches_start_tool_calls history items : forall w,
  fetches (trace (start_tool_calls svc history items w))
  = map (fun v => {| limit := v; before := anchor history |})
        (requested_limits (JSON_parse_limit svc) items).
Proof.
  induction items as [|item items IH]; intros w; [reflexivity|].
  cbn [start_tool_calls requested_limits flat_map].
  fold (requested_limits (JSON_parse_limit svc) items).
  destruct item as [n args|]; [|apply IH].
  destruct (str_eqb n (js "get_messages")); [|apply IH].
  destruct (JSON_parse_limit svc args) as [err|v]; cbn [app].
  - rewrite trace_bind, fetches_app, IH.
    destruct (result _); cbn [trace ret snd fetches flat_map];
      now rewrite app_nil_r.
  - cbv zeta.
    rewrite trace_bind, trace_settled, trace_call, result_settled.
    rewrite trace_bind, !fetches_app, IH.
    cbn [fetches flat_map app map].
    destruct (result (start_tool_calls _ _ _ _));
      cbn [trace ret snd fetches flat_map]; now rewrite app_nil_r.
Qed.

(** C9.  The fetches issued for the tool calls of an output are, in
    order, one per get_messages item whose arguments parse, each with the
    parsed value as its limit, whatever that value is, and the common
    anchor of the history; in particular a single call whose arguments
    parse to a number is forwarded with that number, inside the range from
    1 to 20 or not. *)
Theorem tool_call_limit_forwarded
    (history : list Message) (items : list OutputItem) (w : W) :
  fetches (trace (process_tool_calls svc history items w))
  = map (fun v => {| limit := v; before := anchor history |})
        (requested_limits (JSON_parse_limit svc) items)
  /\ forall args z,
       JSON_parse_limit svc args = inr (JNumber z) ->
       fetches (trace (process_tool_calls svc history
                         [function_call (js "get_messages") args] w))
       = [{| limit := JNumber z; before := anchor history |}].
Proof.
  assert (H : forall items',
             fetches (trace (process_tool_calls svc history items' w))
             = map (fun v => {| limit := v; before := anchor history |})
                   (requested_limits (JSON_parse_limit svc) items')).
  { intros items'; unfold process_tool_calls.
    rewrite trace_bind, fetches_app, fetches_start_tool_calls.
    destruct (result _) as [err|ps]; [now rewrite app_nil_r|].
    destruct (first_rejected ps); [now rewrite app_nil_r|].
    destruct (merge_fetched ps history); now rewrite app_nil_r. }
  split; [apply H|].
  intros args z Hz; rewrite H.
  cbn [requested_limits flat_map].
  replace (str_eqb (js "get_messages") (js "get_messages")) with true
    by reflexivity.
  now rewrite Hz.
Qed.

(** C8.  The text built for a message is the two header lines followed by
    a body: the content itself when the content does not start with the
    prefix; otherwise the content after its leading prefix and after the
    whitespace that follows that prefix.  The body is always a suffix of
    the content, so nothing after its first code unit is removed. *)
Theorem buildText_strips_leading_prefix_only (m : Message) (prefix : jsstring) :
  exists ws body,
    buildTextFromDiscordMessage svc m prefix
    = (js "from: " ++ displayName (author m)) ++ LF
      ++ (js "time: " ++ toISOString svc (createdTimestamp m)) ++ LF
      ++ body
    /\ content m
       = (if startsWith (content m) prefix then prefix ++ ws else [])
         ++ body
    /\ Forall (fun c => is_whitespace c = true) ws
    /\ (startsWith (content m) prefix = true ->
        forall c rest, body = c :: rest -> is_whitespace c = false)
    /\ (startsWith (content m) prefix = false -> body = content m).
Proof.
  unfold buildTextFromDiscordMessage, slice_from.
  destruct (startsWith (content m) prefix) eqn:Hs.
  - destruct (trimStart_split (skipn (length prefix) (content m)))
      as (ws & Hsplit & Hws).
    exists ws, (trimStart (skipn (length prefix) (content m))).
    split; [reflexivity|].
    split; [rewrite <- app_assoc, <- Hsplit; now apply startsWith_split|].
    split; [exact Hws|].
    split; [|discriminate].
    intros _ c rest Hb; eapply trimStart_head; exact Hb.
  - exists [], (content m).
    repeat split; auto; discriminate.
Qed.

End Expansion.

(** ** The handler on concrete inputs *)

Section Runs.
Import Reference Examples.

Lemma duplicate_not_NoDup {A} (x : A) (l1 l2 l3 : list A) :
  ~ NoDup (l1 ++ x :: l2 ++ x :: l3).
Proof.
  intros H; apply NoDup_remove_2 in H; apply H.
  apply in_or_app; right; apply in_or_app; right; now left.
Qed.

(** C1.  The mention [trigger] arrives in a channel that holds six older
    messages; the seed history is [m1 .. m5; trigger], [m1] the earliest.
    The completion asks for one more message.  The fetch is anchored on
    [trigger], the latest entry, not on [m1]: the channel answers with
    [m5], which is newer than [m1] and already in the history, while
    [m0], the one message older than [m1], is not fetched. *)
Lemma fetch_anchored_on_latest_message :
  let w := world_of trigger (selected gpt_5_mini)
                    [asks (arguments_of_limit (js "1")); answer (js "ok")] in
  let run := MessageCreate services (Some bot_user) trigger w in
  sort_by_timestamp [trigger; m5; m4; m3; m2; m1] = seed_history
  /\ nth_error seed_history 0 = Some m1
  /\ fetches (trace run)
     = [ {| limit := JNumber 5; before := Some (msg_id trigger) |};
         {| limit := JNumber 1; before := Some (msg_id trigger) |} ]
  /\ anchor seed_history = Some (msg_id trigger)
  /\ msg_id trigger <> msg_id m1
  /\ fst (fetch {| limit := JNumber 1; before := anchor seed_history |} w)
     = inr [m5]
  /\ (createdTimestamp m1 < createdTimestamp m5)%Z
  /\ fst (fetch {| limit := JNumber 1; before := Some (msg_id m1) |} w)
     = inr [m0].
Proof.
  repeat split; try (vm_compute; reflexivity).
  vm_compute; discriminate.
Qed.

(** C2 fails as stated: the history [m1 .. m5; trigger] has no two entries
    with one id, and after the merge of the batch [[m5]] fetched for one
    tool call it has two entries with the id of [m5]; merging the same
    batch again adds a third one. *)
Lemma merge_keeps_duplicate_ids :
  let w := world_of trigger (selected gpt_5_mini) [] in
  NoDup (map msg_id seed_history)
  /\ result (process_tool_calls services seed_history one_more w)
     = inr (merge_history [m5] seed_history)
  /\ ~ NoDup (map msg_id (merge_history [m5] seed_history))
  /\ merge_history [m5] (merge_history [m5] seed_history)
     <> merge_history [m5] seed_history.
Proof.
  split; [|split; [|split]].
  - vm_compute; repeat constructor; simpl; intuition discriminate.
  - vm_compute; reflexivity.
  - exact (duplicate_not_NoDup (js "m5")
             [js "m1"; js "m2"; js "m3"; js "m4"] [] [js "m6"]).
  - intros H; apply (f_equal (@length Message)) in H.
    vm_compute in H; discriminate.
Qed.

(** C4 fails as stated: the selection call succeeds without a parsed
    value, and the cycle goes on to a completion call for gpt-5-nano and
    posts its answer instead of an error. *)
Lemma selection_missing_goes_on :
  let sel := {| output_parsed := None |} in
  let run := MessageCreate services (Some bot_user) trigger
               (world_of trigger (inr sel) [answer (js "ok")]) in
  output_parsed sel = None
  /\ create_calls (trace run) <> []
  /\ map (fun c => create_model (snd c)) (create_calls (trace run))
     = [gpt_5_nano]
  /\ posts (trace run) = [js "ok"].
Proof.
  repeat split; try (vm_compute; reflexivity).
  vm_compute; discriminate.
Qed.

(** C5 fails as stated: the arguments of the tool call are not JSON, the
    parse error is thrown out of the [try] block, and the reply is the
    text of that error, not an apology. *)
Lemma parse_error_text_is_posted :
  let w := world_of trigger (selected gpt_5_mini) [asks (js "oops")] in
  let failure := oops_error in
  result (try_block services (js "42") (js "<@42>") trigger w)
  = inl (ThrownError failure)
  /\ posts (trace (MessageCreate services (Some bot_user) trigger w))
     = [Error.message failure]
  /\ Error.message failure <> js "An unexpected error occurred.".
Proof.
  repeat split; try (vm_compute; reflexivity).
  vm_compute; discriminate.
Qed.

(** C6 fails as stated: the content is the mention followed by one space,
    so the prompt stripped of the prefix and trimmed is empty, and the
    cycle still runs and posts the answer of the completion. *)
Lemma blank_mention_is_answered :
  let prefix := js "<@42>" in
  let run := MessageCreate services (Some bot_user) blank_mention
               (world_of blank_mention (selected gpt_5_nano)
                         [answer (js "?")]) in
  trimStart (slice_from (content blank_mention) (length prefix)) = []
  /\ posts (trace run) = [js "?"]
  /\ length (select_calls (trace run)) = 1.
Proof. repeat split; vm_compute; reflexivity. Qed.

Lemma unexpected_error_reply_witness :
  let w := world_of trigger (selected gpt_5_mini) [asks (js "oops")] in
  exists t,
    trace (MessageCreate services (Some bot_user) trigger w)
    = t ++ [EvReply trigger (Error.message oops_error)].
Proof.
  intros w.
  destruct (unexpected_error_reply services bot_user trigger w w
              (world (try_block services (js "42") (js "<@42>") trigger w))
              [] (trace (try_block services (js "42") (js "<@42>") trigger w))
              (ThrownError oops_error))
    as [Ht _].
  - reflexivity.
  - reflexivity.
  - vm_compute; reflexivity.
  - eexists; exact Ht.
Defined.

Lemma empty_prompt_ignored_witness :
  let w := world_of bare_mention (selected gpt_5_mini) [answer (js "ok")] in
  MessageCreate services (Some bot_user) bare_mention w = (inr Return, w, []).
Proof.
  intros w.
  destruct (empty_prompt_ignored services bot_user bare_mention w w [])
    as [_ H].
  destruct H as [H _]; [reflexivity|reflexivity|reflexivity|exact H].
Defined.

Lemma empty_answer_sends_nothing_witness :
  let w := world_of trigger (selected gpt_5_mini) [answer []] in
  posts (trace (attempt_loop services 4 0 (js "42") (js "<@42>") trigger
                  {| output_parsed := Some gpt_5_mini |} seed_history w))
  = [].
Proof.
  intros w.
  pose (turns := rethrow (mapM (input_turn services (js "42") (js "<@42>"))
                            seed_history) w).
  destruct (empty_answer_sends_nothing services 3 0 (js "42") (js "<@42>")
              trigger {| output_parsed := Some gpt_5_mini |} seed_history
              w w (world_of trigger (selected gpt_5_mini) [])
              [] (match result turns with inr i => i | inl _ => [] end)
              {| output := [other_item]; output_text := [] |})
    as (_ & _ & H).
  - lia.
  - vm_compute; reflexivity.
  - vm_compute; reflexivity.
  - reflexivity.
  - reflexivity.
  - exact H.
Defined.

Lemma dispatch_chunks_witness :
  let w := world_of trigger (selected gpt_5_mini) [] in
  exists chunks,
    trace (dispatch services trigger long_text w)
    = chunk_events trigger chunks
    /\ concat chunks = long_text.
Proof.
  intros w.
  destruct (dispatch_chunks services trigger long_text w)
    as (chunks & Ht & _ & _ & _ & Hc).
  exists chunks; split; [exact Ht|].
  apply (Hc FallThrough).
  vm_compute; reflexivity.
Defined.

Lemma tool_call_limit_forwarded_witness :
  let w := world_of trigger (selected gpt_5_mini) [] in
  fetches (trace (process_tool_calls services seed_history
                    [function_call (js "get_messages")
                       (arguments_of_limit (js "50"))] w))
  = [{| limit := JNumber 50; before := Some (msg_id trigger) |}].
Proof.
  intros w.
  destruct (tool_call_limit_forwarded services seed_history [] w) as [_ H].
  apply (H (arguments_of_limit (js "50")) 50%Z).
  vm_compute; reflexivity.
Defined.

Lemma buildText_strips_leading_prefix_only_witness :
  exists header,
    buildTextFromDiscordMessage services m5 (js "<@42>")
    = header ++ content m5.
Proof.
  destruct (buildText_strips_leading_prefix_only services m5 (js "<@42>"))
    as (ws & body & Ht & _ & _ & _ & Hb).
  rewrite <- (Hb eq_refl), Ht.
  eexists; rewrite !app_assoc; reflexivity.
Defined.

(** The reply loop on texts of 0, 2000, 2001 and 4500 code units. *)
Example dispatch_lengths :
  let w := world_of trigger (selected gpt_5_mini) [] in
  let lengths n := map (@length code_unit)
                     (posts (trace (dispatch services trigger
                                      (repeat 97%N n) w))) in
  lengths 0 = [] /\ lengths 2000 = [2000]
  /\ lengths 2001 = [2000; 1] /\ lengths 4500 = [2000; 2000; 500].
Proof. repeat split; vm_compute; reflexivity. Qed.

(** The oldest variant removes the first occurrence of the prefix wherever
    it stands; [buildTextFromDiscordMessage] leaves it in place. *)
Example replace_removes_inner_mention :
  let quoting := said (js "m7") 7 (js "ask <@42> about it") in
  Variants.input_text_of services quoting (js "<@42>")
  = js "from: alice" ++ LF ++ js "time: 1970-01-01T00:00:00.007Z" ++ LF
    ++ js "ask  about it"
  /\ buildTextFromDiscordMessage services quoting (js "<@42>")
     = js "from: alice" ++ LF ++ js "time: 1970-01-01T00:00:00.007Z" ++ LF
       ++ js "ask <@42> about it".
Proof. split; vm_compute; reflexivity. Qed.

End Runs.

(** ** Attachments and input turns *)

Section MapM.
Context {W : Type}.

Lemma mapM_inr {E A B} (f : A -> @Run.M W E B) (R : A -> B -> Prop)
    (T : A -> list Event) :
  (forall a w b, result (f a w) = inr b -> R a b /\ trace (f a w) = T a) ->
  forall l w bs,
    result (mapM f l w) = inr bs ->
    Forall2 R l bs /\ trace (mapM f l w) = flat_map T l.
Proof.
  intros Hf; induction l as [|a l IH]; intros w bs H.
  - injection H as <-; split; [constructor|reflexivity].
  - rewrite result_mapM_cons in H; rewrite trace_mapM_cons.
    destruct (result (f a w)) as [e|b] eqn:Hb; [discriminate|].
    destruct (Hf a w b Hb) as [HR HT].
    destruct (result (mapM f l (world (f a w)))) as [e|bs'] eqn:Hbs;
      [discriminate|].
    destruct (IH _ _ Hbs) as [HF HTl].
    injection H as <-.
    split; [now constructor|].
    now rewrite HT, HTl.
Qed.

Lemma mapM_trace {E A B} (f : A -> @Run.M W E B) (T : A -> list Event) :
  (forall a w, trace (f a w) = T a) ->
  forall l w, trace (mapM f l w) = flat_map T l.
Proof.
  intros Hf; induction l as [|a l IH]; intros w; [reflexivity|].
  rewrite trace_mapM_cons, Hf, IH; reflexivity.
Qed.

End MapM.

Lemma flat_map_downloads (l : list Attachment) :
  flat_map (fun f => if downloaded f then [EvHttpGet (url f)] else []) l
  = map EvHttpGet (map url (filter downloaded l)).
Proof.
  induction l as [|f l IH]; [reflexivity|].
  cbn [flat_map filter]; rewrite IH.
  now destruct (downloaded f).
Qed.

Section Inputs.
Context {W : Type} (svc : Services W).

Lemma trace_attachment_part m f w :
  trace (attachment_part svc m f w)
  = if downloaded f then [EvHttpGet (url f)] else [].
Proof.
  unfold attachment_part, downloaded.
  destruct (opt_startsWith (contentType f) (js "image/")); [reflexivity|].
  destruct (opt_startsWith (contentType f) (js "text/")); [|reflexivity].
  cbn [negb andb]; rewrite trace_bind, trace_call.
  now destruct (result _).
Qed.

Lemma attachment_part_inr m f w p :
  result (attachment_part svc m f w) = inr p -> part_of svc m f p.
Proof.
  unfold attachment_part, part_of.
  destruct (opt_startsWith (contentType f) (js "image/"));
    [intros H; now injection H as <-|].
  destruct (opt_startsWith (contentType f) (js "text/"));
    [|intros H; now injection H as <-].
  rewrite result_bind.
  destruct (result (call _ _ w)) as [e|body]; [discriminate|].
  intros H; injection H as <-; now exists body.
Qed.

Lemma buildParts_inr m prefix w parts :
  result (buildPartsFromDiscordMessage svc m prefix w) = inr parts ->
  exists rest,
    parts = input_text (buildTextFromDiscordMessage svc m prefix) :: rest
    /\ Forall2 (part_of svc m) (firstn 10 (attachments m)) rest
    /\ trace (buildPartsFromDiscordMessage svc m prefix w)
       = map EvHttpGet
           (map url (filter downloaded (firstn 10 (attachments m)))).
Proof.
  unfold buildPartsFromDiscordMessage.
  rewrite result_bind, trace_bind.
  destruct (result (mapM _ _ w)) as [e|rest] eqn:Hr; [discriminate|].
  intros H; injection H as <-.
  destruct (mapM_inr (attachment_part svc m) (part_of svc m)
              (fun f => if downloaded f then [EvHttpGet (url f)] else [])
              (fun a w' b Hb =>
                 conj (attachment_part_inr m a w' b Hb)
                      (trace_attachment_part m a w'))
              _ _ _ Hr) as [HF HT].
  exists rest; split; [reflexivity|split; [exact HF|]].
  rewrite HT, flat_map_downloads; cbn [trace ret snd].
  now rewrite app_nil_r.
Qed.

(** X1.  A successful build of the parts of a message yields the text
    block of the message first, followed by one part per attachment for
    the first ten attachments only: never more than eleven parts. *)
Theorem buildParts_at_most_ten (m : Message) (prefix : jsstring) (w : W)
    (parts : list ContentPart) :
  result (buildPartsFromDiscordMessage svc m prefix w) = inr parts ->
  exists rest,
    parts = input_text (buildTextFromDiscordMessage svc m prefix) :: rest
    /\ length rest = Nat.min 10 (length (attachments m))
    /\ length parts <= 11.
Proof.
  intros H.
  destruct (buildParts_inr m prefix w parts H) as (rest & -> & HF & _).
  apply Forall2_length in HF; rewrite length_firstn in HF.
  exists rest; split; [reflexivity|].
  split; [now rewrite <- HF|].
  cbn [length]; lia.
Qed.

(** X2.  The parts follow the declared types of the first ten attachments,
    in order: an [image/] type gives an image reference with detail auto, a
    [text/] type a text block whose header names the author, the time and
    the file, anything else (a missing type included) a file reference.
    The downloads requested are those of the text attachments among the
    first ten, once each and in order, all of them whether or not one of
    them fails. *)
Theorem buildParts_classifies (m : Message) (prefix : jsstring) (w : W) :
  trace (buildPartsFromDiscordMessage svc m prefix w)
  = map EvHttpGet (map url (filter downloaded (firstn 10 (attachments m))))
  /\ forall parts,
       result (buildPartsFromDiscordMessage svc m prefix w) = inr parts ->
       Forall2 (part_of svc m) (firstn 10 (attachments m)) (tl parts).
Proof.
  split.
  - unfold buildPartsFromDiscordMessage; rewrite trace_bind.
    rewrite (mapM_trace (attachment_part svc m) _ (trace_attachment_part m)),
      flat_map_downloads.
    destruct (result _); cbn [trace ret snd]; now rewrite app_nil_r.
  - intros parts H.
    now destruct (buildParts_inr m prefix w parts H) as (rest & -> & HF & _).
Qed.

Lemma input_turn_inr uid prefix m w t :
  result (input_turn svc uid prefix m w) = inr t ->
  turn_of svc uid prefix m t.
Proof.
  unfold input_turn, turn_of.
  destruct (str_eqb (user_id (author m)) uid);
    [intros H; now injection H as <-|].
  rewrite result_bind.
  destruct (result (buildPartsFromDiscordMessage _ _ _ w)) as [e|parts] eqn:Hp;
    [discriminate|].
  intros H; injection H as <-.
  destruct (buildParts_inr m prefix w parts Hp) as (rest & -> & HF & _).
  now exists rest.
Qed.

(** X3.  When the input of an attempt is built, it has exactly one turn per
    message of the history, in the order of the history: an assistant turn
    holding the text block for a message of the bot, a user turn holding
    the text block and the attachment parts for any other message. *)
Theorem input_follows_history (uid prefix : jsstring)
    (history : list Message) (w : W) (input : list InputTurn) :
  result (mapM (input_turn svc uid prefix) history w) = inr input ->
  Forall2 (turn_of svc uid prefix) history input
  /\ length input = length history.
Proof.
  intros H.
  assert (HF : Forall2 (turn_of svc uid prefix) history input).
  { revert w input H; induction history as [|m l IH]; intros w input H.
    - injection H as <-; constructor.
    - rewrite result_mapM_cons in H.
      destruct (result (input_turn _ _ _ m w)) as [e|t] eqn:Ht; [discriminate|].
      destruct (result (mapM _ l _)) as [e|ts] eqn:Hts; [discriminate|].
      injection H as <-.
      constructor; [eapply input_turn_inr; exact Ht|eapply IH; exact Hts]. }
  split; [exact HF|symmetry; eapply Forall2_length; exact HF].
Qed.

End Inputs.

(** ** Every run has one of the shapes *)

Section Shapes.
Context {W : Type} (svc : Services W).

Lemma result_rethrow {A} (m : @Run.M W JsError A) w :
  result (rethrow m w)
  = match result (m w) with
    | inl e => inl (ThrownError e)
    | inr a => inr a
    end.
Proof. unfold rethrow, result; now destruct (m w) as [[[e|a] w1] t1]. Qed.

Lemma result_guard {A} (m : @Run.M W JsError A) w :
  result (guard m w)
  = inr match result (m w) with
        | inl e => (None, Some e)
        | inr a => (Some a, None)
        end.
Proof. unfold guard, result; now destruct (m w) as [[[e|a] w1] t1]. Qed.

Lemma result_reply_return message text w :
  reply_outcome
    (result ((call (EvReply message text) (message_reply svc message text) ;;
              @ret W Thrown Exit Return) w)).
Proof.
  rewrite result_bind.
  destruct (result _) as [err|[]]; [right; now exists err|now left].
Qed.

Lemma trace_reply_return message text (e : Exit) w :
  trace ((call (EvReply message text) (message_reply svc message text) ;;
          @ret W Thrown Exit e) w)
  = [EvReply message text].
Proof. rewrite trace_bind, trace_call; now destruct (result _). Qed.

Lemma input_turns_inr uid prefix history : forall w input,
  result (mapM (input_turn svc uid prefix) history w) = inr input ->
  Forall2 (turn_of svc uid prefix) history input.
Proof.
  induction history as [|m l IH]; intros w input H.
  - injection H as <-; constructor.
  - rewrite result_mapM_cons in H.
    destruct (result (input_turn _ _ _ m w)) as [e|t] eqn:Ht; [discriminate|].
    destruct (result (mapM _ l _)) as [e|ts] eqn:Hts; [discriminate|].
    injection H as <-.
    constructor; [eapply input_turn_inr; exact Ht|eapply IH; exact Hts].
Qed.

Lemma slice_nonempty (text : jsstring) (i : nat) :
  i < length text -> 1 <= length (slice text i (i + 2000)).
Proof.
  intros Hi; unfold slice.
  rewrite length_firstn, length_skipn; lia.
Qed.

Lemma dispatch_loop_posts fuel : forall i message text w,
  exists chunks,
    trace (dispatch_loop svc fuel i message text w)
    = (if i =? 0 then chunk_events message chunks else map EvSend chunks)
    /\ Forall (fun c => 1 <= length c <= 2000) chunks.
Proof.
  induction fuel as [|fuel IH]; intros i message text w.
  { exists []; split; [now destruct (i =? 0)|constructor]. }
  destruct (Nat.lt_ge_cases i (length text)) as [Hi|Hi].
  - destruct (dispatch_loop_step svc fuel i message text w Hi)
      as (step & -> & Hstep).
    rewrite trace_bind, Hstep.
    assert (Hc : 1 <= length (slice text i (i + 2000)) <= 2000)
      by (split; [now apply slice_nonempty|apply slice_length]).
    destruct (result (step w)) as [err|[]].
    + exists [slice text i (i + 2000)].
      split; [unfold chunk_event; now destruct (i =? 0)|now constructor].
    + destruct (IH (i + 2000) message text (world (step w)))
        as (chunks & Ht & Hl).
      replace (i + 2000 =? 0) with false in Ht
        by (symmetry; apply Nat.eqb_neq; lia).
      exists (slice text i (i + 2000) :: chunks).
      split; [rewrite Ht; unfold chunk_event; now destruct (i =? 0)
             |now constructor].
  - exists []; cbn [dispatch_loop].
    apply Nat.ltb_ge in Hi; rewrite Hi.
    split; [now destruct (i =? 0)|constructor].
Qed.

Lemma fetch_trace (t : list Event) :
  Forall is_fetch t -> t = map EvFetch (fetches t).
Proof.
  induction 1 as [|ev t Hev _ IH]; [reflexivity|].
  destruct ev; try now destruct Hev.
  cbn [fetches flat_map app map]; f_equal; exact IH.
Qed.

Lemma trace_process_tool_calls history items w :
  trace (process_tool_calls svc history items w)
  = tool_fetches history (requested_limits (JSON_parse_limit svc) items).
Proof.
  rewrite (fetch_trace _ (emits_process_tool_calls svc history items w)).
  assert (H : fetches (trace (process_tool_calls svc history items w))
              = map (fun v => {| limit := v; before := anchor history |})
                    (requested_limits (JSON_parse_limit svc) items)).
  { unfold process_tool_calls.
    rewrite trace_bind, fetches_app, fetches_start_tool_calls.
    destruct (result _) as [err|ps]; [now rewrite app_nil_r|].
    destruct (first_rejected ps); [now rewrite app_nil_r|].
    destruct (merge_fetched ps history); now rewrite app_nil_r. }
  rewrite H; unfold tool_fetches; now rewrite map_map.
Qed.

Lemma merge_history_incl batch history :
  incl history (merge_history batch history).
Proof.
  intros x Hx; unfold merge_history.
  eapply Permutation_in; [apply sort_by_timestamp_perm|].
  apply in_or_app; now right.
Qed.

Lemma merge_fetched_incl (ps : list Pending) : forall history history',
  merge_fetched ps history = inr history' -> incl history history'.
Proof.
  induction ps as [|[err|[err|batch]] ps IH]; intros history history' H;
    simpl in H; try discriminate.
  - injection H as <-; apply incl_refl.
  - eapply incl_tran; [apply merge_history_incl|eapply IH; exact H].
Qed.

Lemma process_tool_calls_inr history items w history' :
  result (process_tool_calls svc history items w) = inr history' ->
  incl history history'
  /\ (StronglySorted earlier history -> StronglySorted earlier history').
Proof.
  unfold process_tool_calls; rewrite result_bind.
  destruct (result (start_tool_calls _ _ _ _)) as [err|ps]; [discriminate|].
  destruct (first_rejected ps); [discriminate|].
  destruct (merge_fetched ps history) as [err|h] eqn:Hm; [discriminate|].
  intros H; injection H as <-.
  split; [eapply merge_fetched_incl; exact Hm|].
  intros Hs; eapply merge_fetched_sorted; [exact Hs|exact Hm].
Qed.

Lemma attempt_loop_run uid prefix message sel fuel :
  forall a history w,
    1 <= fuel -> 3 < fuel + a ->
    let run := attempt_loop svc fuel a uid prefix message sel history w in
    attempt_run svc uid prefix message sel a history (result run) (trace run).
Proof.
  induction fuel as [|fuel IH]; intros a history w Hfuel Hsum run; [lia|].
  subst run; cbn [attempt_loop].
  destruct (a <=? 2) eqn:Ha;
    [apply Nat.leb_le in Ha
    |apply Nat.leb_gt in Ha; now constructor].
  rewrite trace_bind, result_bind, result_rethrow, trace_rethrow.
  pose proof (emits_mapM is_download _ history
                (emits_input_turn svc uid prefix) w) as Hin.
  set (w1 := world _).
  destruct (result (mapM _ history w)) as [e|input] eqn:Hinput.
  { rewrite app_nil_r; now constructor. }
  apply input_turns_inr in Hinput.
  cbv zeta.
  set (req := create_request a sel message input).
  rewrite trace_bind, result_bind, trace_guard, trace_call, result_guard.
  set (w2 := world _).
  cbn [app].
  destruct (result (call _ _ w1)) as [e|response].
  { rewrite trace_reply_return.
    apply RunError; auto using result_reply_return. }
  destruct (negb (existsb is_get_messages (output response))).
  - rewrite trace_bind, result_bind.
    destruct (dispatch_loop_posts (S (length (output_text response))) 0
                message (output_text response) w2) as (chunks & Ht & Hl).
    fold (dispatch svc message (output_text response)) in Ht.
    cbn [Nat.eqb] in Ht; rewrite Ht.
    pose proof (dispatch_never_out_of_fuel svc message
                  (output_text response) w2) as Hd.
    assert (Hr : reply_outcome
                   match result (dispatch svc message (output_text response) w2)
                   with
                   | inl e => inl e
                   | inr e =>
                       result
                         (@ret W Thrown Exit
                            match e with OutOfFuel => OutOfFuel | _ => Return end
                            (world (dispatch svc message
                                      (output_text response) w2)))
                   end).
    { destruct (result (dispatch _ _ _ _)) as [err|[]];
        [right; now exists err|now left|now left|now destruct Hd]. }
    replace (chunk_events message chunks ++ _)
      with (chunk_events message chunks)
      by (destruct (result (dispatch _ _ _ _));
          cbn [trace ret snd]; now rewrite app_nil_r).
    now apply RunAnswer.
  - rewrite trace_bind, result_bind, trace_process_tool_calls.
    destruct (result (process_tool_calls _ _ _ _)) as [err|history'] eqn:Hp.
    + rewrite app_nil_r; now apply RunToolsFailed.
    + destruct (process_tool_calls_inr _ _ _ _ Hp) as [Hincl Hsorted].
      apply RunTools with (h' := history'); auto.
      apply IH; lia.
Qed.

End Shapes.

Section CycleShapes.
Context {W : Type} (svc : Services W).

Lemma result_call {E A} (ev : Event) (oracle : W -> (E + A) * W) w :
  result (call ev oracle w) = fst (oracle w).
Proof. unfold call, result; now destruct (oracle w). Qed.

Lemma select_model_run message prefix w :
  exists t,
    Forall is_download t
    /\ ((exists e,
           result (select_model svc message prefix w) = inr (None, Some e)
           /\ trace (select_model svc message prefix w) = t)
        \/ exists parts,
             result (buildPartsFromDiscordMessage svc message prefix w)
             = inr parts
             /\ trace (select_model svc message prefix w)
                = t ++ [EvSelect (selection_request parts)]
             /\ ((exists e,
                    result (select_model svc message prefix w)
                    = inr (None, Some e))
                 \/ exists selectResponse,
                      result (select_model svc message prefix w)
                      = inr (Some selectResponse, None))).
Proof.
  exists (trace (buildPartsFromDiscordMessage svc message prefix w)).
  split; [apply emits_buildParts|].
  unfold select_model.
  rewrite result_guard, trace_guard, result_bind, trace_bind.
  destruct (result (buildPartsFromDiscordMessage svc message prefix w))
    as [e|parts].
  - left; exists e; now rewrite app_nil_r.
  - right; exists parts; cbv zeta; rewrite trace_call.
    split; [reflexivity|split; [reflexivity|]].
    destruct (result (call _ _ _)) as [e|sr];
      [left; now exists e|right; now exists sr].
Qed.

Lemma try_block_run uid prefix message w :
  let run := try_block svc uid prefix message w in
  cycle_run svc uid prefix message (result run) (trace run).
Proof.
  intros run; subst run; unfold try_block; cbv zeta.
  destruct (prompt_of message prefix) as [|c p] eqn:Hp;
    [now constructor|].
  assert (Hne : c :: p <> []) by discriminate.
  rewrite <- Hp in Hne.
  cbn [length Nat.eqb].
  rewrite trace_bind, result_bind.
  set (w2 := world _).
  destruct (select_model_run message prefix w)
    as (t & Hd & [(e & -> & ->)|(parts & Hparts & -> & [(e & ->)|(sr & ->)])]);
    [|apply buildParts_inr in Hparts as (others & -> & _)..].
  - rewrite trace_reply_return.
    apply CycleBuildFailed; auto using result_reply_return.
  - rewrite trace_reply_return, <- app_assoc; cbn [app].
    apply CycleSelectFailed; auto using result_reply_return.
  - rewrite trace_bind, result_bind, trace_call.
    fold (seed_options message).
    rewrite <- app_assoc; cbn [app].
    destruct (result (call _ _ w2)) as [err|fetched];
      [now apply CycleSeedFailed|].
    apply CycleAttempts with (sel := sr) (fetched := fetched); auto.
    apply attempt_loop_run; lia.
Qed.

Lemma MessageCreate_run client_user message w :
  let run := MessageCreate svc client_user message w in
  handler_run svc client_user message (result run) (trace run).
Proof.
  intros run; subst run; unfold MessageCreate.
  destruct (bot (author message)) eqn:Hbot;
    [apply HandlerIgnored; now left|].
  destruct client_user as [cu|]; [|apply HandlerIgnored; now right].
  cbv zeta; fold (mention_prefix cu).
  rewrite trace_bind, result_bind.
  pose proof (emits_addressed svc (user_id cu) (mention_prefix cu) message w)
    as Hl.
  set (w1 := world _).
  destruct (result (addressed _ _ _ _ w)) as [err|[|]] eqn:Ha.
  - (* the lookup of the referenced message rejected *)
    unfold addressed in Ha |- *.
    destruct (startsWith (content message) (mention_prefix cu)) eqn:Hs;
      [discriminate|].
    destruct (reference message) as [target|] eqn:Hr; [|discriminate].
    rewrite trace_bind, trace_call.
    rewrite result_bind in Ha.
    destruct (result (call _ _ w)); [|discriminate].
    rewrite app_nil_r.
    eapply HandlerLookupFailed; eauto; congruence.
  - rewrite trace_try_catch, result_try_catch.
    pose proof (try_block_run (user_id cu) (mention_prefix cu) message w1)
      as Hc; cbv zeta in Hc.
    destruct (result (try_block _ _ _ _ w1)) as [err|e].
    + rewrite trace_catch_block; fold (catch_text err).
      eapply HandlerCaught; eauto.
      unfold catch_block; cbv zeta; rewrite result_bind.
      destruct (result (call _ _ _)) as [err'|[]];
        [right; now exists err'|left; reflexivity].
    + rewrite app_nil_r; eapply HandlerCycle; eauto.
  - rewrite app_nil_r.
    eapply HandlerNotAddressed; eauto.
    unfold addressed in Ha.
    destruct (startsWith (content message) (mention_prefix cu));
      [discriminate|reflexivity].
Qed.

End CycleShapes.

(** ** What every run posts *)

Lemma flat_map_none {A} (f : Event -> list A) (P : Event -> Prop)
    (t : list Event) :
  (forall ev, P ev -> f ev = []) -> Forall P t -> flat_map f t = [].
Proof.
  intros HP; induction 1 as [|ev t Hev _ IH]; [reflexivity|].
  cbn [flat_map]; now rewrite (HP ev Hev), IH.
Qed.

Lemma replies_app (t1 t2 : list Event) :
  replies (t1 ++ t2) = replies t1 ++ replies t2.
Proof. apply flat_map_app. Qed.

Lemma sends_app (t1 t2 : list Event) : sends (t1 ++ t2) = sends t1 ++ sends t2.
Proof. apply flat_map_app. Qed.

Lemma downloads_silent (t : list Event) :
  Forall is_download t ->
  replies t = [] /\ sends t = [] /\ fetches t = [] /\ select_calls t = [].
Proof.
  intros H; repeat split;
    (eapply flat_map_none; [|exact H]); now intros [].
Qed.

Lemma lookups_silent (t : list Event) :
  Forall is_lookup t ->
  replies t = [] /\ sends t = [] /\ fetches t = [] /\ select_calls t = [].
Proof.
  intros H; repeat split;
    (eapply flat_map_none; [|exact H]); now intros [].
Qed.

Lemma tool_fetches_silent (h : list Message) (limits : list JsValue) :
  replies (tool_fetches h limits) = []
  /\ sends (tool_fetches h limits) = []
  /\ posts (tool_fetches h limits) = []
  /\ create_calls (tool_fetches h limits) = []
  /\ select_calls (tool_fetches h limits) = [].
Proof.
  assert (H : Forall is_fetch (tool_fetches h limits))
    by (unfold tool_fetches; induction limits; now constructor).
  repeat split; (eapply flat_map_none; [|exact H]); now intros [].
Qed.

Lemma chunk_events_read (message : Message) (chunks : list jsstring) :
  replies (chunk_events message chunks) = firstn 1 chunks
  /\ sends (chunk_events message chunks) = tl chunks
  /\ fetches (chunk_events message chunks) = []
  /\ create_calls (chunk_events message chunks) = []
  /\ select_calls (chunk_events message chunks) = [].
Proof.
  destruct chunks as [|c chunks]; [now repeat split|].
  cbn [chunk_events firstn tl].
  assert (H : forall rest,
             replies (map EvSend rest) = [] /\ sends (map EvSend rest) = rest
             /\ fetches (map EvSend rest) = []
             /\ create_calls (map EvSend rest) = []
             /\ select_calls (map EvSend rest) = []).
  { induction rest as [|x rest (H1 & H2 & H3 & H4 & H5)]; [now repeat split|].
    repeat split; cbn; try assumption.
    now f_equal. }
  destruct (H chunks) as (H1 & H2 & H3 & H4 & H5).
  repeat split; cbn; try assumption.
  now f_equal.
Qed.

Section Posts.
Context {W : Type} (svc : Services W).

Lemma attempt_run_sends uid prefix message sel a h r t :
  attempt_run svc uid prefix message sel a h r t ->
  Forall (fun c => 1 <= length c <= 2000) (sends t)
  /\ length (replies t) <= 1.
Proof.
  induction 1 as [a h Ha
                 |a h e t Ha Ht
                 |a h t input e r Ha Ht Hin Hr
                 |a h t input chunks r Ha Ht Hin Hc Hr
                 |a h t input limits err Ha Ht Hin
                 |a h t input limits h' r rest Ha Ht Hin Hincl Hs Hrest IH];
    try (destruct (downloads_silent t Ht) as (Hrep & Hsend & _)).
  - split; [constructor|simpl; lia].
  - rewrite Hrep, Hsend; split; [constructor|simpl; lia].
  - rewrite sends_app, replies_app, Hrep, Hsend.
    split; [constructor|simpl; lia].
  - rewrite sends_app, replies_app, Hrep, Hsend.
    destruct (chunk_events_read message chunks) as (H1 & H2 & _).
    cbn [app sends replies flat_map].
    fold (sends (chunk_events message chunks)).
    fold (replies (chunk_events message chunks)).
    rewrite H1, H2.
    split; [destruct Hc; [constructor|assumption]
           |rewrite length_firstn; lia].
  - rewrite sends_app, replies_app, Hrep, Hsend.
    destruct (tool_fetches_silent h limits) as (H1 & H2 & _).
    cbn [app sends replies flat_map].
    fold (sends (tool_fetches h limits)).
    fold (replies (tool_fetches h limits)).
    rewrite H1, H2; split; [constructor|simpl; lia].
  - rewrite sends_app, replies_app, Hrep, Hsend.
    destruct (tool_fetches_silent h limits) as (H1 & H2 & _).
    cbn [app sends replies flat_map].
    fold (sends (tool_fetches h limits ++ rest)).
    fold (replies (tool_fetches h limits ++ rest)).
    rewrite sends_app, replies_app, H1, H2.
    exact IH.
Qed.

Lemma cycle_run_sends uid prefix message r t :
  cycle_run svc uid prefix message r t ->
  Forall (fun c => 1 <= length c <= 2000) (sends t)
  /\ length (replies t) <= 1.
Proof.
  destruct 1 as [Hp
                |t e r Hp Ht Hr
                |t parts e r Hp Hparts Ht Hr
                |t parts err Hp Hparts Ht
                |t parts sel fetched r rest Hp Hparts Ht Hrest];
    try (destruct (downloads_silent t Ht) as (Hrep & Hsend & _));
    try (rewrite sends_app, replies_app, Hrep, Hsend).
  - split; [constructor|simpl; lia].
  - split; [constructor|simpl; lia].
  - split; [constructor|simpl; lia].
  - split; [constructor|simpl; lia].
  - exact (attempt_run_sends _ _ _ _ _ _ _ _ Hrest).
Qed.

(** X4.  In every run of the handler, each plain message sent to the
    channel has between 1 and 2000 code units: nothing but the later chunks
    of an answer is ever sent that way, and none of them is empty. *)
Theorem sends_are_bounded_chunks
    (client_user : option User) (message : Message) (w : W) :
  Forall (fun c => 1 <= length c <= 2000)
         (sends (trace (MessageCreate svc client_user message w))).
Proof.
  destruct (MessageCreate_run svc client_user message w)
    as [H
       |cu err Hcu Hbot Hs Hr
       |cu t Hcu Hbot Hs Ht
       |cu t e body Hcu Hbot Ht Hbody
       |cu t err body r Hcu Hbot Ht Hbody Hr];
    try (destruct (lookups_silent t Ht) as (_ & Hsend & _)).
  - constructor.
  - constructor.
  - rewrite Hsend; constructor.
  - rewrite sends_app, Hsend.
    exact (proj1 (cycle_run_sends _ _ _ _ _ Hbody)).
  - rewrite !sends_app, Hsend; cbn [app sends flat_map].
    rewrite app_nil_r.
    exact (proj1 (cycle_run_sends _ _ _ _ _ Hbody)).
Qed.

(** X5.  The [try] block replies to the triggering message at most once,
    and a run of the handler at most twice: a second reply can only be the
    one of the [catch] block. *)
Theorem replies_at_most_twice
    (client_user : option User) (message : Message) (w : W) :
  (forall uid prefix,
      length (replies (trace (try_block svc uid prefix message w))) <= 1)
  /\ length (replies (trace (MessageCreate svc client_user message w))) <= 2.
Proof.
  split.
  - intros uid prefix.
    exact (proj2 (cycle_run_sends _ _ _ _ _
                    (try_block_run svc uid prefix message w))).
  - destruct (MessageCreate_run svc client_user message w)
      as [H
         |cu err Hcu Hbot Hs Hr
         |cu t Hcu Hbot Hs Ht
         |cu t e body Hcu Hbot Ht Hbody
         |cu t err body r Hcu Hbot Ht Hbody Hr];
      try (destruct (lookups_silent t Ht) as (Hrep & _)).
    + simpl; lia.
    + simpl; lia.
    + rewrite Hrep; simpl; lia.
    + rewrite replies_app, Hrep.
      pose proof (proj2 (cycle_run_sends _ _ _ _ _ Hbody)); simpl; lia.
    + rewrite !replies_app, Hrep; cbn [app]; rewrite length_app.
      pose proof (proj2 (cycle_run_sends _ _ _ _ _ Hbody)) as Hone.
      change (length (replies [EvReply message (catch_text err)])) with 1.
      lia.
Qed.

End Posts.

(** ** What every run requests *)

Lemma create_calls_cons ev t :
  create_calls (ev :: t)
  = match ev with EvCreate a req => [(a, req)] | _ => [] end ++ create_calls t.
Proof. reflexivity. Qed.

Lemma select_calls_cons ev t :
  select_calls (ev :: t)
  = match ev with EvSelect req => [req] | _ => [] end ++ select_calls t.
Proof. reflexivity. Qed.

Lemma fetches_cons ev t :
  fetches (ev :: t)
  = match ev with EvFetch opts => [opts] | _ => [] end ++ fetches t.
Proof. reflexivity. Qed.

Lemma posts_cons ev t :
  posts (ev :: t)
  = match ev with
    | EvReply _ text => [text]
    | EvSend text => [text]
    | _ => []
    end ++ posts t.
Proof. reflexivity. Qed.

Ltac read_trace :=
  repeat rewrite ?create_calls_app, ?select_calls_app, ?fetches_app,
    ?posts_app, ?create_calls_cons, ?select_calls_cons, ?fetches_cons,
    ?posts_cons;
  cbn beta iota;
  change (create_calls []) with (@nil (nat * CreateRequest));
  change (select_calls []) with (@nil SelectRequest);
  change (fetches []) with (@nil FetchOptions);
  change (posts []) with (@nil jsstring);
  cbn [app]; rewrite ?app_nil_r.

Lemma downloads_quiet (t : list Event) :
  Forall is_download t ->
  create_calls t = [] /\ select_calls t = [] /\ fetches t = []
  /\ posts t = [].
Proof.
  intros H; repeat split;
    (eapply flat_map_none; [|exact H]); now intros [].
Qed.

Lemma lookups_quiet (t : list Event) :
  Forall is_lookup t ->
  create_calls t = [] /\ select_calls t = [] /\ fetches t = []
  /\ posts t = [].
Proof.
  intros H; repeat split;
    (eapply flat_map_none; [|exact H]); now intros [].
Qed.

Lemma fetches_tool_fetches (h : list Message) (limits : list JsValue) :
  fetches (tool_fetches h limits)
  = map (fun v => {| limit := v; before := anchor h |}) limits.
Proof.
  unfold tool_fetches; induction limits as [|v l IH]; [reflexivity|].
  cbn [map]; rewrite fetches_cons, IH; reflexivity.
Qed.

Lemma anchor_some (h : list Message) : h <> [] -> anchor h <> None.
Proof.
  intros Hh; unfold anchor.
  destruct (nth_error h (length h - 1)) eqn:Hn; [discriminate|].
  apply nth_error_None in Hn.
  destruct h; [congruence|simpl in Hn; lia].
Qed.

Lemma posts_chunk_events (message : Message) (chunks : list jsstring) :
  posts (chunk_events message chunks) = chunks.
Proof.
  destruct chunks as [|c chunks]; [reflexivity|].
  cbn [chunk_events]; rewrite posts_cons; cbn [app]; f_equal.
  induction chunks as [|x l IH]; [reflexivity|].
  cbn [map]; rewrite posts_cons, IH; reflexivity.
Qed.

Section Requests.
Context {W : Type} (svc : Services W).

Lemma attempt_run_reads uid prefix message sel a h r t :
  attempt_run svc uid prefix message sel a h r t ->
  StronglySorted earlier h -> In message h ->
  select_calls t = []
  /\ Forall (fun o => before o <> None) (fetches t)
  /\ Forall (fun c =>
               create_model (snd c) = selected_model sel
               /\ hd_error (create_input (snd c)) = Some (preamble_turn message)
               /\ exists h0,
                    StronglySorted earlier h0 /\ In message h0
                    /\ Forall2 (turn_of svc uid prefix) h0
                               (tl (create_input (snd c))))
            (create_calls t)
  /\ (r = inr FallThrough ->
      length (create_calls t) = 3 - a /\ posts t = []).
Proof.
  induction 1 as [a h Ha
                 |a h e t Ha Ht
                 |a h t input e r Ha Ht Hin Hr
                 |a h t input chunks r Ha Ht Hin Hc Hr
                 |a h t input limits err Ha Ht Hin
                 |a h t input limits h' r rest Ha Ht Hin Hincl Hs Hrest IH];
    intros Hsorted Hmem;
    try (destruct (downloads_quiet t Ht) as (Hcalls & Hsel & Hfetch & Hposts));
    assert (Hcall : forall input,
               Forall2 (turn_of svc uid prefix) h input ->
               create_model (create_request a sel message input)
               = selected_model sel
               /\ hd_error (create_input (create_request a sel message input))
                  = Some (preamble_turn message)
               /\ exists h0,
                    StronglySorted earlier h0 /\ In message h0
                    /\ Forall2 (turn_of svc uid prefix) h0
                         (tl (create_input
                                (create_request a sel message input))))
      by (intros i Hi; split; [reflexivity|split; [reflexivity|now exists h]]).
  - cbn [select_calls fetches create_calls posts flat_map length].
    split; [reflexivity|split; [constructor|split; [constructor|]]].
    intros _; split; [lia|reflexivity].
  - rewrite Hcalls, Hsel, Hfetch.
    split; [reflexivity|split; [constructor|split; [constructor|]]].
    discriminate.
  - read_trace; rewrite Hcalls, Hsel, Hfetch; cbn [app].
    split; [reflexivity|split; [constructor|split]].
    + constructor; [now apply Hcall|constructor].
    + intros ->; destruct Hr as [Hr|[err Hr]]; discriminate.
  - destruct (chunk_events_read message chunks) as (_ & _ & F & C & S).
    read_trace; rewrite Hcalls, Hsel, Hfetch, F, C, S; cbn [app].
    split; [reflexivity|split; [constructor|split]].
    + constructor; [now apply Hcall|constructor].
    + intros ->; destruct Hr as [Hr|[err Hr]]; discriminate.
  - destruct (tool_fetches_silent h limits) as (_ & _ & _ & C & S).
    read_trace; rewrite Hcalls, Hsel, Hfetch, C, S, fetches_tool_fetches.
    cbn [app].
    split; [reflexivity|split; [|split]].
    + apply Forall_map, Forall_forall; intros v _; cbn [before].
      apply anchor_some; intros ->; destruct Hmem.
    + constructor; [now apply Hcall|constructor].
    + discriminate.
  - destruct (tool_fetches_silent h limits) as (_ & _ & P & C & S).
    destruct IH as (IHsel & IHfetch & IHcalls & IHfall);
      [now apply Hs|now apply Hincl|].
    read_trace.
    rewrite Hcalls, Hsel, Hfetch, Hposts, C, S, P, fetches_tool_fetches, IHsel.
    cbn [app].
    split; [reflexivity|split; [|split]].
    + apply Forall_app; split; [|exact IHfetch].
      apply Forall_map, Forall_forall; intros v _; cbn [before].
      apply anchor_some; intros ->; destruct Hmem.
    + constructor; [now apply Hcall|exact IHcalls].
    + intros Hfall; destruct (IHfall Hfall) as [Hlen Hquiet].
      split; [cbn [length]; lia|exact Hquiet].
Qed.

Lemma seed_history_ready (message : Message) (fetched : list Message) :
  StronglySorted earlier (sort_by_timestamp (message :: fetched))
  /\ In message (sort_by_timestamp (message :: fetched)).
Proof.
  split; [apply sort_by_timestamp_sorted|].
  eapply Permutation_in; [apply sort_by_timestamp_perm|now left].
Qed.

Lemma cycle_run_reads uid prefix message r t :
  cycle_run svc uid prefix message r t ->
  ((select_calls t = [] /\ create_calls t = [] /\ fetches t = [])
   \/ exists parts rest,
        select_calls t = [selection_request parts]
        /\ hd_error parts
           = Some (input_text (buildTextFromDiscordMessage svc message prefix))
        /\ (fetches t = [] \/ fetches t = seed_options message :: rest))
  /\ Forall (fun o => before o <> None) (tl (fetches t))
  /\ (exists m,
        Forall (fun c =>
                  create_model (snd c) = m
                  /\ hd_error (create_input (snd c))
                     = Some (preamble_turn message)
                  /\ exists h0,
                       StronglySorted earlier h0 /\ In message h0
                       /\ Forall2 (turn_of svc uid prefix) h0
                                  (tl (create_input (snd c))))
               (create_calls t))
  /\ (r = inr FallThrough ->
      length (create_calls t) = 3 /\ posts t = []).
Proof.
  destruct 1 as [Hp
                |t e r Hp Ht Hr
                |t parts e r Hp Hparts Ht Hr
                |t parts err Hp Hparts Ht
                |t parts sel fetched r rest Hp Hparts Ht Hrest];
    try (destruct (downloads_quiet t Ht) as (Hcalls & Hsel & Hfetch & Hposts)).
  - cbn [select_calls fetches create_calls posts flat_map length tl].
    split; [now left|split; [constructor|split]].
    + exists gpt_5_nano; constructor.
    + discriminate.
  - read_trace; rewrite Hcalls, Hsel, Hfetch; cbn [app tl].
    split; [now left|split; [constructor|split]].
    + exists gpt_5_nano; constructor.
    + intros ->; destruct Hr as [Hr|[err Hr]]; discriminate.
  - read_trace; rewrite Hcalls, Hsel, Hfetch; cbn [app tl].
    split; [right; exists parts, []; auto|split; [constructor|split]].
    + exists gpt_5_nano; constructor.
    + intros ->; destruct Hr as [Hr|[err Hr]]; discriminate.
  - read_trace; rewrite Hcalls, Hsel, Hfetch; cbn [app tl].
    split; [right; exists parts, []; auto|split; [constructor|split]].
    + exists gpt_5_nano; constructor.
    + discriminate.
  - destruct (seed_history_ready message fetched) as [Hsorted Hmem].
    destruct (attempt_run_reads _ _ _ _ _ _ _ _ Hrest Hsorted Hmem)
      as (Rsel & Rfetch & Rcalls & Rfall).
    read_trace; rewrite Hcalls, Hsel, Hfetch, Hposts, Rsel; cbn [app tl].
    split; [right; exists parts, (fetches rest); auto|split; [|split]].
    + exact Rfetch.
    + exists (selected_model sel); exact Rcalls.
    + intros Hfall; destruct (Rfall Hfall) as [Hlen Hquiet]; now split.
Qed.

End Requests.

Section HandlerRequests.
Context {W : Type} (svc : Services W).

Lemma MessageCreate_reads client_user message w :
  let t := trace (MessageCreate svc client_user message w) in
  (create_calls t = [] /\ select_calls t = [] /\ fetches t = [])
  \/ exists cu r body,
       client_user = Some cu
       /\ cycle_run svc (user_id cu) (mention_prefix cu) message r body
       /\ create_calls t = create_calls body
       /\ select_calls t = select_calls body
       /\ fetches t = fetches body.
Proof.
  intros t; subst t.
  destruct (MessageCreate_run svc client_user message w)
    as [H
       |cu err Hcu Hbot Hs Hr
       |cu t Hcu Hbot Hs Ht
       |cu t e body Hcu Hbot Ht Hbody
       |cu t err body r Hcu Hbot Ht Hbody Hr];
    try (destruct (lookups_quiet t Ht) as (Hcalls & Hsel & Hfetch & _)).
  - left; now repeat split.
  - left; now repeat split.
  - left; now repeat split.
  - right; exists cu, (inr e), body.
    read_trace; rewrite Hcalls, Hsel, Hfetch; now repeat split.
  - right; exists cu, (inl err), body.
    read_trace; rewrite Hcalls, Hsel, Hfetch; now repeat split.
Qed.

(** X6.  The first history fetch of a run, when there is one, is the seed
    fetch: five messages before the message whose id the reference of the
    triggering message names (no anchor at all when the reference names
    none), or before the triggering message when it has no reference.
    Every later fetch, those of the tool calls, names an anchor: none of
    them is ever issued without [before]. *)
Theorem fetches_are_anchored
    (client_user : option User) (message : Message) (w : W) :
  let fs := fetches (trace (MessageCreate svc client_user message w)) in
  limit (seed_options message) = JNumber 5
  /\ before (seed_options message)
     = match reference message with
       | Some target => messageId target
       | None => Some (msg_id message)
       end
  /\ (fs = []
      \/ exists rest,
           fs = seed_options message :: rest
           /\ Forall (fun o => before o <> None) rest).
Proof.
  intros fs; subst fs.
  split; [reflexivity|split; [reflexivity|]].
  destruct (MessageCreate_reads client_user message w)
    as [(_ & _ & ->)|(cu & r & body & _ & Hbody & _ & _ & ->)];
    [now left|].
  destruct (cycle_run_reads svc _ _ _ _ _ Hbody) as (Hsel & Hf & _).
  destruct Hsel as [(_ & _ & ->)|(parts & rest & _ & _ & [->|Hfs])];
    [now left|now left|].
  rewrite Hfs in Hf |- *.
  right; now exists rest.
Qed.

(** X7.  All completion requests of a run name the same model, and each
    starts with the system preamble built for the triggering message. *)
Theorem completion_requests_share_model
    (client_user : option User) (message : Message) (w : W) :
  exists m,
    Forall (fun c =>
              create_model (snd c) = m
              /\ hd_error (create_input (snd c)) = Some (preamble_turn message))
           (create_calls (trace (MessageCreate svc client_user message w))).
Proof.
  destruct (MessageCreate_reads client_user message w)
    as [(-> & _)|(cu & r & body & _ & Hbody & -> & _)].
  - exists gpt_5_nano; constructor.
  - destruct (cycle_run_reads svc _ _ _ _ _ Hbody) as (_ & _ & (m & Hm) & _).
    exists m; eapply Forall_impl; [|exact Hm].
    intros c (H1 & H2 & _); now split.
Qed.

(** X8.  After the preamble, the input of every completion request is the
    sequence of turns of a history that is sorted by ascending creation
    time and contains the triggering message, one turn per entry. *)
Theorem completion_inputs_follow_sorted_history
    (cu : User) (message : Message) (w : W) :
  Forall (fun c =>
            exists h,
              StronglySorted earlier h /\ In message h
              /\ Forall2 (turn_of svc (user_id cu) (mention_prefix cu)) h
                         (tl (create_input (snd c))))
         (create_calls (trace (MessageCreate svc (Some cu) message w))).
Proof.
  destruct (MessageCreate_reads (Some cu) message w)
    as [(-> & _)|(cu' & r & body & Hcu & Hbody & -> & _)];
    [constructor|].
  injection Hcu as <-.
  destruct (cycle_run_reads svc _ _ _ _ _ Hbody) as (_ & _ & (m & Hm) & _).
  eapply Forall_impl; [|exact Hm].
  now intros c (_ & _ & H).
Qed.

(** X9.  When the [try] block ends by leaving the attempt loop through its
    condition, exactly three completion calls were made and nothing was
    posted: the user gets no answer and no error message. *)
Theorem exhausted_attempts_are_silent
    (uid prefix : jsstring) (message : Message) (w : W) :
  result (try_block svc uid prefix message w) = inr FallThrough ->
  length (create_calls (trace (try_block svc uid prefix message w))) = 3
  /\ posts (trace (try_block svc uid prefix message w)) = [].
Proof.
  intros H.
  pose proof (try_block_run svc uid prefix message w) as Hrun.
  cbv zeta in Hrun; rewrite H in Hrun.
  destruct (cycle_run_reads svc _ _ _ _ _ Hrun) as (_ & _ & _ & Hfall).
  now apply Hfall.
Qed.

(** X10.  A run issues at most one selection call, for gpt-5-nano with the
    format name model_schema, whose user turn starts with the text block of
    the triggering message; without that call the run issues no history
    fetch and no completion call. *)
Theorem selection_comes_first (cu : User) (message : Message) (w : W) :
  let t := trace (MessageCreate svc (Some cu) message w) in
  (select_calls t = [] /\ create_calls t = [] /\ fetches t = [])
  \/ exists parts,
       select_calls t = [selection_request parts]
       /\ hd_error parts
          = Some (input_text
                    (buildTextFromDiscordMessage svc message
                       (mention_prefix cu))).
Proof.
  intros t; subst t.
  destruct (MessageCreate_reads (Some cu) message w)
    as [H|(cu' & r & body & Hcu & Hbody & -> & -> & ->)];
    [now left|].
  injection Hcu as <-.
  destruct (cycle_run_reads svc _ _ _ _ _ Hbody) as (Hsel & _).
  destruct Hsel as [H|(parts & rest & H1 & H2 & _)];
    [now left|right; now exists parts].
Qed.

End HandlerRequests.

(** ** Intake, failures and expansion *)

Section Edges.
Context {W : Type} (svc : Services W).

(** X11.  The handler does nothing beyond looking up the referenced message
    unless the author is not a bot, the client user is known, and the
    message is addressed to the bot: its content starts with the mention
    prefix, or it is a reply whose referenced message was found and was
    written by the bot. *)
Theorem acts_only_when_addressed
    (client_user : option User) (message : Message) (w : W) (ev : Event) :
  In ev (trace (MessageCreate svc client_user message w)) ->
  ~ is_lookup ev ->
  bot (author message) = false
  /\ exists cu,
       client_user = Some cu
       /\ (startsWith (content message) (mention_prefix cu) = true
           \/ exists target w',
                reference message <> None
                /\ fetchReference svc message w = (inr (Some target), w')
                /\ user_id (author target) = user_id cu).
Proof.
  unfold MessageCreate.
  destruct (bot (author message)); [intros []|].
  destruct client_user as [cu|]; [|intros []].
  cbv zeta; fold (mention_prefix cu).
  intros Hev Hnot; split; [reflexivity|].
  exists cu; split; [reflexivity|].
  destruct (startsWith (content message) (mention_prefix cu)) eqn:Hs;
    [now left|right].
  revert Hev; unfold addressed; rewrite Hs.
  destruct (reference message) as [r|] eqn:Hr; [|intros []].
  unfold bind, call, ret.
  destruct (fetchReference svc message w) as [[err|[target|]] w'] eqn:Hf.
  - intros [<-|[]]; now destruct Hnot.
  - destruct (str_eqb (user_id (author target)) (user_id cu)) eqn:Heq.
    + intros _; exists target, w'.
      apply str_eqb_eq in Heq; repeat split; [discriminate|exact Heq].
    + intros [<-|[]]; now destruct Hnot.
  - intros [<-|[]]; now destruct Hnot.
Qed.

(** X12.  When the completion call of an attempt yields an error, the
    attempt replies with the message of that error and the handler returns:
    no further attempt is made. *)
Theorem completion_error_aborts
    (fuel attempt : nat) (uid prefix : jsstring) (message : Message)
    (sel : SelectResponse) (history : list Message) (w w1 w2 w3 : W)
    (t1 : list Event) (input : list InputTurn) (e : JsError) :
  attempt <= 2 ->
  rethrow (mapM (input_turn svc uid prefix) history) w = (inr input, w1, t1) ->
  responses_create svc (create_request attempt sel message input) w1
  = (inl e, w2) ->
  message_reply svc message (Error.message e) w2 = (inr tt, w3) ->
  attempt_loop svc (S fuel) attempt uid prefix message sel history w
  = (inr Return, w3,
     t1 ++ [EvCreate attempt (create_request attempt sel message input);
            EvReply message (Error.message e)]).
Proof.
  intros Ha Hin Hcreate Hreply.
  cbn [attempt_loop].
  apply Nat.leb_le in Ha; rewrite Ha.
  unfold bind at 1; rewrite Hin; cbv zeta.
  unfold bind at 1, guard, call at 1; rewrite Hcreate.
  unfold bind, call, ret; rewrite Hreply; reflexivity.
Qed.

(** X13.  A message that is a reply, does not start with the mention prefix
    and whose referenced message cannot be fetched makes the handler
    reject with the error of the lookup: the condition stands before the
    [try] block, so nothing is posted. *)
Theorem lookup_rejection_is_unhandled
    (cu : User) (message : Message) (w w1 : W) (target : MessageReference)
    (err : Thrown) :
  bot (author message) = false ->
  startsWith (content message) (mention_prefix cu) = false ->
  reference message = Some target ->
  fetchReference svc message w = (inl err, w1) ->
  MessageCreate svc (Some cu) message w
  = (inl err, w1, [EvFetchReference message]).
Proof.
  intros Hbot Hs Hr Hf.
  unfold MessageCreate; rewrite Hbot; cbv zeta; fold (mention_prefix cu).
  unfold addressed; rewrite Hs, Hr.
  unfold bind, call; rewrite Hf; reflexivity.
Qed.

Lemma start_tool_calls_inr history items : forall w,
  exists ps,
    result (start_tool_calls svc history items w) = inr ps
    /\ first_rejected ps = first_parse_error (JSON_parse_limit svc) items
    /\ length ps = length (filter is_get_messages items).
Proof.
  induction items as [|item items IH]; intros w.
  - exists []; now repeat split.
  - cbn [start_tool_calls first_parse_error filter].
    destruct item as [n args|]; [|apply IH].
    cbn [is_get_messages].
    destruct (str_eqb n (js "get_messages")); [|apply IH].
    destruct (JSON_parse_limit svc args) as [err|v].
    + rewrite result_bind.
      destruct (IH w) as (ps & -> & Hps & Hlen).
      exists (Rejected err :: ps).
      split; [reflexivity|split; [reflexivity|cbn [length]; now rewrite Hlen]].
    + cbv zeta; rewrite result_bind, result_settled, result_bind.
      set (r := result (call _ _ w)).
      destruct (IH (world (settled
                             (call (EvFetch {| limit := v;
                                               before := anchor history |})
                                   (messages_fetch svc
                                      {| limit := v;
                                         before := anchor history |})) w)))
        as (ps & -> & Hps & Hlen).
      exists (Fetched r :: ps).
      split; [reflexivity|split; [exact Hps|cbn [length]; now rewrite Hlen]].
Qed.

(** X14.  When the arguments of a get_messages call of the output do not
    parse, the processing of the tool calls throws the exception of the
    first such call, whatever the fetches of the other calls returned. *)
Theorem parse_failure_aborts_expansion
    (history : list Message) (items : list OutputItem) (w : W) (err : Thrown) :
  first_parse_error (JSON_parse_limit svc) items = Some err ->
  result (process_tool_calls svc history items w) = inl err.
Proof.
  intros H; unfold process_tool_calls; rewrite result_bind.
  destruct (start_tool_calls_inr history items w) as (ps & -> & Hps & _).
  now rewrite Hps, H.
Qed.

Lemma merge_fetched_length (ps : list Pending) : forall history history',
  merge_fetched ps history = inr history' -> length history <= length history'.
Proof.
  induction ps as [|[err|[err|batch]] ps IH]; intros history history' H;
    simpl in H; try discriminate.
  - injection H as <-; lia.
  - apply IH in H.
    unfold merge_history in H.
    rewrite <- (Permutation_length (sort_by_timestamp_perm _)), length_app in H.
    lia.
Qed.

Lemma merge_fetched_sorts (ps : list Pending) (history history' : list Message) :
  ps <> [] ->
  merge_fetched ps history = inr history' ->
  StronglySorted earlier history'.
Proof.
  destruct ps as [|[err|[err|batch]] ps]; intros Hne H; simpl in H;
    try discriminate; [congruence|].
  eapply merge_fetched_sorted; [|exact H].
  apply sort_by_timestamp_sorted.
Qed.

(** X15.  A successful processing of the tool calls never loses an entry of
    the history and never shortens it, no call failed to parse, and when
    the output holds a get_messages call, or the history was sorted before,
    the new history is sorted by ascending creation time. *)
Theorem expansion_keeps_and_sorts
    (history : list Message) (items : list OutputItem) (w : W)
    (history' : list Message) :
  result (process_tool_calls svc history items w) = inr history' ->
  incl history history'
  /\ length history <= length history'
  /\ first_parse_error (JSON_parse_limit svc) items = None
  /\ (existsb is_get_messages items = true \/ StronglySorted earlier history ->
      StronglySorted earlier history').
Proof.
  unfold process_tool_calls; rewrite result_bind.
  destruct (start_tool_calls_inr history items w) as (ps & -> & Hps & Hlen).
  rewrite Hps.
  destruct (first_parse_error (JSON_parse_limit svc) items); [discriminate|].
  destruct (merge_fetched ps history) as [err|h] eqn:Hm; [discriminate|].
  intros H; injection H as <-.
  split; [eapply merge_fetched_incl; exact Hm|].
  split; [eapply merge_fetched_length; exact Hm|].
  split; [reflexivity|].
  intros [Hex|Hs].
  - eapply merge_fetched_sorts; [|exact Hm].
    intros ->.
    apply existsb_exists in Hex as (item & Hin & Hitem).
    assert (Hf : In item (filter is_get_messages items))
      by (apply filter_In; now split).
    destruct (filter is_get_messages items); [destruct Hf|discriminate].
  - eapply merge_fetched_sorted; [exact Hs|exact Hm].
Qed.

End Edges.

(** ** The oldest input mapping against the current one *)

Lemma replace_leading (s pat rep : jsstring) :
  startsWith s pat = true -> replace s pat rep = rep ++ skipn (length pat) s.
Proof. intros H; destruct s; simpl; now rewrite H. Qed.

Lemma replace_absent (s pat rep : jsstring) :
  (forall a b, s <> a ++ pat ++ b) -> replace s pat rep = s.
Proof.
  induction s as [|c s IH]; intros H.
  - simpl; destruct (startsWith [] pat) eqn:Hs; [|reflexivity].
    apply startsWith_split in Hs.
    destruct (H [] (skipn (length pat) [])); exact Hs.
  - simpl; destruct (startsWith (c :: s) pat) eqn:Hs.
    + apply startsWith_split in Hs.
      destruct (H [] (skipn (length pat) (c :: s))); exact Hs.
    + f_equal; apply IH.
      intros a b Hab; apply (H (c :: a) b); simpl; now f_equal.
Qed.

Lemma replace_occurrence (s pat rep : jsstring) :
  (exists a b, s = a ++ pat ++ b /\ replace s pat rep = a ++ rep ++ b)
  \/ replace s pat rep = s.
Proof.
  induction s as [|c s IH].
  - simpl; destruct (startsWith [] pat) eqn:Hs; [|now right].
    left; exists [], (skipn (length pat) []).
    split; [now apply startsWith_split|reflexivity].
  - simpl; destruct (startsWith (c :: s) pat) eqn:Hs.
    + left; exists [], (skipn (length pat) (c :: s)).
      split; [now apply startsWith_split|reflexivity].
    + destruct IH as [(a & b & Hab & Hr)|Hr].
      * left; exists (c :: a), b; simpl; split; now f_equal.
      * right; now f_equal.
Qed.

Section Mappings.
Context {W : Type} (svc : Services W).

(** X16.  The text of a turn in the oldest variant, which deletes the first
    occurrence of the prefix wherever it stands, against the current one:
    the two agree when the prefix does not occur in the content; when the
    content starts with the prefix they differ only by the whitespace that
    the current mapping trims after the prefix; and the oldest mapping
    always yields the content or the content with one occurrence of the
    prefix cut out. *)
Theorem mappings_compared (m : Message) (prefix : jsstring) :
  let header := (js "from: " ++ displayName (author m)) ++ LF
                ++ (js "time: " ++ toISOString svc (createdTimestamp m)) ++ LF in
  ((forall a b, content m <> a ++ prefix ++ b) ->
   Variants.input_text_of svc m prefix
   = buildTextFromDiscordMessage svc m prefix)
  /\ (startsWith (content m) prefix = true ->
      Variants.input_text_of svc m prefix
      = header ++ skipn (length prefix) (content m)
      /\ buildTextFromDiscordMessage svc m prefix
         = header ++ trimStart (skipn (length prefix) (content m)))
  /\ ((exists a b,
         content m = a ++ prefix ++ b
         /\ Variants.input_text_of svc m prefix = header ++ a ++ b)
      \/ Variants.input_text_of svc m prefix = header ++ content m).
Proof.
  intros header; subst header.
  unfold Variants.input_text_of, buildTextFromDiscordMessage, slice_from.
  cbn [join]; rewrite <- !app_assoc.
  split; [|split].
  - intros H; rewrite (replace_absent _ _ _ H).
    destruct (startsWith (content m) prefix) eqn:Hs; [|reflexivity].
    apply startsWith_split in Hs.
    destruct (H [] (skipn (length prefix) (content m))); exact Hs.
  - intros Hs; rewrite Hs, (replace_leading _ _ _ Hs); now split.
  - destruct (replace_occurrence (content m) prefix [])
      as [(a & b & Hab & Hr)|Hr]; rewrite Hr;
      [left; exists a, b; split; [exact Hab|]|right];
      rewrite <- ?app_assoc; reflexivity.
Qed.

End Mappings.

(** ** The handler of [src/unnamed/part_000] *)

Section Part000Properties.
Context {W : Type} (svc : Services W).

Lemma emits_try_catch {A} P (body : @Run.M W Thrown A) handler :
  emits P body -> (forall err, emits P (handler err)) ->
  emits P (try_catch body handler).
Proof.
  intros Hb Hh w; rewrite trace_try_catch.
  apply Forall_app; split; [apply Hb|].
  destruct (result (body w)); [apply Hh|constructor].
Qed.

Lemma emits_reply message text (e : Exit) P :
  P (EvReply message text) ->
  emits P (call (EvReply message text) (message_reply svc message text) ;;
           @ret W Thrown Exit e).
Proof. intros H; apply emits_bind; [now apply emits_call|auto with emits]. Qed.

Lemma part000_emits_attempt_loop fuel :
  forall a uid prefix message sel history input,
    emits no_download_no_send
      (Part000.attempt_loop svc fuel a uid prefix message sel history input).
Proof.
  induction fuel as [|fuel IH]; intros a uid prefix message sel history input;
    cbn [Part000.attempt_loop]; auto with emits.
  destruct (a <=? 2); auto with emits.
  cbv zeta; apply emits_bind; [now apply emits_guard, emits_call|].
  intros [[response|] [error|]]; auto with emits;
    try (now apply emits_reply).
  destruct (negb (existsb is_get_messages (output response)));
    [now apply emits_reply|].
  apply emits_bind; [|intros state; apply IH].
  unfold Part000.process_tool_calls.
  apply emits_bind.
  - eapply emits_weaken; [|apply emits_start_tool_calls]; now intros [].
  - intros ps; destruct (first_rejected ps); auto with emits.
    destruct (Part000.merge_fetched _ _ _ _ _ _); auto with emits.
Qed.

(** X17.  No run of the handler of part_000 downloads an attachment or
    sends a plain message to the channel: everything it posts is a reply to
    the triggering message. *)
Theorem part000_never_downloads_or_sends
    (client_user : option User) (message : Message) (w : W) :
  Forall no_download_no_send
         (trace (Part000.MessageCreate svc client_user message w)).
Proof.
  revert w; fold (emits no_download_no_send
                    (Part000.MessageCreate svc client_user message)).
  unfold Part000.MessageCreate.
  destruct (bot (author message)); auto with emits.
  destruct client_user as [cu|]; auto with emits.
  apply emits_try_catch.
  - unfold Part000.try_block.
    apply emits_bind.
    { eapply emits_weaken; [|apply emits_addressed]; now intros []. }
    intros [|]; auto with emits.
    cbv zeta.
    destruct (length (prompt_of message (mention_prefix cu)) =? 0);
      auto with emits.
    apply emits_bind.
    { unfold Part000.select_model; cbv zeta.
      now apply emits_guard, emits_call. }
    intros [[sr|] [e|]]; auto with emits; try (now apply emits_reply).
    apply emits_bind; [now apply emits_call|].
    intros fetched; apply part000_emits_attempt_loop.
  - intros err; unfold Variants.catch_block; cbv zeta.
    now apply emits_reply.
Qed.

(** X18.  In part_000 an answer is posted whole, in one reply to the
    triggering message, whatever its length: an attempt whose completion
    holds no get_messages call ends with that single reply. *)
Theorem part000_answer_is_one_reply
    (fuel attempt : nat) (uid prefix : jsstring) (message : Message)
    (sel : SelectResponse) (history : list Message) (input : list InputTurn)
    (w w1 w2 : W) (response : Response) :
  attempt <= 2 ->
  responses_create svc (create_request attempt sel message input) w
  = (inr response, w1) ->
  existsb is_get_messages (output response) = false ->
  message_reply svc message (output_text response) w1 = (inr tt, w2) ->
  Part000.attempt_loop svc (S fuel) attempt uid prefix message sel history
                       input w
  = (inr Return, w2,
     [EvCreate attempt (create_request attempt sel message input);
      EvReply message (output_text response)]).
Proof.
  intros Ha Hcreate Hno Hreply.
  cbn [Part000.attempt_loop].
  apply Nat.leb_le in Ha; rewrite Ha; cbv zeta.
  unfold bind at 1, guard, call at 1; rewrite Hcreate.
  rewrite Hno; cbn [negb].
  unfold bind, call, ret; rewrite Hreply; reflexivity.
Qed.

(** X19.  In part_000 the test of the addressee stands inside the [try]
    block: when the referenced message of a reply cannot be fetched, the
    user gets the fixed apology and the handler ends without an error. *)
Theorem part000_lookup_rejection_is_apologised
    (cu : User) (message : Message) (w w1 w2 : W)
    (target : MessageReference) (err : Thrown) :
  bot (author message) = false ->
  startsWith (content message) (mention_prefix cu) = false ->
  reference message = Some target ->
  fetchReference svc message w = (inl err, w1) ->
  message_reply svc message apology w1 = (inr tt, w2) ->
  Part000.MessageCreate svc (Some cu) message w
  = (inr FallThrough, w2,
     [EvFetchReference message; EvReply message apology]).
Proof.
  intros Hbot Hs Hr Hf Hreply.
  unfold Part000.MessageCreate; rewrite Hbot.
  unfold try_catch, Part000.try_block, addressed; rewrite Hs, Hr.
  unfold bind at 1 2, call at 1; rewrite Hf.
  unfold Variants.catch_block; cbv zeta; fold apology.
  unfold bind, call, ret; rewrite Hreply; reflexivity.
Qed.

Lemma part000_merge_fetched_sync uid prefix (ps : list Pending) :
  forall history history' input',
    Part000.merge_fetched svc uid prefix ps history
                          (Part000.input_of svc uid prefix history)
    = inr (history', input') ->
    input' = Part000.input_of svc uid prefix history'
    /\ incl history history'
    /\ (StronglySorted earlier history -> StronglySorted earlier history').
Proof.
  induction ps as [|[err|[err|batch]] ps IH]; intros history history' input' H;
    cbn [Part000.merge_fetched] in H; try discriminate.
  - injection H as <- <-.
    split; [reflexivity|split; [apply incl_refl|auto]].
  - cbv zeta in H.
    destruct (IH _ _ _ H) as (Hi & Hincl & Hs).
    split; [exact Hi|split].
    + eapply incl_tran; [apply merge_history_incl|exact Hincl].
    + intros _; apply Hs, sort_by_timestamp_sorted.
Qed.

Lemma part000_trace_select_model message prefix w :
  trace (Part000.select_model svc message prefix w)
  = [EvSelect (selection_request
                 (Part000.buildPartsFromDiscordMessage svc message prefix))].
Proof.
  unfold Part000.select_model; cbv zeta.
  now rewrite trace_guard, trace_call.
Qed.

Lemma part000_attempt_loop_sync fuel :
  forall a uid prefix message sel history w,
    StronglySorted earlier history -> In message history ->
    Forall (part000_request_ok svc uid prefix message)
      (create_calls
         (trace (Part000.attempt_loop svc fuel a uid prefix message sel history
                   (Part000.input_of svc uid prefix history) w))).
Proof.
  induction fuel as [|fuel IH];
    intros a uid prefix message sel history w Hsorted Hmem;
    cbn [Part000.attempt_loop]; [constructor|].
  destruct (a <=? 2); [|constructor].
  cbv zeta.
  rewrite trace_bind, trace_guard, trace_call, result_guard.
  set (w1 := world _).
  rewrite create_calls_app, create_calls_cons; cbn [create_calls flat_map app].
  constructor; [now exists history|].
  destruct (result (call _ _ w)) as [e|response].
  { rewrite trace_reply_return; constructor. }
  destruct (negb (existsb is_get_messages (output response)));
    [rewrite trace_reply_return; constructor|].
  rewrite trace_bind, create_calls_app.
  assert (Hp : create_calls
                 (trace (Part000.process_tool_calls svc uid prefix history
                           (Part000.input_of svc uid prefix history)
                           (output response) w1)) = []).
  { unfold Part000.process_tool_calls.
    rewrite trace_bind, create_calls_app.
    rewrite (fetches_no_calls _ (emits_start_tool_calls svc _ _ w1)).
    destruct (result _) as [err|ps]; [reflexivity|].
    destruct (first_rejected ps); [reflexivity|].
    destruct (Part000.merge_fetched _ _ _ _ _ _); reflexivity. }
  rewrite Hp; cbn [app].
  destruct (result (Part000.process_tool_calls _ _ _ _ _ _ _))
    as [err|[history' input']] eqn:Hr; [constructor|].
  cbn [fst snd].
  unfold Part000.process_tool_calls in Hr; rewrite result_bind in Hr.
  destruct (result (start_tool_calls _ _ _ _)) as [err|ps]; [discriminate|].
  destruct (first_rejected ps); [discriminate|].
  destruct (Part000.merge_fetched svc uid prefix ps history _)
    as [err|state] eqn:Hm; [discriminate|].
  injection Hr as ->.
  destruct (part000_merge_fetched_sync _ _ _ _ _ _ Hm) as (-> & Hincl & Hs).
  apply IH; auto.
Qed.

(** X20.  In part_000, where [input] is a variable updated beside
    [history], the two never drift apart: the input of every completion
    request is the system preamble followed by the mapping of a history that
    is sorted by ascending creation time and contains the triggering
    message. *)
Theorem part000_input_tracks_history
    (cu : User) (message : Message) (w : W) :
  Forall (fun c =>
            exists h,
              StronglySorted earlier h /\ In message h
              /\ create_input (snd c)
                 = preamble_turn message
                   :: Part000.input_of svc (user_id cu) (mention_prefix cu) h)
         (create_calls (trace (Part000.MessageCreate svc (Some cu) message w))).
Proof.
  change (Forall (part000_request_ok svc (user_id cu) (mention_prefix cu) message)
            (create_calls
               (trace (Part000.MessageCreate svc (Some cu) message w)))).
  unfold Part000.MessageCreate.
  destruct (bot (author message)); [constructor|].
  rewrite trace_try_catch, create_calls_app.
  assert (Hcatch : forall err w',
             create_calls (trace (Variants.catch_block svc message err w'))
             = []).
  { intros err w'; unfold Variants.catch_block; cbv zeta.
    now rewrite trace_reply_return. }
  replace (create_calls match result _ with inl err => _ | inr _ => [] end)
    with (@nil (nat * CreateRequest))
    by (destruct (result _); [now rewrite Hcatch|reflexivity]).
  rewrite app_nil_r.
  unfold Part000.try_block.
  rewrite trace_bind, create_calls_app.
  rewrite (lookups_no_calls _ (emits_addressed svc _ _ message w)).
  set (w1 := world _); cbn [app].
  destruct (result (addressed _ _ _ _ w)) as [err|[|]]; try constructor.
  cbv zeta.
  destruct (length (prompt_of message (mention_prefix cu)) =? 0);
    [constructor|].
  rewrite trace_bind, part000_trace_select_model; read_trace.
  set (w2 := world _).
  destruct (result (Part000.select_model _ _ _ w1)) as [err|[[sr|] [e|]]];
    try constructor; try (rewrite trace_reply_return; constructor).
  rewrite trace_bind, trace_call; read_trace.
  destruct (result (call _ _ w2)) as [err|fetched]; [constructor|].
  cbv zeta.
  destruct (seed_history_ready message fetched) as [Hsorted Hmem].
  now apply part000_attempt_loop_sync.
Qed.

End Part000Properties.

(** ** Further concrete runs *)

Section MoreRuns.
Import Reference Examples Scenarios.

Lemma buildParts_at_most_ten_witness :
  exists rest,
    result (buildPartsFromDiscordMessage online album (js "<@42>") idle)
    = inr (input_text (buildTextFromDiscordMessage online album (js "<@42>"))
           :: rest)
    /\ length rest = 10.
Proof.
  pose (parts := match result (buildPartsFromDiscordMessage online album
                                 (js "<@42>") idle) with
                 | inr p => p
                 | inl _ => []
                 end).
  destruct (buildParts_at_most_ten online album (js "<@42>") idle parts)
    as (rest & Hparts & Hlen & _); [vm_compute; reflexivity|].
  exists rest; split; [|exact Hlen].
  rewrite <- Hparts; vm_compute; reflexivity.
Defined.

Lemma buildParts_classifies_witness :
  let run := buildPartsFromDiscordMessage online album (js "<@42>") idle in
  trace run = [EvHttpGet (js "https://cdn.example/notes.txt")]
  /\ exists parts, result run = inr parts /\ length (tl parts) = 10.
Proof.
  intros run.
  destruct (buildParts_classifies online album (js "<@42>") idle) as [Ht H].
  split; [subst run; rewrite Ht; vm_compute; reflexivity|].
  pose (parts := match result run with
                 | inr p => p
                 | inl _ => []
                 end).
  assert (Hparts : result run = inr parts) by (vm_compute; reflexivity).
  exists parts; split; [exact Hparts|].
  rewrite <- (Forall2_length (H parts Hparts)).
  vm_compute; reflexivity.
Defined.

(** The downloads of a message are started together: where every download
    fails, both are still requested, and the build fails with their
    error. *)
Example failed_download_leaves_the_other_requested :
  let run := buildPartsFromDiscordMessage services two_notes (js "<@42>")
               idle in
  result run = inl (error (js "Unable to connect."))
  /\ trace run = [EvHttpGet (js "https://cdn.example/notes.txt");
                  EvHttpGet (js "https://cdn.example/more.txt")].
Proof. split; vm_compute; reflexivity. Qed.

Lemma input_follows_history_witness :
  exists input,
    result (mapM (input_turn services (js "42") (js "<@42>")) seed_history idle)
    = inr input
    /\ length input = 6.
Proof.
  pose (input := match result (mapM (input_turn services (js "42") (js "<@42>"))
                                 seed_history idle) with
                 | inr i => i
                 | inl _ => []
                 end).
  destruct (input_follows_history services (js "42") (js "<@42>") seed_history
              idle input) as [_ Hlen]; [vm_compute; reflexivity|].
  exists input; split; [vm_compute; reflexivity|exact Hlen].
Defined.

Lemma exhausted_attempts_are_silent_witness :
  let w := world_of trigger (selected gpt_5_mini)
                    [asks (arguments_of_limit (js "1"));
                     asks (arguments_of_limit (js "2"));
                     asks (arguments_of_limit (js "3"))] in
  length (create_calls (trace (try_block services (js "42") (js "<@42>")
                                 trigger w))) = 3
  /\ posts (trace (try_block services (js "42") (js "<@42>") trigger w)) = [].
Proof.
  intros w.
  apply (exhausted_attempts_are_silent services (js "42") (js "<@42>")
           trigger w).
  vm_compute; reflexivity.
Defined.

Lemma acts_only_when_addressed_witness :
  let w := world_of trigger (selected gpt_5_mini) [answer (js "ok")] in
  bot (author trigger) = false
  /\ exists cu,
       Some bot_user = Some cu
       /\ (startsWith (content trigger) (mention_prefix cu) = true
           \/ exists target w',
                reference trigger <> None
                /\ fetchReference services trigger w = (inr (Some target), w')
                /\ user_id (author target) = user_id cu).
Proof.
  intros w.
  apply (acts_only_when_addressed services (Some bot_user) trigger w
           (EvReply trigger (js "ok"))).
  - vm_compute; do 3 right; left; reflexivity.
  - intros [].
Defined.

Lemma completion_error_aborts_witness :
  let w := world_of trigger (selected gpt_5_mini) [inl quota] in
  posts (trace (attempt_loop services 4 0 (js "42") (js "<@42>") trigger
                  {| output_parsed := Some gpt_5_mini |} seed_history w))
  = [Error.message quota].
Proof.
  intros w.
  pose (input := match result (mapM (input_turn services (js "42") (js "<@42>"))
                                 seed_history w) with
                 | inr i => i
                 | inl _ => []
                 end).
  rewrite (completion_error_aborts services 3 0 (js "42") (js "<@42>") trigger
             {| output_parsed := Some gpt_5_mini |} seed_history
             w w idle idle [] input quota);
    [reflexivity|lia|vm_compute; reflexivity..].
Defined.

Lemma lookup_rejection_is_unhandled_witness :
  let w := world_of orphan_reply (selected gpt_5_mini) [answer (js "ok")] in
  MessageCreate lost (Some bot_user) orphan_reply w
  = (inl (ThrownError (error (js "Unknown Message"))), w,
     [EvFetchReference orphan_reply]).
Proof.
  intros w.
  apply (lookup_rejection_is_unhandled lost bot_user orphan_reply w w
           {| messageId := Some (js "m9") |}); reflexivity.
Defined.

Lemma parse_failure_aborts_expansion_witness :
  result (process_tool_calls services seed_history
            [function_call (js "get_messages") (arguments_of_limit (js "1"));
             function_call (js "get_messages") (js "oops")] idle)
  = inl (ThrownError oops_error).
Proof.
  apply (parse_failure_aborts_expansion services).
  vm_compute; reflexivity.
Defined.

Lemma expansion_keeps_and_sorts_witness :
  exists history',
    result (process_tool_calls services seed_history one_more idle)
    = inr history'
    /\ incl seed_history history'
    /\ StronglySorted earlier history'.
Proof.
  pose (h := match result (process_tool_calls services seed_history one_more
                             idle) with
             | inr h => h
             | inl _ => []
             end).
  destruct (expansion_keeps_and_sorts services seed_history one_more idle h)
    as (Hincl & _ & _ & Hsorted); [vm_compute; reflexivity|].
  exists h; split; [vm_compute; reflexivity|].
  split; [exact Hincl|apply Hsorted; left; reflexivity].
Defined.

Lemma mappings_compared_witness :
  exists header,
    Variants.input_text_of services trigger (js "<@42>")
    = header ++ js " and then?"
    /\ buildTextFromDiscordMessage services trigger (js "<@42>")
       = header ++ js "and then?".
Proof.
  destruct (mappings_compared services trigger (js "<@42>")) as (_ & H & _).
  destruct H as [H1 H2]; [reflexivity|].
  eexists; split; [exact H1|exact H2].
Defined.

Lemma part000_answer_is_one_reply_witness :
  let w := world_of trigger (selected gpt_5_mini) [answer full_text] in
  posts (trace (Part000.attempt_loop services 4 0 (js "42") (js "<@42>")
                  trigger {| output_parsed := Some gpt_5_mini |} seed_history
                  (Part000.input_of services (js "42") (js "<@42>")
                     seed_history) w))
  = [full_text].
Proof.
  intros w.
  rewrite (part000_answer_is_one_reply services 3 0 (js "42") (js "<@42>")
             trigger {| output_parsed := Some gpt_5_mini |} seed_history
             (Part000.input_of services (js "42") (js "<@42>") seed_history)
             w idle idle {| output := [other_item]; output_text := full_text |});
    [reflexivity|lia|reflexivity..].
Defined.

Lemma part000_lookup_rejection_is_apologised_witness :
  let w := world_of orphan_reply (selected gpt_5_mini) [answer (js "ok")] in
  Part000.MessageCreate lost (Some bot_user) orphan_reply w
  = (inr FallThrough, w, [EvFetchReference orphan_reply;
                          EvReply orphan_reply apology]).
Proof.
  intros w.
  apply (part000_lookup_rejection_is_apologised lost bot_user orphan_reply
           w w w {| messageId := Some (js "m9") |}
           (ThrownError (error (js "Unknown Message")))); reflexivity.
Defined.

(** The seed fetch of a message whose reference names no message has no
    anchor: it returns the newest messages of the channel, the triggering
    one among them. *)
Example unanchored_seed_fetch :
  let w := world_of bare_reference (selected gpt_5_mini) [answer (js "ok")] in
  fetches (trace (MessageCreate services (Some bot_user) bare_reference w))
  = [{| limit := JNumber 5; before := None |}].
Proof. vm_compute; reflexivity. Qed.

(** The same completions in the two handlers: the current one posts an
    answer of 4500 code units in three messages; part_000 posts it in one,
    which the gateway refuses, and then posts the apology. *)
Example chunked_against_whole :
  let w := world_of trigger (selected gpt_5_mini) [answer long_text] in
  map (@length code_unit)
      (posts (trace (MessageCreate services (Some bot_user) trigger w)))
  = [2000; 2000; 500]
  /\ posts (trace (Part000.MessageCreate services (Some bot_user) trigger w))
     = [long_text; apology].
Proof. split; vm_compute; reflexivity. Qed.

End MoreRuns.

(** ** The two ways out of the selection *)

Lemma selection_quiet (t : list Event) :
  Forall is_selection t ->
  create_calls t = [] /\ fetches t = [] /\ posts t = [].
Proof.
  intros H; repeat split;
    (eapply flat_map_none; [|exact H]); now intros [].
Qed.

Section Selection.
Context {W : Type} (svc : Services W).

(** C4, as amended.  When the guarded selection call yields an error, the
    cycle replies with the message of that error, verbatim, and ends:
    no completion call is issued and the selection call is not repeated.
    When the selection call succeeds without a parsed value, the cycle goes
    on: the seed fetch is issued, the first completion call follows once
    the fetch has returned and the input is built, and every completion
    request of the run names the first model of the list. *)
Theorem selection_failure_aborts
    (cu : User) (message : Message) (w w1 : W) (t0 : list Event) :
  let prefix := js "<@" ++ user_id cu ++ js ">" in
  let run := MessageCreate svc (Some cu) message w in
  bot (author message) = false ->
  addressed svc (user_id cu) prefix message w = (inr true, w1, t0) ->
  prompt_of message prefix <> [] ->
  (forall sro e w2 w3 t1,
      select_model svc message prefix w1 = (inr (sro, Some e), w2, t1) ->
      message_reply svc message (Error.message e) w2 = (inr tt, w3) ->
      run = (inr Return, w3, t0 ++ t1 ++ [EvReply message (Error.message e)])
      /\ posts (trace run) = [Error.message e]
      /\ create_calls (trace run) = []
      /\ length (select_calls (trace run)) <= 1)
  /\ (forall sel w2 t1,
        select_model svc message prefix w1 = (inr (Some sel, None), w2, t1) ->
        output_parsed sel = None ->
        Forall (fun c => create_model (snd c) = gpt_5_nano)
               (create_calls (trace run))
        /\ hd_error (fetches (trace run)) = Some (seed_options message)
        /\ forall fetched w3 input w4 t2,
             messages_fetch svc (seed_options message) w2 = (inr fetched, w3) ->
             rethrow (mapM (input_turn svc (user_id cu) prefix)
                        (sort_by_timestamp (message :: fetched))) w3
             = (inr input, w4, t2) ->
             hd_error (create_calls (trace run))
             = Some (0, create_request 0 sel message input)
             /\ create_model (create_request 0 sel message input) = gpt_5_nano).
Proof.
  intros prefix run Hbot Haddr Hp.
  assert (H0 : Forall is_lookup t0).
  { pose proof (emits_addressed svc (user_id cu) prefix message w) as H.
    now rewrite Haddr in H. }
  split.
  - intros sro e w2 w3 t1 Hsel Hreply.
    assert (Hrun : run = (inr Return, w3,
                          t0 ++ t1 ++ [EvReply message (Error.message e)])).
    { subst run; unfold MessageCreate; rewrite Hbot; cbv zeta.
      fold prefix; unfold bind at 1; rewrite Haddr.
      unfold try_catch.
      now rewrite (try_block_selection_error svc _ _ _ _ _ _ _ _ _
                     Hp Hsel Hreply). }
    assert (H1 : Forall is_selection t1).
    { pose proof (emits_select_model svc message prefix w1) as H.
      now rewrite Hsel in H. }
    assert (H1' : length (select_calls t1) <= 1).
    { pose proof (select_model_once svc message prefix w1) as H.
      now rewrite Hsel in H. }
    rewrite Hrun; unfold trace; cbn [snd].
    repeat split.
    + rewrite !posts_app, (lookups_no_posts _ H0), (selection_no_posts _ H1).
      reflexivity.
    + rewrite !create_calls_app, (lookups_no_calls _ H0),
        (selection_no_calls _ H1).
      reflexivity.
    + rewrite !select_calls_app, (select_calls_none t0 is_lookup)
        by (auto; now intros []).
      cbn [app select_calls flat_map]; rewrite app_nil_r; exact H1'.
  - intros sel w2 t1 Hsel Hnone.
    assert (H1 : Forall is_selection t1).
    { pose proof (emits_select_model svc message prefix w1) as H.
      now rewrite Hsel in H. }
    destruct (lookups_quiet t0 H0) as (C0 & _ & F0 & _).
    destruct (selection_quiet t1 H1) as (C1 & F1 & _).
    assert (Hmodel : selected_model sel = gpt_5_nano)
      by (unfold selected_model; now rewrite Hnone).
    set (fetching := call (EvFetch (seed_options message))
                          (messages_fetch svc (seed_options message))).
    set (rest := match result (fetching w2) with
                 | inl _ => []
                 | inr fetched =>
                     trace (attempt_loop svc 4 0 (user_id cu) prefix message
                              sel (sort_by_timestamp (message :: fetched))
                              (world (fetching w2)))
                 end).
    assert (Hbody : trace (try_block svc (user_id cu) prefix message w1)
                    = t1 ++ EvFetch (seed_options message) :: rest).
    { unfold try_block; cbv zeta.
      destruct (prompt_of message prefix) as [|c p]; [congruence|].
      cbn [length Nat.eqb].
      rewrite (bind_inr _ _ _ _ _ _ Hsel); unfold trace at 1; cbn [snd].
      now rewrite trace_bind, trace_call. }
    assert (Hrun : exists tail,
               trace run
               = t0 ++ (t1 ++ EvFetch (seed_options message) :: rest) ++ tail
               /\ create_calls tail = [] /\ fetches tail = []).
    { subst run; unfold MessageCreate; rewrite Hbot; cbv zeta; fold prefix.
      rewrite (bind_inr _ _ _ _ _ _ Haddr); unfold trace at 1; cbn [snd].
      rewrite trace_try_catch, Hbody.
      eexists; split; [reflexivity|].
      destruct (result (try_block svc (user_id cu) prefix message w1));
        [rewrite trace_catch_block|]; now split. }
    destruct Hrun as (tail & Hrun & Ctail & Ftail).
    assert (Hcalls : create_calls (trace run) = create_calls rest)
      by (rewrite Hrun; read_trace; now rewrite C0, C1, Ctail, app_nil_r).
    split; [|split].
    + rewrite Hcalls; subst rest.
      destruct (result (fetching w2)) as [err|fetched]; [constructor|].
      destruct (seed_history_ready message fetched) as [Hsorted Hmem].
      pose proof (attempt_loop_run svc (user_id cu) prefix message sel 4 0
                    (sort_by_timestamp (message :: fetched))
                    (world (fetching w2))) as Hloop.
      cbv zeta in Hloop.
      destruct (attempt_run_reads svc _ _ _ _ _ _ _ _
                  (Hloop ltac:(lia) ltac:(lia)) Hsorted Hmem)
        as (_ & _ & Hall & _).
      eapply Forall_impl; [|exact Hall].
      intros c (Hc & _); now rewrite Hc.
    + rewrite Hrun; read_trace; now rewrite F0, F1.
    + intros fetched w3 input w4 t2 Hfetch Hin.
      split; [|exact Hmodel].
      rewrite Hcalls; subst rest fetching.
      unfold call at 1 2, result at 1, world at 1; rewrite Hfetch; cbn [fst snd].
      cbn [attempt_loop Nat.leb].
      rewrite (bind_inr _ _ _ _ _ _ Hin); unfold trace at 1; cbn [snd].
      cbv zeta; rewrite trace_bind, trace_guard, trace_call.
      assert (H2 : Forall is_download t2).
      { pose proof (emits_rethrow is_download _
                      (emits_mapM is_download _
                         (sort_by_timestamp (message :: fetched))
                         (emits_input_turn svc (user_id cu) prefix)) w3) as H.
        now rewrite Hin in H. }
      read_trace; now rewrite (downloads_no_calls _ H2).
Qed.

End Selection.

Section SelectionRuns.
Import Reference Examples.

Lemma selection_failure_aborts_witness :
  let failure := error (js "401 Incorrect API key provided") in
  let sel := {| output_parsed := None |} in
  let refused := MessageCreate services (Some bot_user) trigger
                   (world_of trigger (inl failure) [answer (js "ok")]) in
  let missing := MessageCreate services (Some bot_user) trigger
                   (world_of trigger (inr sel) [answer (js "ok")]) in
  (posts (trace refused) = [js "401 Incorrect API key provided"]
   /\ create_calls (trace refused) = []
   /\ length (select_calls (trace refused)) <= 1)
  /\ Forall (fun c => create_model (snd c) = gpt_5_nano)
            (create_calls (trace missing))
  /\ exists input,
       hd_error (create_calls (trace missing))
       = Some (0, create_request 0 sel trigger input).
Proof.
  intros failure sel refused missing.
  split.
  - pose (w := world_of trigger (inl failure) [answer (js "ok")]).
    destruct (selection_failure_aborts services bot_user trigger w w [])
      as [Herr _]; [reflexivity|reflexivity|vm_compute; discriminate|].
    destruct (Herr None failure w w
                (trace (select_model services trigger (js "<@42>") w)))
      as (_ & Hposts & Hcalls & Honce); [reflexivity|reflexivity|].
    repeat split; assumption.
  - pose (w := world_of trigger (inr sel) [answer (js "ok")]).
    destruct (selection_failure_aborts services bot_user trigger w w [])
      as [_ Hgo]; [reflexivity|reflexivity|vm_compute; discriminate|].
    destruct (Hgo sel w
                (trace (select_model services trigger (js "<@42>") w)))
      as (Hall & _ & Hfirst); [reflexivity|reflexivity|].
    split; [exact Hall|].
    pose (turns := rethrow (mapM (input_turn services (js "42") (js "<@42>"))
                              seed_history) w).
    exists (match result turns with inr i => i | inl _ => [] end).
    apply (Hfirst [m5; m4; m3; m2; m1] w _ w []);
      vm_compute; reflexivity.
Defined.

End SelectionRuns.

(** ** The parser and the clock of the reference world *)

Module ParserBound.
Import Reference.

Lemma skip_space_length (s : jsstring) : length (skip_space s) <= length s.
Proof.
  induction s as [|c s IH]; cbn [skip_space]; [lia|].
  destruct (is_json_space c); cbn [length] in *; lia.
Qed.

Lemma skip_space_cons (s r : jsstring) (c : code_unit) :
  skip_space s = c :: r -> length r < length s.
Proof.
  intros H; pose proof (skip_space_length s) as Hl.
  rewrite H in Hl; cbn [length] in Hl; lia.
Qed.

Lemma string_literal_length (s : jsstring) :
  forall acc text r,
    string_literal s acc = inr (text, r) -> length r < length s.
Proof.
  induction s as [s IH] using (well_founded_induction
                                 (Wf_nat.well_founded_ltof _ (@length _))).
  unfold Wf_nat.ltof in IH.
  intros acc text r; destruct s as [|c s]; cbn [string_literal];
    [discriminate|].
  destruct (c =? 34)%N; [intros H; injection H as _ <-; cbn; lia|].
  destruct (c =? 92)%N.
  - destruct s as [|e r1]; [discriminate|].
    destruct (e =? 117)%N.
    + destruct r1 as [|a [|b [|c' [|d r2]]]]; try discriminate.
      destruct (hex_digit a), (hex_digit b), (hex_digit c'), (hex_digit d);
        try discriminate.
      intros H; apply IH in H; cbn [length] in *; lia.
    + destruct (escape e); [|discriminate].
      intros H; apply IH in H; cbn [length] in *; lia.
  - destruct (c <? 32)%N; [discriminate|].
    intros H; apply IH in H; cbn [length] in *; lia.
Qed.

Lemma digits_length (s : jsstring) :
  forall acc count n k r, digits s acc count = (n, k, r) ->
                          length r <= length s.
Proof.
  induction s as [|c s IH]; intros acc count n k r; cbn [digits].
  - intros H; injection H as _ _ <-; lia.
  - destruct (is_digit c).
    + intros H; apply IH in H; cbn [length]; lia.
    + intros H; injection H as _ _ <-; lia.
Qed.

Lemma number_literal_length (s : jsstring) (v : JsValue) (r : jsstring) :
  number_literal s = inr (v, r) -> length r < length s.
Proof.
  unfold number_literal.
  set (signed := match s with
                 | c :: r0 => if (c =? 45)%N then (true, r0) else (false, s)
                 | [] => (false, s)
                 end).
  assert (Hs : length (snd signed) <= length s).
  { subst signed; destruct s as [|c r0]; [cbn; lia|].
    destruct (c =? 45)%N; cbn; lia. }
  destruct signed as [negative s1]; cbn [snd] in Hs.
  destruct s1 as [|c r0]; [discriminate|].
  destruct (is_digit c) eqn:Hd; cbn [negb]; [|discriminate].
  assert (H2 : forall i k s2,
             (if (c =? 48)%N then (0%Z, 1%Z, r0) else digits (c :: r0) 0 0)
             = (i, k, s2) -> length s2 <= length r0).
  { intros i k s2; destruct (c =? 48)%N.
    - intros H; injection H as _ _ <-; lia.
    - cbn [digits]; rewrite Hd; apply digits_length. }
  destruct (if (c =? 48)%N then _ else _) as [[int_part int_count] s2].
  specialize (H2 _ _ _ eq_refl).
  set (fraction := match s2 with
                   | p :: r2 => _
                   | [] => _
                   end).
  assert (H3 : forall m k s3, fraction = inr (m, k, s3) ->
                              length s3 <= length s2).
  { subst fraction; intros m k s3; destruct s2 as [|p r2].
    - intros H; injection H as _ _ <-; lia.
    - destruct (p =? 46)%N.
      + destruct (digits r2 int_part 0) as [[m' n'] s3'] eqn:Hg.
        apply digits_length in Hg.
        destruct (n' =? 0)%Z; [discriminate|].
        intros H; injection H as _ _ <-; cbn [length]; lia.
      + intros H; injection H as _ _ <-; lia. }
  destruct fraction as [e|[[mantissa frac_count] s3]]; [discriminate|].
  specialize (H3 _ _ _ eq_refl).
  set (exponent := match s3 with
                   | x :: r3 => _
                   | [] => _
                   end).
  assert (H4 : forall x10 s4, exponent = inr (x10, s4) ->
                              length s4 <= length s3).
  { subst exponent; intros x10 s4; destruct s3 as [|x r3].
    - intros H; injection H as _ <-; lia.
    - destruct ((x =? 101) || (x =? 69))%N.
      + set (sign := match r3 with
                     | g :: r5 => _
                     | [] => _
                     end).
        assert (H5 : length (snd sign) <= length r3).
        { subst sign; destruct r3 as [|g r5]; [cbn; lia|].
          destruct (g =? 45)%N; [cbn; lia|].
          destruct (g =? 43)%N; cbn; lia. }
        destruct sign as [minus r4]; cbn [snd] in H5.
        destruct (digits r4 0 0) as [[x10' n'] s4'] eqn:Hg.
        apply digits_length in Hg.
        destruct (n' =? 0)%Z; [discriminate|].
        intros H; injection H as _ <-; cbn [length]; lia.
      + intros H; injection H as _ <-; lia. }
  destruct exponent as [e|[x10 s4]]; [discriminate|].
  specialize (H4 _ _ eq_refl).
  intros H; injection H as _ <-.
  cbn [length] in *; lia.
Qed.

Lemma literal_length (s : jsstring) (c : code_unit) (r : jsstring) (n : nat) :
  skip_space s = c :: r -> 0 < n -> length (skipn n (c :: r)) < length s.
Proof.
  intros Hs Hn; pose proof (skip_space_length s) as Hl.
  rewrite Hs in Hl; rewrite length_skipn; cbn [length] in *; lia.
Qed.

Section Steps.
Variables (value1 value2 : jsstring -> Parsed).
Variables (members1 members2 : jsstring -> JsValue -> Parsed).
Variables (elements1 elements2 : jsstring -> Parsed).

Hypothesis value_shrinks :
  forall s v l r, value1 s = inr (v, l, r) -> length r < length s.
Hypothesis members_shrinks :
  forall s found v l r,
    members1 s found = inr (v, l, r) -> length r < length s.
Hypothesis elements_shrinks :
  forall s v l r, elements1 s = inr (v, l, r) -> length r < length s.

Lemma value_step_length s v l r :
  value_step members1 elements1 s = inr (v, l, r) -> length r < length s.
Proof.
  unfold value_step.
  destruct (skip_space s) as [|c r0] eqn:Hs; [discriminate|].
  pose proof (skip_space_cons _ _ _ Hs) as Hr0.
  destruct (c =? 123)%N.
  { destruct (skip_space r0) as [|c1 r1] eqn:H1; [discriminate|].
    apply skip_space_cons in H1.
    destruct (c1 =? 125)%N.
    - intros H; injection H as _ _ <-; lia.
    - intros H; apply members_shrinks in H; lia. }
  destruct (c =? 91)%N.
  { destruct (skip_space r0) as [|c1 r1] eqn:H1; [discriminate|].
    apply skip_space_cons in H1.
    destruct (c1 =? 93)%N.
    - intros H; injection H as _ _ <-; lia.
    - intros H; apply elements_shrinks in H; lia. }
  destruct (c =? 34)%N.
  { destruct (string_literal r0 []) as [e|[text r1]] eqn:H1; [discriminate|].
    apply string_literal_length in H1.
    intros H; injection H as _ _ <-; lia. }
  destruct ((c =? 45)%N || is_digit c).
  { destruct (number_literal (c :: r0)) as [e|[v1 r1]] eqn:H1;
      [discriminate|].
    apply number_literal_length in H1.
    pose proof (skip_space_length s) as Hl; rewrite Hs in Hl.
    intros H; injection H as _ _ <-; lia. }
  destruct (startsWith (c :: r0) (js "true")).
  { intros H; injection H as _ _ <-.
    apply (literal_length s c r0 4 Hs); lia. }
  destruct (startsWith (c :: r0) (js "false")).
  { intros H; injection H as _ _ <-.
    apply (literal_length s c r0 5 Hs); lia. }
  destruct (startsWith (c :: r0) (js "null")); [|discriminate].
  intros H; injection H as _ _ <-.
  apply (literal_length s c r0 4 Hs); lia.
Qed.

Lemma members_step_length s found v l r :
  members_step value1 members1 s found = inr (v, l, r) ->
  length r < length s.
Proof.
  unfold members_step.
  destruct (skip_space s) as [|c r0] eqn:Hs; [discriminate|].
  apply skip_space_cons in Hs.
  destruct (c =? 34)%N; cbn [negb]; [|discriminate].
  destruct (string_literal r0 []) as [e|[key r1]] eqn:H1; [discriminate|].
  apply string_literal_length in H1.
  destruct (skip_space r1) as [|c2 r2] eqn:H2; [discriminate|].
  apply skip_space_cons in H2.
  destruct (c2 =? 58)%N; cbn [negb]; [|discriminate].
  destruct (value1 r2) as [e|[[v3 l3] r3]] eqn:H3; [discriminate|].
  apply value_shrinks in H3.
  destruct (skip_space r3) as [|c4 r4] eqn:H4; [discriminate|].
  apply skip_space_cons in H4.
  destruct (c4 =? 44)%N; [intros H; apply members_shrinks in H; lia|].
  destruct (c4 =? 125)%N; [|discriminate].
  intros H; injection H as _ _ <-; lia.
Qed.

Lemma elements_step_length s v l r :
  elements_step value1 elements1 s = inr (v, l, r) -> length r < length s.
Proof.
  unfold elements_step.
  destruct (value1 s) as [e|[[v1 l1] r1]] eqn:H1; [discriminate|].
  apply value_shrinks in H1.
  destruct (skip_space r1) as [|c2 r2] eqn:H2; [discriminate|].
  apply skip_space_cons in H2.
  destruct (c2 =? 44)%N; [intros H; apply elements_shrinks in H; lia|].
  destruct (c2 =? 93)%N; [|discriminate].
  intros H; injection H as _ _ <-; lia.
Qed.

(** A level gives the same result with readers that agree on the shorter
    texts. *)
Lemma value_step_agrees s :
  (forall r found, length r < length s -> members1 r found = members2 r found) ->
  (forall r, length r < length s -> elements1 r = elements2 r) ->
  value_step members1 elements1 s = value_step members2 elements2 s.
Proof.
  intros Hm He; unfold value_step.
  destruct (skip_space s) as [|c r0] eqn:Hs; [reflexivity|].
  apply skip_space_cons in Hs.
  destruct (c =? 123)%N.
  { destruct (skip_space r0) as [|c1 r1]; [reflexivity|].
    destruct (c1 =? 125)%N; [reflexivity|now apply Hm]. }
  destruct (c =? 91)%N; [|reflexivity].
  destruct (skip_space r0) as [|c1 r1]; [reflexivity|].
  destruct (c1 =? 93)%N; [reflexivity|now apply He].
Qed.

Lemma members_step_agrees s found :
  (forall r, length r < length s -> value1 r = value2 r) ->
  (forall r f, length r < length s -> members1 r f = members2 r f) ->
  members_step value1 members1 s found = members_step value2 members2 s found.
Proof.
  intros Hv Hm; unfold members_step.
  destruct (skip_space s) as [|c r0] eqn:Hs; [reflexivity|].
  apply skip_space_cons in Hs.
  destruct (c =? 34)%N; cbn [negb]; [|reflexivity].
  destruct (string_literal r0 []) as [e|[key r1]] eqn:H1; [reflexivity|].
  apply string_literal_length in H1.
  destruct (skip_space r1) as [|c2 r2] eqn:H2; [reflexivity|].
  apply skip_space_cons in H2.
  destruct (c2 =? 58)%N; cbn [negb]; [|reflexivity].
  rewrite <- (Hv r2) by lia.
  destruct (value1 r2) as [e|[[v3 l3] r3]] eqn:H3; [reflexivity|].
  apply value_shrinks in H3.
  destruct (skip_space r3) as [|c4 r4] eqn:H4; [reflexivity|].
  apply skip_space_cons in H4.
  destruct (c4 =? 44)%N; [apply Hm; lia|reflexivity].
Qed.

Lemma elements_step_agrees s :
  (forall r, length r <= length s -> value1 r = value2 r) ->
  (forall r, length r < length s -> elements1 r = elements2 r) ->
  elements_step value1 elements1 s = elements_step value2 elements2 s.
Proof.
  intros Hv He; unfold elements_step.
  rewrite <- (Hv s) by lia.
  destruct (value1 s) as [e|[[v1 l1] r1]] eqn:H1; [reflexivity|].
  apply value_shrinks in H1.
  destruct (skip_space r1) as [|c2 r2] eqn:H2; [reflexivity|].
  apply skip_space_cons in H2.
  destruct (c2 =? 44)%N; [apply He; lia|reflexivity].
Qed.

End Steps.

(** What is left after a value is shorter than the text it was read
    from. *)
Lemma value_length (fuel : nat) :
  (forall s v l r, value fuel s = inr (v, l, r) -> length r < length s)
  /\ (forall s found v l r,
         members fuel s found = inr (v, l, r) -> length r < length s)
  /\ (forall s v l r, elements fuel s = inr (v, l, r) -> length r < length s).
Proof.
  induction fuel as [|fuel (IHv & IHm & IHe)];
    [repeat split; intros; discriminate|].
  split; [|split]; cbn [value members elements].
  - now apply value_step_length.
  - now apply members_step_length.
  - now apply elements_step_length.
Qed.

(** A bound above twice the length of the text is never exhausted: a
    larger one gives the same result. *)
Lemma value_bound (fuel : nat) :
  (forall s, 2 * length s < fuel -> value (S fuel) s = value fuel s)
  /\ (forall s found, 2 * length s + 1 < fuel ->
                      members (S fuel) s found = members fuel s found)
  /\ (forall s, 2 * length s + 1 < fuel ->
                elements (S fuel) s = elements fuel s).
Proof.
  induction fuel as [|fuel (IHv & IHm & IHe)];
    [repeat split; intros; lia|].
  destruct (value_length (S fuel)) as (Lv & _ & _).
  split; [|split]; intros s; intros.
  - cbn [value]; apply value_step_agrees; intros; [apply IHm|apply IHe]; lia.
  - change (members_step (value (S fuel)) (members (S fuel)) s found
            = members_step (value fuel) (members fuel) s found).
    apply members_step_agrees;
      [exact Lv|intros; apply IHv; lia|intros; apply IHm; lia].
  - change (elements_step (value (S fuel)) (elements (S fuel)) s
            = elements_step (value fuel) (elements fuel) s).
    apply elements_step_agrees;
      [exact Lv|intros; apply IHv; lia|intros; apply IHe; lia].
Qed.

(** The bound that [parse_limit] gives is enough: any larger one reads
    the same value. *)
Lemma parse_limit_bound (s : jsstring) (extra : nat) :
  value (S (2 * length s) + extra) s = value (S (2 * length s)) s.
Proof.
  induction extra as [|extra IH]; [now rewrite Nat.add_0_r|].
  rewrite Nat.add_succ_r, <- IH.
  apply (value_bound (S (2 * length s) + extra)); lia.
Qed.

Example parse_limit_samples :
  parse_limit (arguments_of_limit (js "5")) = inr (JNumber 5)
  /\ parse_limit (arguments_of_limit (js "9007199254740993"))
     = inr (JNumber 9007199254740992)
  /\ parse_limit (arguments_of_limit (js "2.5")) = inr JOther
  /\ parse_limit (js "{}") = inr JUndefined
  /\ parse_limit (arguments_of_limit [])
     = inl (ThrownError
              (error (js "Unexpected token '}', " ++ [quote]
                      ++ arguments_of_limit [] ++ [quote]
                      ++ js " is not valid JSON")))
  /\ parse_limit (js "[[[[")
     = inl (ThrownError (error (js "Unexpected end of JSON input"))).
Proof. repeat split; vm_compute; reflexivity. Qed.

Example Date_toISOString_samples :
  Date_toISOString 0 = js "1970-01-01T00:00:00.000Z"
  /\ Date_toISOString 1700000000000 = js "2023-11-14T22:13:20.000Z"
  /\ Date_toISOString 951782400000 = js "2000-02-29T00:00:00.000Z"
  /\ Date_toISOString (-1) = js "1969-12-31T23:59:59.999Z".
Proof. repeat split; vm_compute; reflexivity. Qed.

End ParserBound.
